(** * SandSim2000/TheGreatWar.cpp: quadtree, camera and unit

    A shallow embedding of the three classes of [TheGreatWar.cpp]
    ([Quadtree], [Camera], [Unit]) and of the event loop of [main],
    followed by the properties of the specification that concern them and
    by further properties of the code.

    The C++ type [float] is IEEE 754 binary32.  It is modelled by the
    [spec_float] type of the Standard Library at precision 24 and maximal
    exponent 128, with its round-to-nearest-even operations: every
    operation of the source rounds its result to binary32 (no excess
    precision, no fused multiply-add).  [int] is modelled by [Z]; the only
    arithmetic of the program on [int] is [depth - 1] under the guard
    [depth > 0], the loop counter [0..4] and [depth % 2], which do not
    overflow.
    [unsigned int] is modelled by [Z] reduced modulo [2^32] where the
    program computes on it. *)

From Stdlib Require Import ZArith List Lia Bool String QArith Qpower Lqa.
From Stdlib Require Import Floats.SpecFloat.
From Equations Require Import Equations.
Import ListNotations.
Open Scope Z_scope.
Set Warnings "-register-all".

(** ** IEEE 754 binary32 *)

Module Binary32.

Definition prec : Z := 24.
Definition emax : Z := 128.

Definition float := spec_float.

Definition add : float -> float -> float := SFadd prec emax.
Definition sub : float -> float -> float := SFsub prec emax.
Definition mul : float -> float -> float := SFmul prec emax.
Definition div : float -> float -> float := SFdiv prec emax.
Definition opp : float -> float := SFopp.

(** The C++ comparisons [<], [<=] and [==]: false as soon as one side is a
    NaN. *)
Definition ltb : float -> float -> bool := SFltb.
Definition leb : float -> float -> bool := SFleb.
Definition eqb : float -> float -> bool := SFeqb.

(** [static_cast<float>(z)] for an integer [z], and the literals that are
    integers. *)
Definition of_int (z : Z) : float := binary_normalize prec emax z 0 false.

(** The float nearest to the fraction [n/d]: the literal [0.1f] is
    [of_ratio 1 10], and [0.05f] is [of_ratio 1 20]. *)
Definition of_ratio (n d : Z) : float := div (of_int n) (of_int d).

Definition is_nan (x : float) : bool :=
  match x with S754_nan => true | _ => false end.

(** Neither a NaN nor an infinity. *)
Definition is_finite (x : float) : bool :=
  match x with
  | S754_zero _ | S754_finite _ _ _ => true
  | _ => false
  end.

(** [std::max(a, b)] is [(a < b) ? b : a]. *)
Definition max (a b : float) : float := if ltb a b then b else a.

(** The rational number a finite float stands for. *)
Definition to_Q (x : float) : option Q :=
  match x with
  | S754_zero _ => Some 0%Q
  | S754_finite s m e =>
      Some (Qmult (inject_Z (cond_Zopp s (Zpos m))) (Qpower (2 # 1) e))
  | _ => None
  end.

(** [exactly x q]: the float [x] is finite and its value is the rational
    [q]. *)
Definition exactly (x : float) (q : Q) : Prop :=
  match to_Q x with
  | Some v => Qeq v q
  | None => False
  end.

(** [exact2 fop qop a b]: [a] and [b] are finite and the float operation
    [fop] on them gives the very result of the operation [qop] on their
    values: nothing is rounded, nothing overflows. *)
Definition exact2 (fop : float -> float -> float) (qop : Q -> Q -> Q)
    (a b : float) : Prop :=
  match to_Q a, to_Q b with
  | Some u, Some v => exactly (fop a b) (qop u v)
  | _, _ => False
  end.

(** A zero, a finite number or an infinity of sign [s]. *)
Definition signed (s : bool) (x : float) : Prop :=
  match x with
  | S754_zero s' | S754_infinity s' | S754_finite s' _ _ => s' = s
  | S754_nan => False
  end.

(** The values a [float] variable holds: an infinity, a NaN, a zero, or a
    mantissa of at most 24 bits with its exponent, in canonical form. *)
Definition valid : float -> bool := valid_binary prec emax.

(** A positive float that is neither zero nor infinite, in the canonical
    form the operations produce. *)
Definition pos_finite (x : float) : bool :=
  match x with
  | S754_finite false m e => bounded prec emax m e
  | _ => false
  end.

(** [scaled x n j]: [x] is the float of value [n * 2^j], in canonical
    form, with an exponent that is not above [j]; the zero is [+0]. *)
Definition scaled (x : float) (n j : Z) : Prop :=
  match x with
  | S754_zero s => s = false /\ n = 0
  | S754_finite s m e =>
      bounded prec emax m e = true /\ e <= j /\
      cond_Zopp s (Zpos m) = n * 2 ^ (j - e)
  | _ => False
  end.

End Binary32.

Abbreviation float := Binary32.float.

Declare Scope f32_scope.
Delimit Scope f32_scope with f32.
Infix "+" := Binary32.add : f32_scope.
Infix "-" := Binary32.sub : f32_scope.
Infix "*" := Binary32.mul : f32_scope.
Infix "/" := Binary32.div : f32_scope.
Infix "<?" := Binary32.ltb : f32_scope.
Infix "<=?" := Binary32.leb : f32_scope.

Arguments Binary32.add : simpl never.
Arguments Binary32.sub : simpl never.
Arguments Binary32.mul : simpl never.
Arguments Binary32.div : simpl never.
Arguments Binary32.leb : simpl never.
Arguments Binary32.ltb : simpl never.
Arguments Binary32.of_int : simpl never.

(** The literals [0.0f] and [2.0f]. *)
Definition zero : float := S754_zero false.
Definition two : float := Eval cbv in Binary32.of_int 2.

(** ** The SFML value types the program uses *)

(** [sf::Vector2f]; its arithmetic is componentwise. *)
Module Vector2f.

Record t : Set := mk { x : float; y : float }.

Definition add (a b : t) : t := mk (x a + x b)%f32 (y a + y b)%f32.
Definition sub (a b : t) : t := mk (x a - x b)%f32 (y a - y b)%f32.
Definition scale (a : t) (k : float) : t := mk (x a * k)%f32 (y a * k)%f32.
Definition div (a : t) (k : float) : t := mk (x a / k)%f32 (y a / k)%f32.

(** [a == b]. *)
Definition eqb (a b : t) : bool :=
  Binary32.eqb (x a) (x b) && Binary32.eqb (y a) (y b).

Definition valid (a : t) : bool := Binary32.valid (x a) && Binary32.valid (y a).

End Vector2f.

(** [sf::Vector2i], and [static_cast<sf::Vector2f>] on it. *)
Module Vector2i.

Record t : Set := mk { x : Z; y : Z }.

Definition to_Vector2f (v : t) : Vector2f.t :=
  Vector2f.mk (Binary32.of_int (x v)) (Binary32.of_int (y v)).

End Vector2i.

(** [sf::FloatRect]. *)
Module FloatRect.

Record t : Set := mk {
  left : float;
  top : float;
  width : float;
  height : float
}.

End FloatRect.

(** [sf::Vector2u]: the components are [unsigned int]. *)
Module Vector2u.

Record t : Set := mk { x : Z; y : Z }.

End Vector2u.

(** The value of an integer expression converted to [unsigned int], and of
    an arithmetic operation on [unsigned int]: modulo [2^32]. *)
Definition to_unsigned (z : Z) : Z := z mod 2 ^ 32.

(** The three [sf::Color] constants the program uses for outlines and
    fills, and [sf::Color::Transparent]. *)
Module Color.

Inductive t : Set := Red | Green | Blue | Transparent.

Definition eqb (a b : t) : bool :=
  match a, b with
  | Red, Red | Green, Green | Blue, Blue | Transparent, Transparent => true
  | _, _ => false
  end.

End Color.

(** [sf::RectangleShape], with the attributes the program sets. *)
Module RectangleShape.

Record t : Set := mk {
  size : Vector2f.t;
  position : Vector2f.t;
  fillColor : Color.t;
  outlineThickness : float;
  outlineColor : Color.t
}.

End RectangleShape.

(** [sf::CircleShape], with the attributes the program sets. *)
Module CircleShape.

Record t : Set := mk {
  radius : float;
  position : Vector2f.t;
  fillColor : Color.t
}.

End CircleShape.

(** What is passed to [sf::RenderWindow::draw]. *)
Inductive Drawable : Set :=
| Rectangle (shape : RectangleShape.t)
| Circle (shape : CircleShape.t).

(** [sf::View]: the two attributes [applyTransform] sets; it leaves the
    others as [getView] returned them. *)
Module View.

Record t : Set := mk { center : Vector2f.t; size : Vector2f.t }.

End View.

(** [sf::RenderWindow], as far as the program observes and changes it: its
    size, its current view, whether it is open, and the shapes drawn since
    the last [clear], in the order of the calls of [draw]. *)
Module RenderWindow.

Record t : Set := mk {
  size : Vector2u.t;
  view : View.t;
  drawn : list Drawable;
  isOpen : bool
}.

Definition draw (w : t) (d : Drawable) : t :=
  mk (size w) (view w) (drawn w ++ [d]) (isOpen w).

Definition clear (w : t) : t := mk (size w) (view w) [] (isOpen w).

Definition setView (w : t) (v : View.t) : t :=
  mk (size w) v (drawn w) (isOpen w).

Definition close (w : t) : t := mk (size w) (view w) (drawn w) false.

End RenderWindow.

(** ** Exceptions *)

Inductive exn : Set :=
| invalid_argument (what : string).

Inductive result (A : Type) : Type :=
| Ok (a : A)
| Throw (e : exn).
Arguments Ok {A} a.
Arguments Throw {A} e.

Definition bind {A B : Type} (m : result A) (k : A -> result B) : result B :=
  match m with
  | Ok a => k a
  | Throw e => Throw e
  end.

Notation "x <- m ;; k" := (bind m (fun x => k))
  (at level 61, m at next level, right associativity).

(** [for (int i = lo; i < lo + n; ++i) body], threading the state the body
    updates. *)
Fixpoint for_loop {S : Type} (n : nat) (i : Z)
    (body : Z -> S -> result S) (s : S) : result S :=
  match n with
  | O => Ok s
  | Datatypes.S n' => s' <- body i s ;; for_loop n' (i + 1) body s'
  end.

(** ** Quadtree *)

(** The children are held through [shared_ptr], but every pointer the
    program stores comes from a [make_shared] in [subdivide] and is stored
    once: the structure is a tree of values. *)
Inductive Quadtree : Set :=
  mkQuadtree {
    bounds : FloatRect.t;
    children : list Quadtree;
    depth : Z
  }.

(** The constructor [Quadtree(rect, initialDepth)]: no children. *)
Definition Quadtree_new (rect : FloatRect.t) (initialDepth : Z) : Quadtree :=
  mkQuadtree rect [] initialDepth.

Definition calculateChildRect (q : Quadtree) (childIndex : Z)
  : result FloatRect.t :=
  let b := bounds q in
  let halfWidth := (FloatRect.width b / two)%f32 in
  let halfHeight := (FloatRect.height b / two)%f32 in
  match childIndex with
  | 0 => (* Top Left *)
      Ok (FloatRect.mk (FloatRect.left b) (FloatRect.top b)
            halfWidth halfHeight)
  | 1 => (* Top Right *)
      Ok (FloatRect.mk (FloatRect.left b + halfWidth)%f32 (FloatRect.top b)
            halfWidth halfHeight)
  | 2 => (* Bottom Left *)
      Ok (FloatRect.mk (FloatRect.left b) (FloatRect.top b + halfHeight)%f32
            halfWidth halfHeight)
  | 3 => (* Bottom Right *)
      Ok (FloatRect.mk (FloatRect.left b + halfWidth)%f32
            (FloatRect.top b + halfHeight)%f32 halfWidth halfHeight)
  | _ => Throw (invalid_argument "Invalid childIndex")
  end.

Definition inspect {A : Type} (a : A) : {b : A | a = b} :=
  exist _ a eq_refl.

(** [std::vector::empty]. *)
Definition vector_empty {A : Type} (v : list A) : bool :=
  match v with [] => true | _ => false end.

(** [subdivide]: the receiver is passed in and returned.  The loop pushes
    each new child at the back of [children] and subdivides it in place;
    [bounds] and [depth] of the receiver are only read.  The recursion is
    on the depth of the receiver: the recursive call is on a child freshly
    built with [depth - 1], under the guard [depth > 0]. *)
Equations? subdivide (q : Quadtree) : result Quadtree
  by wf (Z.to_nat (depth q)) lt :=
subdivide q
  with inspect (negb (vector_empty (children q)) || (depth q <=? 0)) := {
  | exist _ true _ => Ok q
  | exist _ false Hguard =>
      cs <- for_loop 4 0
              (fun i cs =>
                 childRect <- calculateChildRect q i ;;
                 child <- subdivide (Quadtree_new childRect (depth q - 1)) ;;
                 Ok (cs ++ [child]))
              (children q) ;;
      Ok (mkQuadtree (bounds q) cs (depth q)) }.
Proof.
  apply orb_false_elim in Hguard. destruct Hguard as [_ Hd].
  apply Z.leb_gt in Hd. simpl. lia.
Qed.

(** Number of nodes of a tree, the root included. *)
Fixpoint node_count (q : Quadtree) : Z :=
  match q with
  | mkQuadtree _ cs _ => 1 + fold_right Z.add 0 (map node_count cs)
  end.

(** Every node without children has depth 0. *)
Fixpoint leaves_at_zero (q : Quadtree) : bool :=
  match q with
  | mkQuadtree _ [] d => d =? 0
  | mkQuadtree _ cs _ => forallb leaves_at_zero cs
  end.

(** The whole tree is there: a node of depth 0 has no children, and every
    other node has four children, each one level below it. *)
Fixpoint full_tree (q : Quadtree) : bool :=
  match q with
  | mkQuadtree _ [] d => d =? 0
  | mkQuadtree _ cs d =>
      (0 <? d) && (List.length cs =? 4)%nat &&
      forallb (fun c => (depth c =? d - 1) && full_tree c) cs
  end.

(** The node reached from [q] by following child indices. *)
Fixpoint node_at (path : list nat) (q : Quadtree) : option Quadtree :=
  match path with
  | [] => Some q
  | i :: path' =>
      match nth_error (children q) i with
      | Some c => node_at path' c
      | None => None
      end
  end.

(** The outline colour [draw] chooses from the depth; [%] is the C++
    remainder, which truncates towards zero. *)
Definition outlineColor (depth : Z) : Color.t :=
  if depth =? 0 then Color.Red
  else if Z.rem depth 2 =? 0 then Color.Green
  else Color.Blue.

(** [draw]: the children first, in order, then the rectangle of the node
    itself. *)
Fixpoint draw (q : Quadtree) (window : RenderWindow.t) : RenderWindow.t :=
  match q with
  | mkQuadtree b cs d =>
      let rect :=
        RectangleShape.mk
          (Vector2f.mk (FloatRect.width b) (FloatRect.height b))
          (Vector2f.mk (FloatRect.left b) (FloatRect.top b))
          Color.Transparent (Binary32.of_int 1) (outlineColor d) in
      RenderWindow.draw
        (fold_left (fun w child => draw child w) cs window)
        (Rectangle rect)
  end.

(** The rectangles among the shapes drawn, and how many of them have the
    outline colour [c]. *)
Definition outlines (ds : list Drawable) : list Color.t :=
  flat_map (fun d => match d with
                     | Rectangle r => [RectangleShape.outlineColor r]
                     | Circle _ => []
                     end) ds.

Definition count_outline (c : Color.t) (ds : list Drawable) : Z :=
  Z.of_nat (List.length (filter (Color.eqb c) (outlines ds))).

(** *** Geometry of rectangles

    The region of the plane a rectangle with finite fields stands for:
    the points [(px, py)] with [left <= px < left + width] and
    [top <= py < top + height], sums taken in the rationals. *)
Definition covers (r : FloatRect.t) (px py : Q) : Prop :=
  match Binary32.to_Q (FloatRect.left r), Binary32.to_Q (FloatRect.top r),
        Binary32.to_Q (FloatRect.width r), Binary32.to_Q (FloatRect.height r)
  with
  | Some l, Some t, Some w, Some h =>
      (l <= px /\ px < l + w /\ t <= py /\ py < t + h)%Q
  | _, _, _, _ => False
  end.

(** The rectangles [rs] tile [r]: they lie inside [r], every point of [r]
    is in one of them (no gap), and no point is in two of them (no
    overlap). *)
Definition tiles (r : FloatRect.t) (rs : list FloatRect.t) : Prop :=
  (forall c px py, In c rs -> covers c px py -> covers r px py) /\
  (forall px py, covers r px py -> exists c, In c rs /\ covers c px py) /\
  (forall i j ci cj px py,
      nth_error rs i = Some ci -> nth_error rs j = Some cj -> i <> j ->
      covers ci px py -> covers cj px py -> False).

(** After one call on a region created with [rect] and [d], the rectangles
    of the children tile [rect]. *)
Definition subdivide_tiles (rect : FloatRect.t) (d : Z) : Prop :=
  exists t : Quadtree,
    subdivide (Quadtree_new rect d) = Ok t /\
    tiles rect (map bounds (children t)).

(** The fields of [r] are finite, and the two halvings and the two
    midpoints [calculateChildRect] computes from them are exact. *)
Definition halving_exact (r : FloatRect.t) : Prop :=
  match Binary32.to_Q (FloatRect.left r), Binary32.to_Q (FloatRect.top r),
        Binary32.to_Q (FloatRect.width r), Binary32.to_Q (FloatRect.height r)
  with
  | Some X, Some Y, Some W, Some H =>
      Binary32.exactly (FloatRect.width r / two)%f32 (W / 2)%Q /\
      Binary32.exactly (FloatRect.height r / two)%f32 (H / 2)%Q /\
      Binary32.exactly (FloatRect.left r + FloatRect.width r / two)%f32
        (X + W / 2)%Q /\
      Binary32.exactly (FloatRect.top r + FloatRect.height r / two)%f32
        (Y + H / 2)%Q
  | _, _, _, _ => False
  end.

(** [on_grid r X Y W H j]: the fields of [r] are the integers [X], [Y],
    [W] and [H] scaled by [2^j]. *)
Definition on_grid (r : FloatRect.t) (X Y W H j : Z) : Prop :=
  Binary32.scaled (FloatRect.left r) X j /\
  Binary32.scaled (FloatRect.top r) Y j /\
  Binary32.scaled (FloatRect.width r) W j /\
  Binary32.scaled (FloatRect.height r) H j.

(** Every node of the tree that has children is tiled by them. *)
Definition tiled (t : Quadtree) : Prop :=
  forall (path : list nat) (node : Quadtree),
    node_at path t = Some node -> children node <> [] ->
    tiles (bounds node) (map bounds (children node)).

(** ** Camera *)

Module Camera.

Record t : Set := mk {
  position : Vector2f.t;
  zoomFactor : float;
  scrollSpeed : float
}.

(** The literals [0.1f], [0.05f] and [1.f]. *)
Definition c0_1 : float := Eval cbv in Binary32.of_ratio 1 10.
Definition c0_05 : float := Eval cbv in Binary32.of_ratio 1 20.
Definition one : float := Eval cbv in Binary32.of_int 1.

(** The literals [5.f] and [1.5f]. *)
Definition five : float := Eval cbv in Binary32.of_int 5.
Definition c1_5 : float := Eval cbv in Binary32.of_ratio 3 2.

(** The constructor [Camera(initialPosition)], with the default values of
    [zoomFactor] and [scrollSpeed]. *)
Definition new (initialPosition : Vector2f.t) : t :=
  mk initialPosition one five.

Definition EDGE_THRESHOLD : Z := 70.

(** One coordinate of [updateEdgeScrolling]: [mouse] is the [int]
    coordinate of the mouse, [size] the [unsigned int] size of the window.
    The first comparison is between two [int]; in the second,
    [size - EDGE_THRESHOLD] is computed on [unsigned int] and the mouse
    coordinate is converted to [unsigned int]. *)
Definition edgeScroll (pos speed : float) (mouse size : Z) : float :=
  if mouse <? EDGE_THRESHOLD then (pos - speed)%f32
  else if to_unsigned mouse >? to_unsigned (size - EDGE_THRESHOLD)
       then (pos + speed)%f32
       else pos.

(** [updateEdgeScrolling(window)], [mousePosition] being what
    [sf::Mouse::getPosition(window)] returns. *)
Definition updateEdgeScrolling (c : t) (mousePosition : Vector2i.t)
    (window : RenderWindow.t) : t :=
  let size := RenderWindow.size window in
  mk (Vector2f.mk
        (edgeScroll (Vector2f.x (position c)) (scrollSpeed c)
           (Vector2i.x mousePosition) (Vector2u.x size))
        (edgeScroll (Vector2f.y (position c)) (scrollSpeed c)
           (Vector2i.y mousePosition) (Vector2u.y size)))
     (zoomFactor c) (scrollSpeed c).

(** [applyTransform(window)]: the [unsigned int] size of the window is
    converted to [float] for the division. *)
Definition applyTransform (c : t) (window : RenderWindow.t)
  : RenderWindow.t :=
  let size := RenderWindow.size window in
  RenderWindow.setView window
    (View.mk (position c)
       (Vector2f.mk
          (Binary32.of_int (Vector2u.x size) / zoomFactor c * c1_5)%f32
          (Binary32.of_int (Vector2u.y size) / zoomFactor c * c1_5)%f32)).

(** [scrollDelta * 0.05f] converts the [int] to [float] first. *)
Definition updateZoom (c : t) (scrollDelta : Z) : t :=
  mk (position c)
     (Binary32.max c0_1
        (zoomFactor c + Binary32.of_int scrollDelta * c0_05)%f32)
     (scrollSpeed c).

Definition convertWorldToView (c : t) (worldPos : Vector2f.t) : Vector2f.t :=
  Vector2f.scale (Vector2f.sub worldPos (position c)) (zoomFactor c).

Definition convertViewToWorld (c : t) (viewPos : Vector2f.t) : Vector2f.t :=
  Vector2f.add (Vector2f.div viewPos (zoomFactor c)) (position c).

Definition valid (c : t) : bool :=
  Vector2f.valid (position c) && Binary32.valid (zoomFactor c).

End Camera.

(** The four operations of the round trip [convertViewToWorld] after
    [convertWorldToView] on one coordinate [p], for the camera coordinate
    [pos] and the zoom factor [z], are exact. *)
Definition roundtrip_exact (p pos z : float) : Prop :=
  Binary32.exact2 Binary32.sub Qminus p pos /\
  Binary32.exact2 Binary32.mul Qmult (p - pos)%f32 z /\
  Binary32.exact2 Binary32.div Qdiv ((p - pos) * z)%f32 z /\
  Binary32.exact2 Binary32.add Qplus ((p - pos) * z / z)%f32 pos.

(** ** Unit *)

Module Unit.

Record t : Set := mk {
  position : Vector2f.t;
  radius : float;
  isSelected : bool
}.

(** The constructor [Unit(initialPosition, radius)]. *)
Definition new (initialPosition : Vector2f.t) (radius : float) : t :=
  mk initialPosition radius false.

Definition moveTo (u : t) (destination : Vector2f.t) : t :=
  mk destination (radius u) (isSelected u).

(** The left-hand side of the comparison of [contains]. *)
Definition dist2 (u : t) (point : Vector2f.t) : float :=
  let dx := (Vector2f.x point - (Vector2f.x (position u) + radius u))%f32 in
  let dy := (Vector2f.y point - (Vector2f.y (position u) + radius u))%f32 in
  (dx * dx + dy * dy)%f32.

Definition contains (u : t) (point : Vector2f.t) : bool :=
  let dx := (Vector2f.x point - (Vector2f.x (position u) + radius u))%f32 in
  let dy := (Vector2f.y point - (Vector2f.y (position u) + radius u))%f32 in
  ((dx * dx + dy * dy) <=? (radius u * radius u))%f32.

(** The assignment [myUnit.isSelected = b]. *)
Definition set_isSelected (u : t) (b : bool) : t :=
  mk (position u) (radius u) b.

Definition draw (u : t) (window : RenderWindow.t) : RenderWindow.t :=
  RenderWindow.draw window
    (Circle (CircleShape.mk (radius u) (position u)
               (if isSelected u then Color.Green else Color.Blue))).

Definition valid (u : t) : bool :=
  Vector2f.valid (position u) && Binary32.valid (radius u).

End Unit.

(** Every operation of [contains] on [point] is exact: the two additions
    of the radius, the two subtractions, the two squares, their sum and
    the square of the radius. *)
Definition contains_exact (u : Unit.t) (point : Vector2f.t) : Prop :=
  let r := Unit.radius u in
  let cx := (Vector2f.x (Unit.position u) + r)%f32 in
  let cy := (Vector2f.y (Unit.position u) + r)%f32 in
  let dx := (Vector2f.x point - cx)%f32 in
  let dy := (Vector2f.y point - cy)%f32 in
  Binary32.exact2 Binary32.add Qplus (Vector2f.x (Unit.position u)) r /\
  Binary32.exact2 Binary32.add Qplus (Vector2f.y (Unit.position u)) r /\
  Binary32.exact2 Binary32.sub Qminus (Vector2f.x point) cx /\
  Binary32.exact2 Binary32.sub Qminus (Vector2f.y point) cy /\
  Binary32.exact2 Binary32.mul Qmult dx dx /\
  Binary32.exact2 Binary32.mul Qmult dy dy /\
  Binary32.exact2 Binary32.add Qplus (dx * dx)%f32 (dy * dy)%f32 /\
  Binary32.exact2 Binary32.mul Qmult r r.

(** The point is at distance [radius] from [position + (radius, radius)],
    all of it taken in the rationals. *)
Definition on_boundary (u : Unit.t) (point : Vector2f.t) : Prop :=
  match Binary32.to_Q (Vector2f.x point), Binary32.to_Q (Vector2f.y point),
        Binary32.to_Q (Vector2f.x (Unit.position u)),
        Binary32.to_Q (Vector2f.y (Unit.position u)),
        Binary32.to_Q (Unit.radius u)
  with
  | Some px, Some py, Some ux, Some uy, Some r =>
      ((px - (ux + r)) * (px - (ux + r)) + (py - (uy + r)) * (py - (uy + r))
       == r * r)%Q
  | _, _, _, _, _ => False
  end.

(** ** The mouse-button branch of the event loop *)

Module Mouse.

(** [sf::Mouse::Button]. *)
Inductive Button : Set := Left | Right | Middle | XButton1 | XButton2.

End Mouse.

(** What [main] does to [myUnit] on an [sf::Event::MouseButtonPressed]
    event for [button], [mouse] being what [sf::Mouse::getPosition(window)]
    returns. *)
Definition onMouseButtonPressed (button : Mouse.Button) (mouse : Vector2i.t)
    (myUnit : Unit.t) : Unit.t :=
  let mousePos := Vector2i.to_Vector2f mouse in
  match button with
  | Mouse.Left =>
      if Unit.contains myUnit mousePos
      then Unit.set_isSelected myUnit (negb (Unit.isSelected myUnit))
      else Unit.set_isSelected myUnit false
  | Mouse.Right =>
      if Unit.isSelected myUnit then Unit.moveTo myUnit mousePos else myUnit
  | _ => myUnit
  end.

(** ** The event loop of [main] *)

(** [sf::Event]: the three event types [main] handles, and the others.
    [delta] is the [int] that [updateZoom] receives from
    [event.mouseWheelScroll.delta]. *)
Module Event.

Inductive t : Set :=
| Closed
| MouseWheelScrolled (delta : Z)
| MouseButtonPressed (button : Mouse.Button)
| Other.

End Event.

(** The objects of [main]. *)
Module Program.

Record t : Set := mk {
  window : RenderWindow.t;
  root : Quadtree;
  camera : Camera.t;
  myUnit : Unit.t
}.

End Program.

(** [main] up to the loop, for the window the first line creates: the root
    covers the window and is subdivided from depth 3; the camera and the
    unit, of radius [30.0f], are at the centre of the window. *)
Definition init (window : RenderWindow.t) : result Program.t :=
  let size := RenderWindow.size window in
  let rect :=
    FloatRect.mk zero zero (Binary32.of_int (Vector2u.x size))
      (Binary32.of_int (Vector2u.y size)) in
  let windowCenter :=
    Vector2f.mk (Binary32.of_int (Vector2u.x size) / two)%f32
                (Binary32.of_int (Vector2u.y size) / two)%f32 in
  root <- subdivide (Quadtree_new rect 3) ;;
  Ok (Program.mk window root (Camera.new windowCenter)
        (Unit.new windowCenter (Binary32.of_int 30))).

(** The body of the inner loop for one event, [mouse] being what
    [sf::Mouse::getPosition(window)] returns when the event is handled. *)
Definition onEvent (s : Program.t) (event : Event.t) (mouse : Vector2i.t)
  : Program.t :=
  match event with
  | Event.Closed =>
      Program.mk (RenderWindow.close (Program.window s)) (Program.root s)
        (Program.camera s) (Program.myUnit s)
  | Event.MouseWheelScrolled delta =>
      Program.mk (Program.window s) (Program.root s)
        (Camera.updateZoom (Program.camera s) delta) (Program.myUnit s)
  | Event.MouseButtonPressed button =>
      Program.mk (Program.window s) (Program.root s) (Program.camera s)
        (onMouseButtonPressed button mouse (Program.myUnit s))
  | Event.Other => s
  end.

(** [while (window.pollEvent(event))], for the events of the queue, each
    with the mouse position at the time it is handled. *)
Definition pollEvents (s : Program.t) (events : list (Event.t * Vector2i.t))
  : Program.t :=
  fold_left (fun s em => onEvent s (fst em) (snd em)) events s.

(** One turn of the outer loop: the events, edge scrolling, and the
    drawing of the frame.  [mouse] is the mouse position
    [updateEdgeScrolling] reads.  The mouse delta the turn computes is not
    used, and the clock and the sleep at the end of the turn change none
    of the objects. *)
Definition frame (s : Program.t) (events : list (Event.t * Vector2i.t))
    (mouse : Vector2i.t) : Program.t :=
  let s1 := pollEvents s events in
  let camera := Camera.updateEdgeScrolling (Program.camera s1) mouse
                  (Program.window s1) in
  let w1 := RenderWindow.clear (Program.window s1) in
  let w2 := Camera.applyTransform camera w1 in
  let w3 := draw (Program.root s1) w2 in
  let w4 := Unit.draw (Program.myUnit s1) w3 in
  Program.mk w4 (Program.root s1) camera (Program.myUnit s1).

(** [while (window.isOpen())], for the inputs of the successive turns. *)
Fixpoint run (s : Program.t)
    (turns : list (list (Event.t * Vector2i.t) * Vector2i.t)) : Program.t :=
  match turns with
  | [] => s
  | (events, mouse) :: turns' =>
      if RenderWindow.isOpen (Program.window s)
      then run (frame s events mouse) turns'
      else s
  end.

(** What the objects of [main] keep from the state [s0]: the tree, the
    size of the window, the radius of the unit and the scroll speed; and
    the zoom factor is not below [0.1f]. *)
Definition kept (s0 s : Program.t) : Prop :=
  Program.root s = Program.root s0 /\
  RenderWindow.size (Program.window s) = RenderWindow.size (Program.window s0) /\
  Unit.radius (Program.myUnit s) = Unit.radius (Program.myUnit s0) /\
  Camera.scrollSpeed (Program.camera s) = Camera.scrollSpeed (Program.camera s0) /\
  (Camera.c0_1 <=? Camera.zoomFactor (Program.camera s))%f32 = true.

(** The events of a queue that are presses of [button], and those that
    are mouse-wheel events. *)
Definition is_press (button : Mouse.Button) (em : Event.t * Vector2i.t)
  : bool :=
  match fst em, button with
  | Event.MouseButtonPressed Mouse.Left, Mouse.Left
  | Event.MouseButtonPressed Mouse.Right, Mouse.Right
  | Event.MouseButtonPressed Mouse.Middle, Mouse.Middle
  | Event.MouseButtonPressed Mouse.XButton1, Mouse.XButton1
  | Event.MouseButtonPressed Mouse.XButton2, Mouse.XButton2 => true
  | _, _ => false
  end.

Definition is_wheel (em : Event.t * Vector2i.t) : bool :=
  match fst em with Event.MouseWheelScrolled _ => true | _ => false end.

Definition is_closed (em : Event.t * Vector2i.t) : bool :=
  match fst em with Event.Closed => true | _ => false end.

(** ** Sample values *)

(** The rectangle of a 1920 x 1080 window, as [main] builds the root. *)
Definition screen : FloatRect.t :=
  FloatRect.mk (Binary32.of_int 0) (Binary32.of_int 0)
    (Binary32.of_int 1920) (Binary32.of_int 1080).

(** A rectangle of width and height 2 at [2^24] from the origin. *)
Definition far_rect : FloatRect.t :=
  FloatRect.mk (Binary32.of_int 16777216) (Binary32.of_int 0)
    (Binary32.of_int 2) (Binary32.of_int 2).

Definition camera_2x : Camera.t :=
  Camera.mk (Vector2f.mk (Binary32.of_int 100) (Binary32.of_int 50))
    (Binary32.of_int 2) (Binary32.of_int 5).

Definition camera_tenth : Camera.t :=
  Camera.mk (Vector2f.mk (Binary32.of_int 0) (Binary32.of_int 0))
    Camera.c0_1 (Binary32.of_int 5).

Definition myUnit0 : Unit.t :=
  Unit.new (Vector2f.mk (Binary32.of_int 100) (Binary32.of_int 100))
    (Binary32.of_int 30).

Definition unit_5 : Unit.t :=
  Unit.new (Vector2f.mk (Binary32.of_int 0) (Binary32.of_int 0))
    (Binary32.of_int 5).

Definition unit_16909 : Unit.t :=
  Unit.new (Vector2f.mk (Binary32.of_int 0) (Binary32.of_int 0))
    (Binary32.of_int 16909).

Definition point_12859_10980 : Vector2f.t :=
  Vector2f.mk (Binary32.of_int (16909 + 12859))
    (Binary32.of_int (16909 + 10980)).

Definition unit_far : Unit.t :=
  Unit.new (Vector2f.mk (Binary32.of_int 1000000000)
              (Binary32.of_int 1000000000))
    (Binary32.of_int 30).

(** A window of 1920 x 1080 pixels, open, nothing drawn, with the view
    over the whole of it; and a window 50 pixels wide. *)
Definition desktop : RenderWindow.t :=
  RenderWindow.mk (Vector2u.mk 1920 1080)
    (View.mk (Vector2f.mk (Binary32.of_int 960) (Binary32.of_int 540))
             (Vector2f.mk (Binary32.of_int 1920) (Binary32.of_int 1080)))
    [] true.

Definition narrow : RenderWindow.t :=
  RenderWindow.mk (Vector2u.mk 50 1080)
    (View.mk (Vector2f.mk (Binary32.of_int 25) (Binary32.of_int 540))
             (Vector2f.mk (Binary32.of_int 50) (Binary32.of_int 1080)))
    [] true.

(** * Properties *)

Ltac qlra := unfold Qdiv in *; change (/ 2)%Q with (1 # 2)%Q in *; lra.

(** ** The equations of [subdivide] *)

Lemma subdivide_eq (q : Quadtree) :
  subdivide q =
  if negb (vector_empty (children q)) || (depth q <=? 0) then Ok q
  else
    cs <- for_loop 4 0
            (fun i cs =>
               childRect <- calculateChildRect q i ;;
               child <- subdivide (Quadtree_new childRect (depth q - 1)) ;;
               Ok (cs ++ [child]))
            (children q) ;;
    Ok (mkQuadtree (bounds q) cs (depth q)).
Proof.
  rewrite subdivide_equation_1. unfold inspect.
  set (g := negb (vector_empty (children q)) || (depth q <=? 0)).
  assert (G : forall b (H : g = b),
             subdivide_unfold_clause_1 q (exist _ b H) =
             if b then Ok q
             else
               cs <- for_loop 4 0
                       (fun i cs =>
                          childRect <- calculateChildRect q i ;;
                          child <- subdivide
                                     (Quadtree_new childRect (depth q - 1)) ;;
                          Ok (cs ++ [child]))
                       (children q) ;;
               Ok (mkQuadtree (bounds q) cs (depth q))).
  { intros [] H; reflexivity. }
  apply G.
Qed.

Lemma subdivide_has_children (q : Quadtree) :
  children q <> [] -> subdivide q = Ok q.
Proof.
  intros H. rewrite subdivide_eq.
  destruct (children q); [congruence | reflexivity].
Qed.

Lemma subdivide_depth_le_0 (q : Quadtree) :
  depth q <= 0 -> subdivide q = Ok q.
Proof.
  intros H. rewrite subdivide_eq.
  apply Z.leb_le in H. rewrite H, orb_true_r. reflexivity.
Qed.

(** One call on a fresh region of positive depth: the four quadrants are
    built and subdivided in the order of the loop. *)
Lemma subdivide_new_pos (rect : FloatRect.t) (d : Z) :
  0 < d ->
  let hw := (FloatRect.width rect / two)%f32 in
  let hh := (FloatRect.height rect / two)%f32 in
  let x := FloatRect.left rect in
  let y := FloatRect.top rect in
  subdivide (Quadtree_new rect d) =
  tl <- subdivide (Quadtree_new (FloatRect.mk x y hw hh) (d - 1)) ;;
  tr <- subdivide (Quadtree_new (FloatRect.mk (x + hw)%f32 y hw hh) (d - 1)) ;;
  bl <- subdivide (Quadtree_new (FloatRect.mk x (y + hh)%f32 hw hh) (d - 1)) ;;
  br <- subdivide
          (Quadtree_new (FloatRect.mk (x + hw)%f32 (y + hh)%f32 hw hh) (d - 1)) ;;
  Ok (mkQuadtree rect [tl; tr; bl; br] d).
Proof.
  intros Hd hw hh x y. rewrite subdivide_eq.
  simpl. apply Z.leb_gt in Hd. rewrite Hd. fold hw hh x y.
  destruct (subdivide (Quadtree_new (FloatRect.mk x y hw hh) (d - 1)))
    as [tl|]; [|reflexivity]; simpl.
  destruct (subdivide (Quadtree_new (FloatRect.mk (x + hw)%f32 y hw hh) (d - 1)))
    as [tr|]; [|reflexivity]; simpl.
  destruct (subdivide (Quadtree_new (FloatRect.mk x (y + hh)%f32 hw hh) (d - 1)))
    as [bl|]; [|reflexivity]; simpl.
  destruct (subdivide
              (Quadtree_new (FloatRect.mk (x + hw)%f32 (y + hh)%f32 hw hh) (d - 1)))
    as [br|]; reflexivity.
Qed.

(** What one call builds from a fresh region of depth [n >= 0]. *)
Lemma subdivide_new_builds (n : nat) :
  forall rect : FloatRect.t,
  exists t : Quadtree,
    subdivide (Quadtree_new rect (Z.of_nat n)) = Ok t /\
    bounds t = rect /\ depth t = Z.of_nat n /\
    3 * node_count t + 1 = 4 ^ (Z.of_nat n + 1) /\
    leaves_at_zero t = true /\
    full_tree t = true.
Proof.
  induction n as [|n IH]; intros rect.
  - exists (Quadtree_new rect 0). rewrite subdivide_depth_le_0 by (simpl; lia).
    repeat split.
  - assert (Hpos : 0 < Z.of_nat (S n)) by lia.
    rewrite (subdivide_new_pos rect _ Hpos).
    replace (Z.of_nat (S n) - 1) with (Z.of_nat n) by lia.
    set (hw := (FloatRect.width rect / two)%f32).
    set (hh := (FloatRect.height rect / two)%f32).
    set (x := FloatRect.left rect). set (y := FloatRect.top rect).
    destruct (IH (FloatRect.mk x y hw hh))
      as (tl & -> & _ & Dtl & Ntl & Ltl & Ftl).
    destruct (IH (FloatRect.mk (x + hw)%f32 y hw hh))
      as (tr & -> & _ & Dtr & Ntr & Ltr & Ftr).
    destruct (IH (FloatRect.mk x (y + hh)%f32 hw hh))
      as (bl & -> & _ & Dbl & Nbl & Lbl & Fbl).
    destruct (IH (FloatRect.mk (x + hw)%f32 (y + hh)%f32 hw hh))
      as (br & -> & _ & Dbr & Nbr & Lbr & Fbr).
    cbn [bind]. eexists; split; [reflexivity|].
    cbn [bounds depth node_count leaves_at_zero full_tree map fold_right
         forallb List.length Nat.eqb].
    rewrite Ltl, Ltr, Lbl, Lbr, Ftl, Ftr, Fbl, Fbr, Dtl, Dtr, Dbl, Dbr.
    replace (Z.of_nat (S n) - 1) with (Z.of_nat n) by lia.
    rewrite Z.eqb_refl, (proj2 (Z.ltb_lt 0 (Z.of_nat (S n))) Hpos).
    repeat split.
    replace (Z.of_nat (S n) + 1) with (Z.succ (Z.of_nat n + 1)) by lia.
    rewrite Z.pow_succ_r by lia. lia.
Qed.

Lemma fresh_region (q : Quadtree) :
  children q = [] -> q = Quadtree_new (bounds q) (depth q).
Proof. destruct q as [b cs d]; simpl; intros ->; reflexivity. Qed.

(** [subdivide] always returns: the exception of [calculateChildRect] is
    never raised. *)
Lemma subdivide_total (q : Quadtree) :
  exists t : Quadtree, subdivide q = Ok t.
Proof.
  destruct (children q) as [|c cs] eqn:Hc.
  - destruct (Z_le_gt_dec (depth q) 0) as [Hd|Hd].
    + exists q. apply subdivide_depth_le_0, Hd.
    + rewrite (fresh_region q Hc).
      destruct (subdivide_new_builds (Z.to_nat (depth q)) (bounds q))
        as (t & Ht & _).
      rewrite Z2Nat.id in Ht by lia. exists t; exact Ht.
  - exists q. apply subdivide_has_children. congruence.
Qed.

(** ** Idempotence *)

(** C2. A second call of [subdivide] on a region adds nothing: the region
    the first call returns is returned as it is by the second.  More
    generally a call is a no-op as soon as the region has children or its
    depth is at most 0. *)
Theorem subdivide_idempotent (q : Quadtree) :
  (exists t : Quadtree, subdivide q = Ok t /\ subdivide t = Ok t) /\
  (children q <> [] \/ depth q <= 0 -> subdivide q = Ok q).
Proof.
  split.
  - destruct (children q) as [|c cs] eqn:Hc.
    + destruct (Z_le_gt_dec (depth q) 0) as [Hd|Hd].
      * exists q. split; apply subdivide_depth_le_0, Hd.
      * rewrite (fresh_region q Hc).
        assert (Hpos : 0 < depth q) by lia.
        rewrite (subdivide_new_pos _ _ Hpos). cbv zeta.
        repeat match goal with
        | |- context [bind (subdivide ?c) _] =>
            let t := fresh "t" in let E := fresh "E" in
            destruct (subdivide_total c) as [t E]; rewrite E; cbn [bind]
        end.
        eexists; split; [reflexivity|].
        apply subdivide_has_children. discriminate.
    + exists q. split; apply subdivide_has_children; congruence.
  - intros [H|H]; [apply subdivide_has_children | apply subdivide_depth_le_0];
      exact H.
Qed.

Lemma subdivide_idempotent_witness :
  (exists t : Quadtree,
      subdivide (Quadtree_new screen 3) = Ok t /\ subdivide t = Ok t) /\
  subdivide (Quadtree_new screen 0) = Ok (Quadtree_new screen 0).
Proof.
  split.
  - exact (proj1 (subdivide_idempotent (Quadtree_new screen 3))).
  - apply (proj2 (subdivide_idempotent (Quadtree_new screen 0))).
    right. simpl. lia.
Defined.

(** ** Size of the tree *)

(** C3. One call of [subdivide] on a region created with depth [d >= 0]
    returns the whole tree down to depth 0: it has [(4^(d+1) - 1) / 3]
    nodes, the region included (85 for [d = 3]); every node without
    children has depth 0, and every other node has four children one level
    below it. *)
Theorem subdivide_node_count (rect : FloatRect.t) (d : Z) :
  0 <= d ->
  exists t : Quadtree,
    subdivide (Quadtree_new rect d) = Ok t /\
    node_count t = (4 ^ (d + 1) - 1) / 3 /\
    leaves_at_zero t = true /\
    full_tree t = true.
Proof.
  intros Hd.
  destruct (subdivide_new_builds (Z.to_nat d) rect)
    as (t & Ht & _ & _ & N & L & F).
  rewrite Z2Nat.id in Ht, N by exact Hd.
  exists t. repeat split; [exact Ht | | exact L | exact F].
  rewrite <- N. replace (3 * node_count t + 1 - 1) with (node_count t * 3) by lia.
  symmetry. apply Z.div_mul. lia.
Qed.

Lemma subdivide_node_count_witness :
  exists t : Quadtree,
    subdivide (Quadtree_new screen 3) = Ok t /\
    node_count t = 85 /\
    leaves_at_zero t = true /\
    full_tree t = true.
Proof. apply (subdivide_node_count screen 3). lia. Defined.

(** ** The error condition *)

(** C7. [calculateChildRect] returns a rectangle for each index from 0 to
    3 and throws [invalid_argument], the one exception of the program, for
    every other index; [subdivide], which calls it with the indices 0 to 3
    only, never throws. *)
Theorem calculateChildRect_index (q : Quadtree) (childIndex : Z) :
  (((0 <=? childIndex) && (childIndex <=? 3) = true /\
    exists r : FloatRect.t, calculateChildRect q childIndex = Ok r)
   \/
   ((0 <=? childIndex) && (childIndex <=? 3) = false /\
    calculateChildRect q childIndex =
    Throw (invalid_argument "Invalid childIndex")))
  /\
  (exists t : Quadtree, subdivide q = Ok t).
Proof.
  split; [| apply subdivide_total].
  destruct childIndex as [|p|p].
  - left. split; [reflexivity | eexists; reflexivity].
  - destruct p as [[p|p|]|[p|p|]|];
      try (left; split; [reflexivity | eexists; reflexivity]);
      right; (split; [| reflexivity]);
      apply andb_false_intro2; apply Z.leb_gt; lia.
  - right. split; reflexivity.
Qed.

(** ** Frame of [subdivide] *)

Lemma node_at_fresh (q : Quadtree) (path : list nat) (n : Quadtree) :
  children q = [] -> node_at path q = Some n -> path = [] /\ n = q.
Proof.
  intros Hc. destruct path as [|i path]; simpl.
  - intros [= <-]. split; reflexivity.
  - rewrite Hc. destruct i; discriminate.
Qed.

(** C10. [subdivide] writes the children list of the region and nothing
    else of it: the rectangle and the depth of the region are the same
    after the call as before, and so are those of every node that was in
    the tree before the call, which is found at the same place after
    it. *)
Theorem subdivide_frame (q : Quadtree) :
  exists t : Quadtree,
    subdivide q = Ok t /\
    bounds t = bounds q /\ depth t = depth q /\
    forall (path : list nat) (n : Quadtree),
      node_at path q = Some n ->
      exists n' : Quadtree,
        node_at path t = Some n' /\
        bounds n' = bounds n /\ depth n' = depth n.
Proof.
  assert (Same : forall t, t = q ->
            bounds t = bounds q /\ depth t = depth q /\
            forall path n, node_at path q = Some n ->
              exists n', node_at path t = Some n' /\
                         bounds n' = bounds n /\ depth n' = depth n).
  { intros t ->. repeat split. intros path n H. exists n. auto. }
  destruct (children q) as [|c cs] eqn:Hc.
  - destruct (Z_le_gt_dec (depth q) 0) as [Hd|Hd].
    + exists q. split; [apply subdivide_depth_le_0, Hd | apply Same; reflexivity].
    + destruct (subdivide_new_builds (Z.to_nat (depth q)) (bounds q))
        as (t & Ht & Hb & Hdt & _).
      rewrite Z2Nat.id in Ht, Hdt by lia.
      rewrite <- (fresh_region q Hc) in Ht.
      exists t. repeat split; try assumption.
      intros path n Hn.
      destruct (node_at_fresh q path n Hc Hn) as [-> ->].
      exists t. repeat split; assumption.
  - exists q. split; [| apply Same; reflexivity].
    apply subdivide_has_children. congruence.
Qed.

Lemma subdivide_frame_witness :
  exists t : Quadtree,
    subdivide (Quadtree_new screen 3) = Ok t /\
    bounds t = screen /\ depth t = 3 /\
    exists n' : Quadtree,
      node_at [] t = Some n' /\ bounds n' = screen /\ depth n' = 3.
Proof.
  destruct (subdivide_frame (Quadtree_new screen 3)) as (t & Ht & Hb & Hd & F).
  exists t. repeat split; try assumption.
  apply (F [] (Quadtree_new screen 3)). reflexivity.
Defined.

(** ** The quadrants *)

Lemma exactly_to_Q (x : float) (q : Q) :
  Binary32.exactly x q -> exists v : Q, Binary32.to_Q x = Some v /\ (v == q)%Q.
Proof.
  unfold Binary32.exactly. destruct (Binary32.to_Q x) as [v|]; [|tauto].
  intros H. exists v. split; [reflexivity | exact H].
Qed.

Lemma exactly_refl (x : float) (v : Q) :
  Binary32.to_Q x = Some v -> Binary32.exactly x v.
Proof. unfold Binary32.exactly. intros ->. reflexivity. Qed.

Lemma covers_exactly (l t w h : float) (X Y W H px py : Q) :
  Binary32.exactly l X -> Binary32.exactly t Y ->
  Binary32.exactly w W -> Binary32.exactly h H ->
  covers (FloatRect.mk l t w h) px py <->
  (X <= px /\ px < X + W /\ Y <= py /\ py < Y + H)%Q.
Proof.
  intros Hl Ht Hw Hh.
  apply exactly_to_Q in Hl, Ht, Hw, Hh.
  destruct Hl as (vl & El & Hl), Ht as (vt & Et & Ht),
           Hw as (vw & Ew & Hw), Hh as (vh & Eh & Hh).
  unfold covers; simpl. rewrite El, Et, Ew, Eh.
  rewrite Hl, Ht, Hw, Hh. tauto.
Qed.

(** Without rounding the four quadrants tile the rectangle. *)
Lemma quadrants_tile (r : FloatRect.t) :
  halving_exact r ->
  let hw := (FloatRect.width r / two)%f32 in
  let hh := (FloatRect.height r / two)%f32 in
  let x := FloatRect.left r in
  let y := FloatRect.top r in
  tiles r [FloatRect.mk x y hw hh; FloatRect.mk (x + hw)%f32 y hw hh;
           FloatRect.mk x (y + hh)%f32 hw hh;
           FloatRect.mk (x + hw)%f32 (y + hh)%f32 hw hh].
Proof.
  unfold halving_exact. destruct r as [l t w h]; simpl.
  destruct (Binary32.to_Q l) as [X|] eqn:El; [|tauto].
  destruct (Binary32.to_Q t) as [Y|] eqn:Et; [|tauto].
  destruct (Binary32.to_Q w) as [W|] eqn:Ew; [|tauto].
  destruct (Binary32.to_Q h) as [H|] eqn:Eh; [|tauto].
  intros (Hhw & Hhh & Hx & Hy).
  apply exactly_refl in El, Et, Ew, Eh.
  pose proof (fun px py => covers_exactly _ _ _ _ _ _ _ _ px py El Et Ew Eh) as Cr.
  pose proof (fun px py => covers_exactly _ _ _ _ _ _ _ _ px py El Et Hhw Hhh) as C0.
  pose proof (fun px py => covers_exactly _ _ _ _ _ _ _ _ px py Hx Et Hhw Hhh) as C1.
  pose proof (fun px py => covers_exactly _ _ _ _ _ _ _ _ px py El Hy Hhw Hhh) as C2.
  pose proof (fun px py => covers_exactly _ _ _ _ _ _ _ _ px py Hx Hy Hhw Hhh) as C3.
  repeat split.
  - intros c px py Hin Hc. apply Cr.
    destruct Hin as [<-|[<-|[<-|[<-|[]]]]];
      [apply C0 in Hc | apply C1 in Hc | apply C2 in Hc | apply C3 in Hc]; qlra.
  - intros px py Hc. apply Cr in Hc.
    destruct (Qlt_le_dec px (X + W / 2)) as [Hpx|Hpx];
      destruct (Qlt_le_dec py (Y + H / 2)) as [Hpy|Hpy].
    + eexists; split; [left; reflexivity | apply C0; qlra].
    + eexists; split; [right; right; left; reflexivity | apply C2; qlra].
    + eexists; split; [right; left; reflexivity | apply C1; qlra].
    + eexists; split; [right; right; right; left; reflexivity | apply C3; qlra].
  - intros i j ci cj px py Hi Hj Hij Hci Hcj.
    destruct i as [|[|[|[|i]]]]; simpl in Hi; try (destruct i; discriminate);
      injection Hi as <-;
      destruct j as [|[|[|[|j]]]]; simpl in Hj; try (destruct j; discriminate);
      injection Hj as <-; try congruence;
      repeat match goal with
      | H : covers _ _ _ |- _ =>
          first [apply C0 in H | apply C1 in H | apply C2 in H | apply C3 in H]
      end; qlra.
Qed.

Lemma halving_exact_screen : halving_exact screen.
Proof. vm_compute. repeat split. Qed.

(** C1, as the code has it.  One call of [subdivide] on a region created
    with the rectangle [(x, y, w, h)] and a depth [d > 0] gives it four
    children, in the order top-left, top-right, bottom-left, bottom-right:
    their rectangles are [(x, y, w/2, h/2)], [(x + w/2, y, w/2, h/2)],
    [(x, y + h/2, w/2, h/2)] and [(x + w/2, y + h/2, w/2, h/2)], computed
    in single precision, and each has depth [d - 1].  The four rectangles
    tile [(x, y, w, h)], with no gap and no overlap, when [x], [y], [w],
    [h] are finite and the halves [w/2], [h/2] and the midpoints
    [x + w/2], [y + h/2] are computed without rounding. *)
Theorem subdivide_children (rect : FloatRect.t) (d : Z) :
  0 < d ->
  let hw := (FloatRect.width rect / two)%f32 in
  let hh := (FloatRect.height rect / two)%f32 in
  let x := FloatRect.left rect in
  let y := FloatRect.top rect in
  exists tl tr bl br : Quadtree,
    subdivide (Quadtree_new rect d) = Ok (mkQuadtree rect [tl; tr; bl; br] d) /\
    bounds tl = FloatRect.mk x y hw hh /\
    bounds tr = FloatRect.mk (x + hw)%f32 y hw hh /\
    bounds bl = FloatRect.mk x (y + hh)%f32 hw hh /\
    bounds br = FloatRect.mk (x + hw)%f32 (y + hh)%f32 hw hh /\
    depth tl = d - 1 /\ depth tr = d - 1 /\
    depth bl = d - 1 /\ depth br = d - 1 /\
    (halving_exact rect ->
     tiles rect [bounds tl; bounds tr; bounds bl; bounds br]).
Proof.
  intros Hd hw hh x y.
  rewrite (subdivide_new_pos rect d Hd). fold hw hh x y.
  assert (Hd' : 0 <= d - 1) by lia.
  destruct (subdivide_new_builds (Z.to_nat (d - 1)) (FloatRect.mk x y hw hh))
    as (tl & Etl & Btl & Dtl & _).
  destruct (subdivide_new_builds (Z.to_nat (d - 1))
              (FloatRect.mk (x + hw)%f32 y hw hh))
    as (tr & Etr & Btr & Dtr & _).
  destruct (subdivide_new_builds (Z.to_nat (d - 1))
              (FloatRect.mk x (y + hh)%f32 hw hh))
    as (bl & Ebl & Bbl & Dbl & _).
  destruct (subdivide_new_builds (Z.to_nat (d - 1))
              (FloatRect.mk (x + hw)%f32 (y + hh)%f32 hw hh))
    as (br & Ebr & Bbr & Dbr & _).
  rewrite Z2Nat.id in Etl, Etr, Ebl, Ebr, Dtl, Dtr, Dbl, Dbr by exact Hd'.
  rewrite Etl, Etr, Ebl, Ebr. cbn [bind].
  exists tl, tr, bl, br.
  repeat (split; [first [reflexivity | assumption]|]).
  intros Hex. rewrite Btl, Btr, Bbl, Bbr. apply quadrants_tile, Hex.
Qed.

Lemma subdivide_children_witness :
  exists tl tr bl br : Quadtree,
    subdivide (Quadtree_new screen 3) =
      Ok (mkQuadtree screen [tl; tr; bl; br] 3) /\
    depth tl = 2 /\
    tiles screen [bounds tl; bounds tr; bounds bl; bounds br].
Proof.
  destruct (subdivide_children screen 3 ltac:(lia))
    as (tl & tr & bl & br & E & _ & _ & _ & _ & D & _ & _ & _ & T).
  exists tl, tr, bl, br.
  split; [exact E | split; [exact D | apply T]].
  vm_compute. repeat split.
Defined.

(** C1 as the specification states it fails far from the origin, where the
    midpoint [left + width / 2] is rounded: the rectangle [(2^24, 0, 2, 2)]
    gets its two right quadrants on top of the two left ones. *)
Lemma subdivide_tiles_far_rect : ~ subdivide_tiles far_rect 1.
Proof.
  intros (t & Ht & _ & _ & Hover).
  rewrite (subdivide_new_pos far_rect 1) in Ht by lia.
  cbv zeta in Ht.
  rewrite !subdivide_depth_le_0 in Ht by (simpl; lia).
  cbn [bind] in Ht. injection Ht as <-.
  refine (Hover 0%nat 1%nat _ _ (16777216 # 1)%Q (1 # 2)%Q
            eq_refl eq_refl _ _ _).
  - discriminate.
  - vm_compute. repeat split; discriminate.
  - vm_compute. repeat split; discriminate.
Qed.

(** ** Comparisons *)

Lemma SFcompare_antisym (a b : float) :
  SFcompare b a =
  match SFcompare a b with Some c => Some (CompOpp c) | None => None end.
Proof.
  destruct a as [sa|sa| |sa ma ea], b as [sb|sb| |sb mb eb];
    try reflexivity; try (destruct sa; reflexivity);
    try (destruct sb; reflexivity); try (destruct sa, sb; reflexivity).
  cbn [SFcompare].
  rewrite (Z.compare_antisym ea eb).
  change (Pos.compare_cont Eq mb ma)
    with (Pos.compare_cont (CompOpp Eq) mb ma).
  rewrite <- (Pos.compare_cont_antisym ma mb Eq).
  destruct sa, sb; try reflexivity;
    destruct (ea ?= eb); cbn [CompOpp]; reflexivity.
Qed.

Lemma ltb_leb (a b : float) :
  Binary32.ltb a b = true -> Binary32.leb a b = true.
Proof.
  unfold Binary32.ltb, Binary32.leb, SFltb, SFleb.
  destruct (SFcompare a b) as [[]|]; congruence.
Qed.

Lemma eqb_leb (a b : float) :
  Binary32.eqb a b = true -> Binary32.leb a b = true.
Proof.
  unfold Binary32.eqb, Binary32.leb, SFeqb, SFleb.
  destruct (SFcompare a b) as [[]|]; congruence.
Qed.

Lemma leb_not_ltb (a b : float) :
  Binary32.leb a b = true -> Binary32.ltb b a = false.
Proof.
  unfold Binary32.ltb, Binary32.leb, SFltb, SFleb.
  rewrite (SFcompare_antisym a b).
  destruct (SFcompare a b) as [[]|]; cbn [CompOpp]; congruence.
Qed.

Lemma leb_refl (a : float) :
  Binary32.is_nan a = false -> Binary32.leb a a = true.
Proof.
  unfold Binary32.leb, SFleb.
  destruct a as [s|s| |s m e]; try discriminate; intros _;
    try (destruct s; reflexivity).
  cbn [SFcompare]. rewrite Z.compare_refl, Pos.compare_cont_refl.
  destruct s; reflexivity.
Qed.

(** ** Zoom *)

Lemma max_floor (a b : float) :
  Binary32.is_nan a = false -> Binary32.leb a (Binary32.max a b) = true.
Proof.
  intros Ha. unfold Binary32.max.
  destruct (Binary32.ltb a b) eqn:E.
  - apply ltb_leb, E.
  - apply leb_refl, Ha.
Qed.

(** C4. For every camera and every delta, [updateZoom] sets [zoomFactor]
    to [max(0.1f, zoomFactor + delta * 0.05f)]: to the sum itself when it
    is above [0.1f] (there is no ceiling), to [0.1f] otherwise.  The new
    [zoomFactor] is never below [0.1f], whatever the old one (a NaN
    included) and however negative the delta; the float [0.1f] is itself
    not below one tenth.  From [zoomFactor = 1] the delta [-1000] gives
    [0.1f]. *)
Theorem updateZoom_floor (c : Camera.t) (scrollDelta : Z) :
  let s := (Camera.zoomFactor c
            + Binary32.of_int scrollDelta * Camera.c0_05)%f32 in
  let c' := Camera.updateZoom c scrollDelta in
  Camera.zoomFactor c' = Binary32.max Camera.c0_1 s /\
  Camera.zoomFactor c' = (if (Camera.c0_1 <? s)%f32 then s else Camera.c0_1) /\
  (Camera.c0_1 <=? Camera.zoomFactor c')%f32 = true /\
  (Camera.zoomFactor c' <? Camera.c0_1)%f32 = false /\
  (exists v : Q, Binary32.to_Q Camera.c0_1 = Some v /\ (1 # 10 <= v)%Q) /\
  Camera.zoomFactor
    (Camera.updateZoom
       (Camera.mk (Camera.position c) Camera.one (Camera.scrollSpeed c))
       (-1000)) = Camera.c0_1.
Proof.
  intros s c'.
  assert (F : (Camera.c0_1 <=? Camera.zoomFactor c')%f32 = true)
    by (apply max_floor; reflexivity).
  split; [reflexivity|]. split; [reflexivity|].
  split; [exact F|]. split; [apply leb_not_ltb, F|].
  split.
  - eexists. split; [reflexivity|]. vm_compute. discriminate.
  - vm_compute. reflexivity.
Qed.

(** ** Exact operations *)

Lemma exact2_inv fop qop a b :
  Binary32.exact2 fop qop a b ->
  exists u v w : Q,
    Binary32.to_Q a = Some u /\ Binary32.to_Q b = Some v /\
    Binary32.to_Q (fop a b) = Some w /\ (w == qop u v)%Q.
Proof.
  unfold Binary32.exact2.
  destruct (Binary32.to_Q a) as [u|]; [|tauto].
  destruct (Binary32.to_Q b) as [v|]; [|tauto].
  intros H. apply exactly_to_Q in H. destruct H as (w & Hw & E).
  exists u, v, w. auto.
Qed.

(** ** Rounding never produces a NaN *)

Section Rounding.

Variables prec emax : Z.

Lemma shr_1_nonneg (mrs : shr_record) :
  0 <= shr_m mrs -> 0 <= shr_m (shr_1 mrs).
Proof.
  destruct mrs as [m r s]. destruct m as [|[p|p|]|p]; simpl; lia.
Qed.

Lemma iter_shr_1_nonneg (p : positive) :
  forall mrs : shr_record,
    0 <= shr_m mrs -> 0 <= shr_m (iter_pos shr_1 p mrs).
Proof.
  induction p as [p IH|p IH|]; intros mrs H; simpl.
  - apply IH, IH, shr_1_nonneg, H.
  - apply IH, IH, H.
  - apply shr_1_nonneg, H.
Qed.

Lemma shr_fexp_nonneg (m e : Z) (l : location) :
  0 <= m -> 0 <= shr_m (fst (shr_fexp prec emax m e l)).
Proof.
  intros H. unfold shr_fexp, shr.
  assert (H0 : 0 <= shr_m (shr_record_of_loc m l))
    by (destruct l as [|[]]; exact H).
  destruct (fexp prec emax (Zdigits2 m + e) - e); simpl;
    [exact H0 | apply iter_shr_1_nonneg, H0 | exact H0].
Qed.

Lemma round_nearest_even_nonneg (m : Z) (l : location) :
  0 <= m -> 0 <= round_nearest_even m l.
Proof.
  intros H. destruct l as [|[]]; simpl; try destruct (Z.even m); lia.
Qed.

(** Rounding a non-negative mantissa with the sign [s] gives a zero, a
    finite number or an infinity of sign [s]. *)
Lemma binary_round_aux_signed (s : bool) (m e : Z) (l : location) :
  0 <= m -> Binary32.signed s (binary_round_aux prec emax s m e l).
Proof.
  intros H. unfold binary_round_aux.
  pose proof (shr_fexp_nonneg m e l H) as H1.
  destruct (shr_fexp prec emax m e l) as [mrs' e']. simpl in H1.
  pose proof (shr_fexp_nonneg _ e' loc_Exact
                (round_nearest_even_nonneg _ (loc_of_shr_record mrs') H1))
    as H2.
  destruct (shr_fexp prec emax
              (round_nearest_even (shr_m mrs') (loc_of_shr_record mrs'))
              e' loc_Exact) as [mrs'' e'']. simpl in H2.
  destruct (shr_m mrs'') as [|p|p]; simpl; [reflexivity | | lia].
  destruct (e'' <=? emax - prec); reflexivity.
Qed.

End Rounding.

(** ** Canonical results *)

Lemma digits2_pos_size (p : positive) : digits2_pos p = Pos.size p.
Proof. induction p as [p IH|p IH|]; simpl; congruence. Qed.

Lemma Zdigits2_log2 (m : Z) : 0 < m -> Zdigits2 m = Z.log2 m + 1.
Proof.
  destruct m as [|p|p]; try lia. intros _. simpl.
  rewrite digits2_pos_size. destruct p; simpl; lia.
Qed.

Lemma Zdigits2_nonneg (m : Z) : 0 <= Zdigits2 m.
Proof. destruct m; simpl; lia. Qed.

Lemma Zdigits2_le (m n : Z) : 0 <= m -> m <= n -> Zdigits2 m <= Zdigits2 n.
Proof.
  intros Hm Hmn. destruct (Z.eq_dec m 0) as [->|Hm0].
  - apply Zdigits2_nonneg.
  - rewrite !Zdigits2_log2 by lia.
    pose proof (Z.log2_le_mono m n Hmn). lia.
Qed.

Lemma shr_1_m (r : shr_record) :
  0 <= shr_m r -> shr_m (shr_1 r) = Z.div2 (shr_m r).
Proof.
  destruct r as [m rb sb]. destruct m as [|[p|p|]|p]; simpl; try reflexivity; lia.
Qed.

Lemma iter_shr_1_m (p : positive) :
  forall r : shr_record,
    0 <= shr_m r ->
    shr_m (iter_pos shr_1 p r) = Z.shiftr (shr_m r) (Zpos p).
Proof.
  induction p as [p IH|p IH|]; intros r H; simpl iter_pos.
  - rewrite IH by (apply iter_shr_1_nonneg, shr_1_nonneg, H).
    rewrite IH by (apply shr_1_nonneg, H).
    rewrite shr_1_m by exact H.
    rewrite Z.div2_spec, !Z.shiftr_shiftr by lia.
    f_equal. lia.
  - rewrite IH by (apply iter_shr_1_nonneg, H).
    rewrite IH by exact H.
    rewrite Z.shiftr_shiftr by lia. f_equal. lia.
  - rewrite shr_1_m by exact H. apply Z.div2_spec.
Qed.

Section Canonical.

Variables prec emax : Z.
Hypothesis Hprec : 0 < prec.

Let fexp := SpecFloat.fexp prec emax.
Let emin := SpecFloat.emin prec emax.

Lemma fexp_eq (x : Z) : fexp x = Z.max (x - prec) emin.
Proof. reflexivity. Qed.

(** What a mantissa and an exponent look like after [shr_fexp]: a positive
    mantissa is canonical, a null one comes with the least exponent. *)
Lemma shr_fexp_shifted (m e : Z) (l : location) :
  0 <= m -> e <= fexp (Zdigits2 m + e) ->
  let m' := shr_m (fst (shr_fexp prec emax m e l)) in
  let e' := snd (shr_fexp prec emax m e l) in
  0 <= m' /\ (0 < m' -> fexp (Zdigits2 m' + e') = e') /\ (m' = 0 -> e' = emin).
Proof.
  intros Hm He m' e'. subst m' e'. unfold shr_fexp, shr. fold fexp.
  assert (Hrec : shr_m (shr_record_of_loc m l) = m) by (destruct l as [|[]]; reflexivity).
  assert (Hrec0 : 0 <= shr_m (shr_record_of_loc m l)) by lia.
  destruct (fexp (Zdigits2 m + e) - e) as [|p|p] eqn:En; cbn [fst snd].
  - rewrite Hrec. repeat split; [exact Hm | lia |].
    intros ->. simpl in En, He. rewrite fexp_eq in En, He. lia.
  - rewrite iter_shr_1_m, Hrec by exact Hrec0.
    assert (H0 : 0 <= Z.shiftr m (Z.pos p)) by (apply Z.shiftr_nonneg; exact Hm).
    repeat split; [exact H0 | |].
    + intros Hpos.
      assert (Hm0 : 0 < m).
      { destruct (Z.eq_dec m 0) as [->|]; [rewrite Z.shiftr_0_l in Hpos|]; lia. }
      assert (Hlog : Z.pos p <= Z.log2 m).
      { destruct (Z_le_gt_dec (Z.pos p) (Z.log2 m)) as [|Hgt]; [assumption|].
        assert (Z.shiftr m (Z.pos p) = 0)
          by (apply Z.shiftr_eq_0_iff; right; split; lia). lia. }
      rewrite (Zdigits2_log2 _ Hpos), (Z.log2_shiftr _ _ Hm0).
      rewrite (Zdigits2_log2 m Hm0) in En.
      replace (Z.max 0 (Z.log2 m - Z.pos p) + 1 + (e + Z.pos p))
        with (Z.log2 m + 1 + e) by lia.
      lia.
    + intros Hz. apply Z.shiftr_eq_0_iff in Hz.
      rewrite fexp_eq in En. destruct Hz as [->|[Hm0 Hlt]].
      * simpl in En. lia.
      * rewrite (Zdigits2_log2 m Hm0) in En. lia.
  - lia.
Qed.

Lemma round_nearest_even_cases (m : Z) (l : location) :
  round_nearest_even m l = m \/ round_nearest_even m l = m + 1.
Proof. destruct l as [|[]]; simpl; try destruct (Z.even m); auto. Qed.

(** A result of [binary_round_aux] is in canonical form when the mantissa
    it starts from has enough digits for its exponent. *)
Lemma binary_round_aux_valid (s : bool) (m e : Z) (l : location) :
  0 <= m -> e <= fexp (Zdigits2 m + e) ->
  valid_binary prec emax (binary_round_aux prec emax s m e l) = true.
Proof.
  intros Hm He. unfold binary_round_aux.
  pose proof (shr_fexp_shifted m e l Hm He) as (H1 & H1c & H1z).
  destruct (shr_fexp prec emax m e l) as [mrs' e']. cbn [fst snd] in *.
  set (m2 := round_nearest_even (shr_m mrs') (loc_of_shr_record mrs')).
  assert (Hm2 : shr_m mrs' <= m2 <= shr_m mrs' + 1).
  { unfold m2.
    destruct (round_nearest_even_cases (shr_m mrs') (loc_of_shr_record mrs'))
      as [-> | ->]; lia. }
  assert (He2 : e' <= fexp (Zdigits2 m2 + e')).
  { destruct (Z.eq_dec (shr_m mrs') 0) as [Hz|Hnz].
    - rewrite (H1z Hz), fexp_eq. lia.
    - rewrite <- (H1c ltac:(lia)) at 1.
      pose proof (Zdigits2_le (shr_m mrs') m2 H1 ltac:(lia)).
      rewrite !fexp_eq. lia. }
  pose proof (shr_fexp_shifted m2 e' loc_Exact ltac:(lia) He2) as (H3 & H3c & _).
  destruct (shr_fexp prec emax m2 e' loc_Exact) as [mrs'' e''].
  cbn [fst snd] in *.
  destruct (shr_m mrs'') as [|p|p] eqn:Em; try reflexivity.
  destruct (e'' <=? emax - prec) eqn:Eb; [|reflexivity].
  cbn [valid_binary]. unfold bounded, canonical_mantissa.
  rewrite Eb, andb_true_r. apply Z.eqb_eq. apply (H3c ltac:(lia)).
Qed.

End Canonical.

Lemma iter_xO (d m : positive) : Zpos (Pos.iter xO m d) = Zpos m * 2 ^ Zpos d.
Proof.
  induction d as [|d IH] using Pos.peano_ind.
  - simpl. lia.
  - rewrite Pos.iter_succ, Pos2Z.inj_succ, Z.pow_succ_r by lia.
    rewrite Pos2Z.inj_xO, IH. lia.
Qed.

Section Canonical_ops.

Variables prec emax : Z.
Hypothesis Hprec : 0 < prec.

Let fexp := SpecFloat.fexp prec emax.
Let emin := SpecFloat.emin prec emax.
Let valid := valid_binary prec emax.

Lemma binary_round_valid (s : bool) (m : positive) (e : Z) :
  valid (binary_round prec emax s m e) = true.
Proof.
  unfold binary_round, shl_align. fold fexp.
  change (Z.pos (digits2_pos m)) with (Zdigits2 (Z.pos m)).
  destruct (fexp (Zdigits2 (Z.pos m) + e) - e) as [|p|p] eqn:En;
    apply (binary_round_aux_valid prec emax Hprec); fold fexp; try lia.
  rewrite iter_xO.
  rewrite !Zdigits2_log2 by lia. rewrite Zdigits2_log2 in En by lia.
  rewrite Z.log2_mul_pow2 by lia.
  replace (Z.pos p + Z.log2 (Z.pos m) + 1 + fexp (Z.log2 (Z.pos m) + 1 + e))
    with (Z.log2 (Z.pos m) + 1 + e) by lia.
  lia.
Qed.

Lemma binary_normalize_valid (m e : Z) (sz : bool) :
  valid (binary_normalize prec emax m e sz) = true.
Proof. destruct m; simpl; [reflexivity | apply binary_round_valid ..]. Qed.

Lemma SFadd_valid (x y : spec_float) :
  valid x = true -> valid y = true -> valid (SFadd prec emax x y) = true.
Proof.
  intros Hx Hy.
  destruct x as [sx|sx| |sx mx ex], y as [sy|sy| |sy my ey];
    try reflexivity; try exact Hx; try exact Hy;
    try (destruct sx, sy; reflexivity).
  apply binary_normalize_valid.
Qed.

Lemma SFsub_valid (x y : spec_float) :
  valid x = true -> valid y = true -> valid (SFsub prec emax x y) = true.
Proof.
  intros Hx Hy.
  destruct x as [sx|sx| |sx mx ex], y as [sy|sy| |sy my ey];
    try reflexivity; try exact Hx; try exact Hy;
    try (destruct sx, sy; reflexivity).
  apply binary_normalize_valid.
Qed.

Lemma bounded_digits (m : positive) (e : Z) :
  bounded prec emax m e = true ->
  e = fexp (Zdigits2 (Zpos m) + e).
Proof.
  unfold bounded, canonical_mantissa. intros H.
  apply andb_true_iff in H. destruct H as [H _].
  apply Z.eqb_eq in H. symmetry. exact H.
Qed.

Hypothesis Hemin : emin <= 0.

Lemma SFmul_valid (x y : spec_float) :
  valid x = true -> valid y = true -> valid (SFmul prec emax x y) = true.
Proof.
  intros Hx Hy.
  destruct x as [sx|sx| |sx mx ex], y as [sy|sy| |sy my ey];
    try reflexivity.
  cbn [SFmul]. apply (binary_round_aux_valid prec emax Hprec); [lia|].
  apply bounded_digits in Hx, Hy. fold fexp.
  rewrite Zdigits2_log2 in Hx, Hy |- * by lia.
  pose proof (Z.log2_mul_below (Z.pos mx) (Z.pos my) ltac:(lia) ltac:(lia)) as L.
  pose proof (Z.log2_nonneg (Z.pos mx)). pose proof (Z.log2_nonneg (Z.pos my)).
  change (Z.pos (mx * my)) with (Z.pos mx * Z.pos my).
  revert Hx Hy. unfold fexp, SpecFloat.fexp. fold emin. lia.
Qed.

End Canonical_ops.

Section Canonical_div.

Variables prec emax : Z.
Hypothesis Hprec : 0 < prec.

Let fexp := SpecFloat.fexp prec emax.
Let valid := valid_binary prec emax.

Lemma div_digits (m1 m2 s : Z) :
  0 < m1 -> 0 < m2 -> 0 <= s ->
  0 <= m1 * 2 ^ s / m2 /\
  Zdigits2 m1 + s - Zdigits2 m2 <= Zdigits2 (m1 * 2 ^ s / m2).
Proof.
  intros H1 H2 Hs.
  assert (Hq : 0 <= m1 * 2 ^ s / m2) by (apply Z.div_pos; nia).
  split; [exact Hq|].
  rewrite (Zdigits2_log2 m1 H1), (Zdigits2_log2 m2 H2).
  destruct (Z_lt_ge_dec (Z.log2 m1 + s) (Z.log2 m2 + 1)) as [Hk|Hk].
  - pose proof (Zdigits2_nonneg (m1 * 2 ^ s / m2)). lia.
  - set (k := Z.log2 m1 + s - (Z.log2 m2 + 1)).
    assert (Hk0 : 0 <= k) by (unfold k; lia).
    assert (Hlow : 2 ^ k <= m1 * 2 ^ s / m2).
    { apply Z.div_le_lower_bound; [exact H2|].
      pose proof (Z.log2_spec m1 H1) as [L1 _].
      pose proof (Z.log2_spec m2 H2) as [_ U2].
      replace (Z.succ (Z.log2 m2)) with (Z.log2 m2 + 1) in U2 by lia.
      assert (E : 2 ^ (Z.log2 m1) * 2 ^ s = 2 ^ k * 2 ^ (Z.log2 m2 + 1)).
      { pose proof (Z.log2_nonneg m1). pose proof (Z.log2_nonneg m2).
        rewrite <- !Z.pow_add_r by lia.
        apply (f_equal (Z.pow 2)). unfold k. lia. }
      assert (0 < 2 ^ k) by (apply Z.pow_pos_nonneg; lia).
      assert (0 < 2 ^ s) by (apply Z.pow_pos_nonneg; lia).
      nia. }
    assert (Hqpos : 0 < m1 * 2 ^ s / m2).
    { assert (0 < 2 ^ k) by (apply Z.pow_pos_nonneg; lia). lia. }
    rewrite (Zdigits2_log2 _ Hqpos).
    pose proof (Z.log2_le_mono _ _ Hlow) as L.
    rewrite Z.log2_pow2 in L by exact Hk0. unfold k in L. lia.
Qed.

Lemma SFdiv_valid (x y : spec_float) :
  valid x = true -> valid y = true -> valid (SFdiv prec emax x y) = true.
Proof.
  intros Hx Hy.
  destruct x as [sx|sx| |sx mx ex], y as [sy|sy| |sy my ey];
    try reflexivity.
  cbn [SFdiv]. unfold SFdiv_core_binary. fold fexp.
  set (d1 := Zdigits2 (Z.pos mx)). set (d2 := Zdigits2 (Z.pos my)).
  set (e' := Z.min (fexp (d1 + ex - (d2 + ey))) (ex - ey)).
  set (s := ex - ey - e').
  assert (Hs : 0 <= s) by (unfold s, e'; lia).
  set (m' := match s with
             | 0 => Z.pos mx
             | Z.pos _ => Z.shiftl (Z.pos mx) s
             | Z.neg _ => 0
             end).
  assert (Hm' : m' = Z.pos mx * 2 ^ s).
  { unfold m'. destruct s as [|p|p]; [simpl; lia | | lia].
    apply Z.shiftl_mul_pow2. lia. }
  pose proof (div_digits (Z.pos mx) (Z.pos my) s ltac:(lia) ltac:(lia) Hs)
    as [Hq Hd].
  rewrite <- Hm' in Hq, Hd. fold d1 d2 in Hd.
  unfold Z.div in Hq, Hd.
  destruct (Z.div_eucl m' (Z.pos my)) as [q r].
  apply (binary_round_aux_valid prec emax Hprec); [exact Hq|].
  fold fexp. unfold e' at 1.
  assert (M : fexp (d1 + ex - (d2 + ey)) <= fexp (Zdigits2 q + e')).
  { unfold fexp, SpecFloat.fexp. unfold s in Hd. lia. }
  lia.
Qed.

End Canonical_div.

(** ** Floats of equal value *)

Lemma scaled_eq (z1 z2 e1 e2 : Z) :
  e1 <= e2 ->
  (inject_Z z1 * Qpower (2 # 1) e1 == inject_Z z2 * Qpower (2 # 1) e2)%Q ->
  z1 = z2 * 2 ^ (e2 - e1).
Proof.
  intros He H.
  assert (N2 : ~ (2 # 1 == 0)%Q) by discriminate.
  replace e2 with (e1 + (e2 - e1)) in H by lia.
  rewrite (Qpower_plus _ _ _ N2) in H.
  rewrite <- (Zpower_Qpower 2 (e2 - e1)) in H by lia.
  change (inject_Z 2) with (2 # 1)%Q in H.
  assert (P : ~ (Qpower (2 # 1) e1 == 0)%Q) by (apply Qpower_not_0; exact N2).
  setoid_replace (inject_Z z2 * (Qpower (2 # 1) e1 * inject_Z (2 ^ (e2 - e1))))%Q
    with (inject_Z (z2 * 2 ^ (e2 - e1)) * Qpower (2 # 1) e1)%Q in H
    by (rewrite inject_Z_mult; ring).
  apply Qmult_inj_r in H; [|exact P].
  exact (proj1 (inject_Z_injective _ _) H).
Qed.

Section Same_value.

Variables prec emax : Z.

Let valid := valid_binary prec emax.

Lemma finite_value_nonzero (s : bool) (m : positive) (e : Z) :
  ~ (inject_Z (cond_Zopp s (Z.pos m)) * Qpower (2 # 1) e == 0)%Q.
Proof.
  intros H. apply Qmult_integral in H. destruct H as [H|H].
  - change 0%Q with (inject_Z 0) in H.
    apply (proj1 (inject_Z_injective _ _)) in H. destruct s; discriminate H.
  - revert H. apply Qpower_not_0. discriminate.
Qed.

Lemma canonical_unique (s1 s2 : bool) (m1 m2 : positive) (e1 e2 : Z) :
  e1 <= e2 ->
  bounded prec emax m1 e1 = true -> bounded prec emax m2 e2 = true ->
  (inject_Z (cond_Zopp s1 (Z.pos m1)) * Qpower (2 # 1) e1 ==
   inject_Z (cond_Zopp s2 (Z.pos m2)) * Qpower (2 # 1) e2)%Q ->
  s1 = s2 /\ m1 = m2 /\ e1 = e2.
Proof.
  intros He B1 B2 H.
  apply scaled_eq in H; [|exact He].
  apply bounded_digits in B1, B2.
  assert (P : 0 < 2 ^ (e2 - e1)) by (apply Z.pow_pos_nonneg; lia).
  assert (Hs : s1 = s2).
  { destruct s1, s2; cbn [cond_Zopp] in H; try reflexivity; nia. }
  subst s2.
  assert (Hm : Z.pos m1 = Z.pos m2 * 2 ^ (e2 - e1)).
  { destruct s1; cbn [cond_Zopp] in H; lia. }
  rewrite Hm in B1.
  rewrite !Zdigits2_log2 in B1, B2 by lia.
  rewrite Z.log2_mul_pow2 in B1 by lia.
  replace (e2 - e1 + Z.log2 (Z.pos m2) + 1 + e1)
    with (Z.log2 (Z.pos m2) + 1 + e2) in B1 by lia.
  assert (E : e1 = e2) by congruence.
  subst e2. rewrite Z.sub_diag in Hm. change (2 ^ 0) with 1 in Hm.
  repeat split. lia.
Qed.

(** Two floats in canonical form that have the same value are equal for
    [==]. *)
Lemma same_value_eqb (a b : spec_float) (va vb : Q) :
  valid a = true -> valid b = true ->
  Binary32.to_Q a = Some va -> Binary32.to_Q b = Some vb -> (va == vb)%Q ->
  SFeqb a b = true.
Proof.
  intros Ha Hb Ea Eb H.
  destruct a as [sa|sa| |sa ma ea], b as [sb|sb| |sb mb eb];
    try discriminate Ea; try discriminate Eb;
    injection Ea as <-; injection Eb as <-.
  - reflexivity.
  - symmetry in H. apply finite_value_nonzero in H. contradiction.
  - apply finite_value_nonzero in H. contradiction.
  - assert (U : sa = sb /\ ma = mb /\ ea = eb).
    { destruct (Z_le_gt_dec ea eb) as [L|L].
      - apply (canonical_unique sa sb ma mb ea eb L Ha Hb H).
      - symmetry in H.
        destruct (canonical_unique sb sa mb ma eb ea ltac:(lia) Hb Ha H)
          as (-> & -> & ->). repeat split. }
    destruct U as (-> & -> & ->).
    unfold SFeqb. cbn [SFcompare].
    rewrite Z.compare_refl, Pos.compare_cont_refl. destruct sb; reflexivity.
Qed.

End Same_value.

(** ** Single precision *)

Lemma prec_pos : 0 < Binary32.prec.
Proof. reflexivity. Qed.

Lemma emin_nonpos : emin Binary32.prec Binary32.emax <= 0.
Proof. discriminate. Qed.

Lemma add_valid (a b : float) :
  Binary32.valid a = true -> Binary32.valid b = true ->
  Binary32.valid (a + b)%f32 = true.
Proof. apply SFadd_valid, prec_pos. Qed.

Lemma sub_valid (a b : float) :
  Binary32.valid a = true -> Binary32.valid b = true ->
  Binary32.valid (a - b)%f32 = true.
Proof. apply SFsub_valid, prec_pos. Qed.

Lemma mul_valid (a b : float) :
  Binary32.valid a = true -> Binary32.valid b = true ->
  Binary32.valid (a * b)%f32 = true.
Proof. apply SFmul_valid; [apply prec_pos | apply emin_nonpos]. Qed.

Lemma div_valid (a b : float) :
  Binary32.valid a = true -> Binary32.valid b = true ->
  Binary32.valid (a / b)%f32 = true.
Proof. apply SFdiv_valid, prec_pos. Qed.

Lemma of_int_valid (z : Z) : Binary32.valid (Binary32.of_int z) = true.
Proof. apply binary_normalize_valid, prec_pos. Qed.

(** Two floats of the same value compare equal with [==]. *)
Lemma exactly_eqb (a b : float) (v : Q) :
  Binary32.valid a = true -> Binary32.valid b = true ->
  Binary32.exactly a v -> Binary32.exactly b v -> Binary32.eqb a b = true.
Proof.
  intros Va Vb Ea Eb.
  apply exactly_to_Q in Ea, Eb.
  destruct Ea as (va & Ha & Ea), Eb as (vb & Hb & Eb).
  apply (same_value_eqb Binary32.prec Binary32.emax a b va vb Va Vb Ha Hb).
  rewrite Ea, Eb. reflexivity.
Qed.

Lemma Vector2f_valid_inv (v : Vector2f.t) :
  Vector2f.valid v = true ->
  Binary32.valid (Vector2f.x v) = true /\ Binary32.valid (Vector2f.y v) = true.
Proof. intros H. apply andb_true_iff in H. exact H. Qed.

(** ** Round trip of the camera conversions *)

Lemma positive_to_Q (z : float) :
  Binary32.ltb zero z = true ->
  forall v : Q, Binary32.to_Q z = Some v -> (0 < v)%Q.
Proof.
  destruct z as [s|s| |s m e]; intros Hz v Hv;
    try discriminate Hv; try (destruct s; discriminate Hz).
  - destruct s; [discriminate Hz|].
    injection Hv as <-. cbn [cond_Zopp].
    apply Qmult_lt_0_compat; [reflexivity | apply Qpower_0_lt; reflexivity].
Qed.

Lemma roundtrip_coordinate (p pos z : float) :
  Binary32.ltb zero z = true ->
  roundtrip_exact p pos z ->
  exists v : Q,
    Binary32.to_Q p = Some v /\
    Binary32.exactly ((p - pos) * z / z + pos)%f32 v.
Proof.
  intros Hz (E1 & E2 & E3 & E4).
  apply exact2_inv in E1, E2, E3, E4.
  destruct E1 as (P & POS & v1 & HP & HPOS & Hv1 & E1).
  destruct E2 as (v1' & Z & v2 & Hv1' & HZ & Hv2 & E2).
  destruct E3 as (v2' & Z' & v3 & Hv2' & HZ' & Hv3 & E3).
  destruct E4 as (v3' & POS' & v4 & Hv3' & HPOS' & Hv4 & E4).
  rewrite Hv1 in Hv1'. injection Hv1' as <-.
  rewrite Hv2 in Hv2'. injection Hv2' as <-.
  rewrite Hv3 in Hv3'. injection Hv3' as <-.
  rewrite HZ in HZ'. injection HZ' as <-.
  rewrite HPOS in HPOS'. injection HPOS' as <-.
  pose proof (positive_to_Q z Hz Z HZ) as Zpos.
  exists P. split; [exact HP|].
  unfold Binary32.exactly. rewrite Hv4, E4, E3, E2, E1.
  field. intros H0. rewrite H0 in Zpos. discriminate.
Qed.

Lemma roundtrip_coordinate_eqb (p pos z : float) :
  Binary32.valid p = true -> Binary32.valid pos = true ->
  Binary32.valid z = true ->
  Binary32.ltb zero z = true ->
  roundtrip_exact p pos z ->
  Binary32.eqb ((p - pos) * z / z + pos)%f32 p = true.
Proof.
  intros Vp Vpos Vz Hz Hx.
  destruct (roundtrip_coordinate _ _ _ Hz Hx) as (v & Hv & Ev).
  apply (exactly_eqb _ _ v).
  - apply add_valid; [apply div_valid; [apply mul_valid; [apply sub_valid|]|]|];
      assumption.
  - exact Vp.
  - exact Ev.
  - unfold Binary32.exactly. rewrite Hv. reflexivity.
Qed.

(** C8, as the code has it.  For every camera, [convertWorldToView] is
    [(point - position) * zoomFactor] and [convertViewToWorld] is
    [point / zoomFactor + position], computed componentwise in single
    precision.  For [zoomFactor > 0] the two are inverse of each other up
    to rounding: when for each coordinate the subtraction, the
    multiplication, the division and the addition of the round trip are
    exact, [convertViewToWorld (convertWorldToView p)] has the value of
    [p], and is equal to [p] with [==]. *)
Theorem convert_roundtrip (c : Camera.t) (p : Vector2f.t) :
  let pos := Camera.position c in
  let z := Camera.zoomFactor c in
  Camera.convertWorldToView c p =
    Vector2f.mk ((Vector2f.x p - Vector2f.x pos) * z)%f32
                ((Vector2f.y p - Vector2f.y pos) * z)%f32 /\
  Camera.convertViewToWorld c p =
    Vector2f.mk (Vector2f.x p / z + Vector2f.x pos)%f32
                (Vector2f.y p / z + Vector2f.y pos)%f32 /\
  (Binary32.ltb zero z = true ->
   roundtrip_exact (Vector2f.x p) (Vector2f.x pos) z ->
   roundtrip_exact (Vector2f.y p) (Vector2f.y pos) z ->
   let p' := Camera.convertViewToWorld c (Camera.convertWorldToView c p) in
   (exists vx vy : Q,
      Binary32.to_Q (Vector2f.x p) = Some vx /\
      Binary32.to_Q (Vector2f.y p) = Some vy /\
      Binary32.exactly (Vector2f.x p') vx /\
      Binary32.exactly (Vector2f.y p') vy) /\
   (Camera.valid c = true -> Vector2f.valid p = true ->
    Vector2f.eqb p' p = true)).
Proof.
  intros pos z. split; [reflexivity | split; [reflexivity|]].
  intros Hz Hx Hy p'. split.
  - destruct (roundtrip_coordinate _ _ _ Hz Hx) as (vx & Hvx & Ex).
    destruct (roundtrip_coordinate _ _ _ Hz Hy) as (vy & Hvy & Ey).
    exists vx, vy. auto.
  - intros Vc Vp. apply andb_true_iff in Vc. destruct Vc as [Vpos Vz].
    apply Vector2f_valid_inv in Vpos, Vp.
    destruct Vpos as [Vpx Vpy], Vp as [Vx Vy].
    unfold Vector2f.eqb. apply andb_true_iff. split.
    + apply (roundtrip_coordinate_eqb _ _ _ Vx Vpx Vz Hz Hx).
    + apply (roundtrip_coordinate_eqb _ _ _ Vy Vpy Vz Hz Hy).
Qed.

Lemma convert_roundtrip_witness :
  let p := Vector2f.mk (Binary32.of_int 3) (Binary32.of_int 7) in
  let p' := Camera.convertViewToWorld camera_2x
              (Camera.convertWorldToView camera_2x p) in
  (exists vx vy : Q,
     Binary32.to_Q (Vector2f.x p) = Some vx /\
     Binary32.to_Q (Vector2f.y p) = Some vy /\
     Binary32.exactly (Vector2f.x p') vx /\
     Binary32.exactly (Vector2f.y p') vy) /\
  Vector2f.eqb p' p = true.
Proof.
  intros p p'.
  assert (Hz : Binary32.ltb zero (Camera.zoomFactor camera_2x) = true)
    by reflexivity.
  assert (Hx : roundtrip_exact (Vector2f.x p)
                 (Vector2f.x (Camera.position camera_2x))
                 (Camera.zoomFactor camera_2x))
    by (vm_compute; repeat split).
  assert (Hy : roundtrip_exact (Vector2f.y p)
                 (Vector2f.y (Camera.position camera_2x))
                 (Camera.zoomFactor camera_2x))
    by (vm_compute; repeat split).
  split.
  - exact (proj1 (proj2 (proj2 (convert_roundtrip camera_2x p)) Hz Hx Hy)).
  - apply (proj2 (proj2 (proj2 (convert_roundtrip camera_2x p)) Hz Hx Hy));
      reflexivity.
Defined.

(** C8 as the specification states it fails: with the zoom factor [0.1f],
    which is positive, and the camera at the origin, the point (13, 13)
    does not come back ([13 * 0.1f / 0.1f] is the float after 13). *)
Lemma roundtrip_13_tenth :
  let p := Vector2f.mk (Binary32.of_int 13) (Binary32.of_int 13) in
  Binary32.ltb zero (Camera.zoomFactor camera_tenth) = true /\
  Vector2f.eqb (Camera.convertViewToWorld camera_tenth
                  (Camera.convertWorldToView camera_tenth p)) p = false.
Proof. split; vm_compute; reflexivity. Qed.

(** ** Containment *)

Lemma add_finite_inv (a b : float) :
  Binary32.is_finite (a + b)%f32 = true ->
  Binary32.is_finite a = true /\ Binary32.is_finite b = true.
Proof.
  destruct a as [sa|sa| |sa ma ea], b as [sb|sb| |sb mb eb];
    try (intros; split; reflexivity); intros H;
    try discriminate H; destruct sa, sb; discriminate H.
Qed.

Lemma sub_self (a : float) :
  Binary32.is_finite a = true -> (a - a)%f32 = zero.
Proof.
  destruct a as [s|s| |s m e]; intros H; try discriminate H.
  - destruct s; reflexivity.
  - unfold Binary32.sub, SFsub. rewrite Z.sub_diag. reflexivity.
Qed.

Lemma mul_self_nonneg (r : float) :
  Binary32.is_finite r = true -> (zero <=? r * r)%f32 = true.
Proof.
  destruct r as [s|s| |s m e]; intros H; try discriminate H.
  - destruct s; reflexivity.
  - unfold Binary32.mul, SFmul. rewrite xorb_nilpotent.
    pose proof (binary_round_aux_signed Binary32.prec Binary32.emax false
                  (Zpos (m * m)) (e + e) loc_Exact ltac:(lia)) as S.
    destruct (binary_round_aux _ _ _ _ _ _) as [s'|s'| |s' m' e'];
      cbn [Binary32.signed] in S; try contradiction; subst s'; reflexivity.
Qed.

Lemma mul_opp_opp (r : float) :
  (Binary32.opp r * Binary32.opp r)%f32 = (r * r)%f32.
Proof.
  destruct r as [[]|[]| |[] m e];
    unfold Binary32.mul, Binary32.opp; cbn [SFmul SFopp xorb negb]; reflexivity.
Qed.

(** Doubling a positive finite float gives a larger float, or the
    infinity. *)
Lemma add_self_gt (q : float) :
  Binary32.pos_finite q = true -> (q + q <=? q)%f32 = false.
Proof.
  destruct q as [s|s| |s m e]; intros H; try discriminate H.
  destruct s; [discriminate H|].
  unfold Binary32.pos_finite, bounded, canonical_mantissa in H.
  apply andb_true_iff in H. destruct H as [Hc He].
  apply Z.eqb_eq in Hc. apply Z.leb_le in He.
  unfold Binary32.add, SFadd. rewrite Z.min_id.
  unfold shl_align at 1 2. rewrite Z.sub_diag. cbn [fst cond_Zopp].
  change (Z.pos m + Z.pos m) with (Z.pos (m + m)). rewrite Pos.add_diag.
  unfold binary_normalize, binary_round.
  cbn [digits2_pos]. rewrite Pos2Z.inj_succ.
  set (d := Z.pos (digits2_pos m)) in *.
  assert (Hd : 0 < d) by (unfold d; lia).
  assert (HF : fexp Binary32.prec Binary32.emax (Z.succ d + e) = e \/
               fexp Binary32.prec Binary32.emax (Z.succ d + e) = e + 1).
  { revert Hc. unfold fexp, emin, Binary32.prec, Binary32.emax. lia. }
  unfold shl_align.
  destruct HF as [HF|HF]; rewrite HF.
  - rewrite Z.sub_diag. unfold binary_round_aux, shr_fexp.
    cbn [Zdigits2 digits2_pos]. rewrite Pos2Z.inj_succ. fold d.
    rewrite HF, Z.sub_diag.
    cbn [shr shr_record_of_loc loc_of_shr_record shr_m round_nearest_even].
    cbn [Zdigits2 digits2_pos]. rewrite Pos2Z.inj_succ. fold d.
    rewrite HF, Z.sub_diag. cbn [shr shr_m].
    rewrite (proj2 (Z.leb_le _ _) He).
    unfold Binary32.leb, SFleb. cbn [SFcompare].
    rewrite Z.compare_refl.
    change (Pos.compare_cont Eq m~0 m) with (Pos.compare m~0 m).
    rewrite (proj2 (Pos.compare_gt_iff _ _)) by lia. reflexivity.
  - replace (e + 1 - e) with 1 by lia.
    unfold binary_round_aux, shr_fexp.
    cbn [Zdigits2 digits2_pos]. rewrite Pos2Z.inj_succ. fold d.
    rewrite HF. replace (e + 1 - e) with 1 by lia.
    cbn [shr shr_record_of_loc iter_pos shr_1 orb loc_of_shr_record shr_m
         round_nearest_even Zdigits2].
    fold d. replace (d + (e + 1)) with (Z.succ d + e) by lia.
    rewrite HF, Z.sub_diag. cbn [shr shr_m].
    unfold Binary32.leb, SFleb.
    destruct (e + 1 <=? Binary32.emax - Binary32.prec); cbn [SFcompare].
    + rewrite (proj2 (Z.compare_gt_iff (e + 1) e)) by lia. reflexivity.
    + reflexivity.
Qed.

(** The square of a float, when it is finite and not zero, is a positive
    float in canonical form. *)
Lemma mul_self_pos_finite (r : float) :
  Binary32.valid r = true ->
  Binary32.is_finite (r * r)%f32 = true ->
  (zero <? r * r)%f32 = true ->
  Binary32.pos_finite (r * r)%f32 = true.
Proof.
  intros Vr. pose proof (mul_valid r r Vr Vr) as V. revert V.
  generalize (r * r)%f32. intros q V F P.
  destruct q as [s|s| |s m e]; try discriminate F.
  - destruct s; discriminate P.
  - destruct s; [discriminate P | exact V].
Qed.

(** C5, as the code has it.  For every unit, [contains] tests the point
    against the circle centred at [position + (radius, radius)], not at
    [position]: it compares [dx * dx + dy * dy] with [radius * radius],
    where [dx] and [dy] are the offsets of the point from
    [position + radius], all in single precision.  It returns true for the
    point [position + (radius, radius)] when that sum is finite.  It
    returns false for the point [position] when [radius > 0], the offset
    [position - (position + radius)] comes out as [-radius] on both
    coordinates (the radius is not absorbed by the position), and
    [radius * radius] is finite and positive (it neither overflows nor
    underflows to 0). *)
Theorem contains_offset_center (u : Unit.t) :
  let px := Vector2f.x (Unit.position u) in
  let py := Vector2f.y (Unit.position u) in
  let r := Unit.radius u in
  (forall point : Vector2f.t,
      Unit.contains u point =
      ((Vector2f.x point - (px + r)) * (Vector2f.x point - (px + r))
       + (Vector2f.y point - (py + r)) * (Vector2f.y point - (py + r))
       <=? r * r)%f32) /\
  (Binary32.is_finite (px + r)%f32 = true ->
   Binary32.is_finite (py + r)%f32 = true ->
   Unit.contains u (Vector2f.mk (px + r)%f32 (py + r)%f32) = true) /\
  (Binary32.valid r = true ->
   (zero <? r)%f32 = true ->
   (px - (px + r))%f32 = Binary32.opp r ->
   (py - (py + r))%f32 = Binary32.opp r ->
   Binary32.is_finite (r * r)%f32 = true ->
   (zero <? r * r)%f32 = true ->
   Unit.contains u (Unit.position u) = false).
Proof.
  intros px py r. split; [reflexivity | split].
  - intros Fx Fy. unfold Unit.contains. cbn [Vector2f.x Vector2f.y].
    fold px py r. rewrite (sub_self _ Fx), (sub_self _ Fy).
    change (zero * zero + zero * zero)%f32 with zero.
    apply mul_self_nonneg. apply (add_finite_inv px r Fx).
  - intros Vr _ Hx Hy Fr Pr. unfold Unit.contains. fold px py r.
    rewrite Hx, Hy, mul_opp_opp.
    apply add_self_gt, mul_self_pos_finite; assumption.
Qed.

Lemma contains_offset_center_witness :
  Unit.contains myUnit0
    (Vector2f.mk (Binary32.of_int 130) (Binary32.of_int 130)) = true /\
  Unit.contains myUnit0 (Unit.position myUnit0) = false.
Proof.
  split.
  - apply (proj1 (proj2 (contains_offset_center myUnit0))); reflexivity.
  - apply (proj2 (proj2 (contains_offset_center myUnit0))); reflexivity.
Defined.

(** C5 as the specification states it fails far from the origin: for the
    unit at (10^9, 10^9) of radius 30, [position + radius] is [position]
    again, and [contains] returns true for [position] although the radius
    is positive. *)
Lemma contains_position_far :
  (zero <? Unit.radius unit_far)%f32 = true /\
  Unit.contains unit_far (Unit.position unit_far) = true.
Proof. split; vm_compute; reflexivity. Qed.

(** ** Inclusive boundary *)

Lemma contains_eq (u : Unit.t) (point : Vector2f.t) :
  Unit.contains u point =
  (Unit.dist2 u point <=? Unit.radius u * Unit.radius u)%f32.
Proof. reflexivity. Qed.

Lemma contains_boundary (u : Unit.t) (point : Vector2f.t) :
  Unit.valid u = true -> Vector2f.valid point = true ->
  contains_exact u point -> on_boundary u point ->
  Binary32.eqb (Unit.dist2 u point) (Unit.radius u * Unit.radius u)%f32 = true.
Proof.
  intros Vu Vp Ex B.
  apply andb_true_iff in Vu. destruct Vu as [Vpos Vr].
  apply Vector2f_valid_inv in Vpos, Vp. destruct Vpos as [Vpx Vpy], Vp as [Vx Vy].
  unfold contains_exact in Ex. cbv zeta in Ex.
  destruct Ex as (E1 & E2 & E3 & E4 & E5 & E6 & E7 & E8).
  apply exact2_inv in E1, E2, E3, E4, E5, E6, E7, E8.
  destruct E1 as (PX & R & CX & HPX & HR & HCX & E1).
  destruct E2 as (PY & R2 & CY & HPY & HR2 & HCY & E2).
  destruct E3 as (X & CX' & DX & HX & HCX' & HDX & E3).
  destruct E4 as (Y & CY' & DY & HY & HCY' & HDY & E4).
  destruct E5 as (DX' & DX'' & SX & HDX' & HDX'' & HSX & E5).
  destruct E6 as (DY' & DY'' & SY & HDY' & HDY'' & HSY & E6).
  destruct E7 as (SX' & SY' & D2 & HSX' & HSY' & HD2 & E7).
  destruct E8 as (R3 & R4 & RR & HR3 & HR4 & HRR & E8).
  rewrite HR in HR2, HR3, HR4. injection HR2 as <-. injection HR3 as <-.
  injection HR4 as <-.
  rewrite HCX in HCX'. injection HCX' as <-.
  rewrite HCY in HCY'. injection HCY' as <-.
  rewrite HDX in HDX', HDX''. injection HDX' as <-. injection HDX'' as <-.
  rewrite HDY in HDY', HDY''. injection HDY' as <-. injection HDY'' as <-.
  rewrite HSX in HSX'. injection HSX' as <-.
  rewrite HSY in HSY'. injection HSY' as <-.
  unfold on_boundary in B. rewrite HX, HY, HPX, HPY, HR in B.
  apply (exactly_eqb _ _ (R * R)%Q).
  - unfold Unit.dist2.
    apply add_valid; apply mul_valid; apply sub_valid;
      try assumption; apply add_valid; assumption.
  - apply mul_valid; assumption.
  - unfold Binary32.exactly, Unit.dist2. rewrite HD2.
    rewrite E7, E5, E6, E3, E4, E1, E2. exact B.
  - unfold Binary32.exactly. rewrite HRR. exact E8.
Qed.

(** C9, as the code has it.  The comparison of [contains] is [<=], not
    [<]: for every point whose squared distance from
    [position + (radius, radius)], as [contains] computes it in single
    precision ([dx * dx + dy * dy]), is equal to [radius * radius] as
    computed, [contains] returns true.  That is so for every point at
    distance [radius] exactly from [position + (radius, radius)] for which
    the additions, subtractions and multiplications of [contains] are
    exact. *)
Theorem contains_inclusive (u : Unit.t) (point : Vector2f.t) :
  (Binary32.eqb (Unit.dist2 u point) (Unit.radius u * Unit.radius u)%f32 = true ->
   Unit.contains u point = true) /\
  (Unit.valid u = true -> Vector2f.valid point = true ->
   contains_exact u point -> on_boundary u point ->
   Unit.contains u point = true).
Proof.
  split.
  - intros H. rewrite contains_eq. apply eqb_leb, H.
  - intros Vu Vp Ex B. rewrite contains_eq.
    apply eqb_leb, contains_boundary; assumption.
Qed.

Lemma contains_inclusive_witness :
  let point := Vector2f.mk (Binary32.of_int 8) (Binary32.of_int 9) in
  on_boundary unit_5 point /\ contains_exact unit_5 point /\
  Unit.contains unit_5 point = true.
Proof.
  intros point.
  assert (B : on_boundary unit_5 point) by (vm_compute; reflexivity).
  assert (Ex : contains_exact unit_5 point) by (vm_compute; repeat split).
  split; [exact B | split; [exact Ex|]].
  apply (proj2 (contains_inclusive unit_5 point));
    [reflexivity | reflexivity | exact Ex | exact B].
Defined.

(** C9 as the specification states it fails: the point at (12859, 10980)
    from the centre of the unit of radius 16909 is at distance 16909
    exactly, but the squares are rounded and the sum of the two comes out
    above the square of the radius. *)
Lemma on_boundary_not_contained :
  on_boundary unit_16909 point_12859_10980 /\
  Unit.contains unit_16909 point_12859_10980 = false.
Proof. split; vm_compute; reflexivity. Qed.

(** ** Mouse clicks *)

(** C6. From the unit at (100,100) of radius 30, not selected: a left
    click at (130,130) selects it; a left click at (0,0) after that
    deselects it; a right click at (500,500) while it is selected does
    [moveTo] and puts it at (500,500), still selected; while it is not
    selected the right click does nothing. *)
Theorem click_scenario :
  let u1 := onMouseButtonPressed Mouse.Left (Vector2i.mk 130 130) myUnit0 in
  let u2 := onMouseButtonPressed Mouse.Left (Vector2i.mk 0 0) u1 in
  let u3 := onMouseButtonPressed Mouse.Right (Vector2i.mk 500 500) u1 in
  Unit.isSelected myUnit0 = false /\
  Unit.isSelected u1 = true /\
  Unit.position u1 = Unit.position myUnit0 /\
  Unit.isSelected u2 = false /\
  Unit.position u3 =
    Vector2f.mk (Binary32.of_int 500) (Binary32.of_int 500) /\
  Unit.isSelected u3 = true /\
  u3 = Unit.moveTo u1 (Vector2i.to_Vector2f (Vector2i.mk 500 500)) /\
  onMouseButtonPressed Mouse.Right (Vector2i.mk 500 500) u2 = u2.
Proof. vm_compute. repeat split. Qed.

(** [moveTo] overwrites the position, whatever it was, and nothing
    else. *)
Lemma moveTo_position (u : Unit.t) (destination : Vector2f.t) :
  Unit.position (Unit.moveTo u destination) = destination /\
  Unit.radius (Unit.moveTo u destination) = Unit.radius u /\
  Unit.isSelected (Unit.moveTo u destination) = Unit.isSelected u.
Proof. repeat split. Qed.

(** * Further properties of the code *)

(** ** Drawing the quadtree *)

Lemma Quadtree_forall_ind (P : Quadtree -> Prop) :
  (forall b cs d, Forall P cs -> P (mkQuadtree b cs d)) ->
  forall q, P q.
Proof.
  intros H. fix IH 1. intros [b cs d]. apply H.
  induction cs as [|c cs IHcs]; constructor; [apply IH | exact IHcs].
Qed.

Lemma draw_eq (q : Quadtree) (window : RenderWindow.t) :
  draw q window =
  RenderWindow.draw
    (fold_left (fun w child => draw child w) (children q) window)
    (Rectangle
       (RectangleShape.mk
          (Vector2f.mk (FloatRect.width (bounds q)) (FloatRect.height (bounds q)))
          (Vector2f.mk (FloatRect.left (bounds q)) (FloatRect.top (bounds q)))
          Color.Transparent (Binary32.of_int 1) (outlineColor (depth q)))).
Proof. destruct q; reflexivity. Qed.

(** [draw] adds shapes after those already drawn, and touches nothing else
    of the window. *)
Lemma draw_children_appends (cs : list Quadtree) :
  Forall (fun c => forall w : RenderWindow.t,
            exists shapes : list Drawable,
              draw c w =
                RenderWindow.mk (RenderWindow.size w) (RenderWindow.view w)
                  (RenderWindow.drawn w ++ shapes) (RenderWindow.isOpen w) /\
              Z.of_nat (List.length shapes) = node_count c /\
              Forall (fun d => exists r, d = Rectangle r) shapes) cs ->
  forall w : RenderWindow.t,
  exists l : list Drawable,
    fold_left (fun w child => draw child w) cs w =
      RenderWindow.mk (RenderWindow.size w) (RenderWindow.view w)
        (RenderWindow.drawn w ++ l) (RenderWindow.isOpen w) /\
    Z.of_nat (List.length l) = fold_right Z.add 0 (map node_count cs) /\
    Forall (fun d => exists r, d = Rectangle r) l.
Proof.
  induction 1 as [|c cs Hc _ IHcs]; intros w.
  - exists []. rewrite app_nil_r. destruct w; repeat split. constructor.
  - destruct (Hc w) as (l1 & E1 & N1 & R1).
    destruct (IHcs (draw c w)) as (l2 & E2 & N2 & R2).
    exists (l1 ++ l2). cbn [fold_left map fold_right]. rewrite E2, E1.
    cbn [RenderWindow.size RenderWindow.view RenderWindow.drawn
         RenderWindow.isOpen].
    rewrite <- app_assoc, length_app, Nat2Z.inj_add, N1, N2.
    repeat split. apply Forall_app; split; assumption.
Qed.

Lemma draw_appends (q : Quadtree) :
  forall window : RenderWindow.t,
  exists shapes : list Drawable,
    draw q window =
      RenderWindow.mk (RenderWindow.size window) (RenderWindow.view window)
        (RenderWindow.drawn window ++ shapes) (RenderWindow.isOpen window) /\
    Z.of_nat (List.length shapes) = node_count q /\
    Forall (fun d => exists r, d = Rectangle r) shapes.
Proof.
  induction q as [b cs d IH] using Quadtree_forall_ind. intros window.
  destruct (draw_children_appends cs IH window) as (l & E & N & R).
  rewrite draw_eq. cbn [children bounds depth]. rewrite E.
  eexists (l ++ [_]). unfold RenderWindow.draw.
  cbn [RenderWindow.size RenderWindow.view RenderWindow.drawn
       RenderWindow.isOpen].
  rewrite <- app_assoc. split; [reflexivity|]. split.
  - rewrite length_app, Nat2Z.inj_add, N. cbn [node_count List.length]. lia.
  - apply Forall_app; split; [exact R|]. constructor; [|constructor].
    eexists; reflexivity.
Qed.


Lemma count_outline_app (c : Color.t) (l1 l2 : list Drawable) :
  count_outline c (l1 ++ l2) = count_outline c l1 + count_outline c l2.
Proof.
  unfold count_outline, outlines.
  rewrite flat_map_app, filter_app, length_app. lia.
Qed.

Lemma count_outline_draw (c : Color.t) (q : Quadtree) (w : RenderWindow.t) :
  count_outline c (RenderWindow.drawn (draw q w)) =
  count_outline c
    (RenderWindow.drawn
       (fold_left (fun w child => draw child w) (children q) w))
  + (if Color.eqb c (outlineColor (depth q)) then 1 else 0).
Proof.
  rewrite draw_eq. unfold RenderWindow.draw. cbn [RenderWindow.drawn].
  rewrite count_outline_app. f_equal.
  unfold count_outline, outlines.
  cbn [flat_map RectangleShape.outlineColor app filter].
  destruct (Color.eqb c (outlineColor (depth q))); reflexivity.
Qed.

Lemma outlineColor_pos (d : Z) :
  0 < d ->
  Color.eqb Color.Red (outlineColor d) = false /\
  (if Color.eqb Color.Green (outlineColor d) then 1 else 0)
  + (if Color.eqb Color.Blue (outlineColor d) then 1 else 0) = 1.
Proof.
  intros H. unfold outlineColor.
  rewrite (proj2 (Z.eqb_neq d 0)) by lia.
  destruct (Z.rem d 2 =? 0); split; reflexivity.
Qed.

Lemma draw_subdivided (n : nat) :
  forall rect : FloatRect.t,
  exists t : Quadtree,
    subdivide (Quadtree_new rect (Z.of_nat n)) = Ok t /\
    forall w : RenderWindow.t,
      count_outline Color.Red (RenderWindow.drawn (draw t w)) =
        count_outline Color.Red (RenderWindow.drawn w) + 4 ^ Z.of_nat n /\
      3 * (count_outline Color.Green (RenderWindow.drawn (draw t w))
           + count_outline Color.Blue (RenderWindow.drawn (draw t w))) + 1 =
        3 * (count_outline Color.Green (RenderWindow.drawn w)
             + count_outline Color.Blue (RenderWindow.drawn w))
        + 4 ^ Z.of_nat n.
Proof.
  induction n as [|n IH]; intros rect.
  - exists (Quadtree_new rect 0). rewrite subdivide_depth_le_0 by (simpl; lia).
    split; [reflexivity|]. intros w. rewrite !count_outline_draw.
    cbn [Quadtree_new children depth fold_left outlineColor Z.eqb Color.eqb].
    change (4 ^ Z.of_nat 0) with 1. lia.
  - assert (Hpos : 0 < Z.of_nat (S n)) by lia.
    rewrite (subdivide_new_pos rect _ Hpos).
    replace (Z.of_nat (S n) - 1) with (Z.of_nat n) by lia.
    set (hw := (FloatRect.width rect / two)%f32).
    set (hh := (FloatRect.height rect / two)%f32).
    set (x := FloatRect.left rect). set (y := FloatRect.top rect).
    destruct (IH (FloatRect.mk x y hw hh)) as (tl & -> & Htl).
    destruct (IH (FloatRect.mk (x + hw)%f32 y hw hh)) as (tr & -> & Htr).
    destruct (IH (FloatRect.mk x (y + hh)%f32 hw hh)) as (bl & -> & Hbl).
    destruct (IH (FloatRect.mk (x + hw)%f32 (y + hh)%f32 hw hh))
      as (br & -> & Hbr).
    cbn [bind]. eexists; split; [reflexivity|]. intros w.
    rewrite !count_outline_draw. cbn [children depth fold_left].
    destruct (outlineColor_pos _ Hpos) as [-> HGB].
    destruct (Hbr (draw bl (draw tr (draw tl w)))) as [-> Ebr].
    destruct (Hbl (draw tr (draw tl w))) as [-> Ebl].
    destruct (Htr (draw tl w)) as [-> Etr].
    destruct (Htl w) as [-> Etl].
    replace (4 ^ Z.of_nat (S n)) with (4 * 4 ^ Z.of_nat n)
      by (rewrite Nat2Z.inj_succ, Z.pow_succ_r by lia; reflexivity).
    lia.
Qed.

(** The red rectangles are the leaves.  After [subdivide] on a region
    created with depth [d >= 0], [draw] adds [4^d] rectangles with a red
    outline and [(4^d - 1) / 3] with a green or blue one. *)
Theorem draw_leaves_red (rect : FloatRect.t) (d : Z) (window : RenderWindow.t) :
  0 <= d ->
  exists t : Quadtree,
    subdivide (Quadtree_new rect d) = Ok t /\
    count_outline Color.Red (RenderWindow.drawn (draw t window)) =
      count_outline Color.Red (RenderWindow.drawn window) + 4 ^ d /\
    count_outline Color.Green (RenderWindow.drawn (draw t window))
    + count_outline Color.Blue (RenderWindow.drawn (draw t window)) =
      count_outline Color.Green (RenderWindow.drawn window)
      + count_outline Color.Blue (RenderWindow.drawn window)
      + (4 ^ d - 1) / 3.
Proof.
  intros Hd.
  destruct (draw_subdivided (Z.to_nat d) rect) as (t & Ht & H).
  rewrite Z2Nat.id in Ht, H by exact Hd.
  exists t. split; [exact Ht|]. destruct (H window) as [R GB].
  split; [exact R|].
  assert (E : 4 ^ d - 1 =
              3 * (count_outline Color.Green (RenderWindow.drawn (draw t window))
                   + count_outline Color.Blue (RenderWindow.drawn (draw t window))
                   - count_outline Color.Green (RenderWindow.drawn window)
                   - count_outline Color.Blue (RenderWindow.drawn window)))
    by lia.
  rewrite E, Z.mul_comm, Z.div_mul by lia. lia.
Qed.

Lemma draw_leaves_red_witness :
  exists t : Quadtree,
    subdivide (Quadtree_new screen 3) = Ok t /\
    count_outline Color.Red
      (RenderWindow.drawn
         (draw t (RenderWindow.mk (Vector2u.mk 1920 1080)
                    (View.mk (Vector2f.mk zero zero) (Vector2f.mk zero zero))
                    [] true))) = 64 /\
    count_outline Color.Green
      (RenderWindow.drawn
         (draw t (RenderWindow.mk (Vector2u.mk 1920 1080)
                    (View.mk (Vector2f.mk zero zero) (Vector2f.mk zero zero))
                    [] true)))
    + count_outline Color.Blue
        (RenderWindow.drawn
           (draw t (RenderWindow.mk (Vector2u.mk 1920 1080)
                      (View.mk (Vector2f.mk zero zero) (Vector2f.mk zero zero))
                      [] true))) = 21.
Proof.
  apply (draw_leaves_red screen 3
           (RenderWindow.mk (Vector2u.mk 1920 1080)
              (View.mk (Vector2f.mk zero zero) (Vector2f.mk zero zero))
              [] true)).
  lia.
Defined.

(** ** The levels of the tree *)

Lemma iter_halve_succ (k : nat) (x : float) :
  Nat.iter k (fun v => (v / two)%f32) (x / two)%f32 =
  Nat.iter (S k) (fun v => (v / two)%f32) x.
Proof.
  symmetry. exact (Nat.iter_succ_r k _ (fun v => (v / two)%f32) x).
Qed.

Lemma subdivide_levels_nat (n : nat) :
  forall rect : FloatRect.t,
  exists t : Quadtree,
    subdivide (Quadtree_new rect (Z.of_nat n)) = Ok t /\
    forall path : list nat,
      match node_at path t with
      | Some node =>
          Forall (fun i => (i < 4)%nat) path /\
          (List.length path <= n)%nat /\
          depth node = Z.of_nat n - Z.of_nat (List.length path) /\
          FloatRect.width (bounds node) =
            Nat.iter (List.length path) (fun v => (v / two)%f32)
              (FloatRect.width rect) /\
          FloatRect.height (bounds node) =
            Nat.iter (List.length path) (fun v => (v / two)%f32)
              (FloatRect.height rect)
      | None =>
          ~ (Forall (fun i => (i < 4)%nat) path /\ (List.length path <= n)%nat)
      end.
Proof.
  induction n as [|n IH]; intros rect.
  - exists (Quadtree_new rect 0). rewrite subdivide_depth_le_0 by (simpl; lia).
    split; [reflexivity|]. intros [|i path].
    + cbn [node_at List.length Nat.iter nat_rect bounds depth Quadtree_new].
      repeat split; try lia; constructor.
    + cbn [node_at Quadtree_new children]. destruct i; cbn [nth_error];
        intros [_ H]; cbn [List.length] in H; lia.
  - assert (Hpos : 0 < Z.of_nat (S n)) by lia.
    rewrite (subdivide_new_pos rect _ Hpos).
    replace (Z.of_nat (S n) - 1) with (Z.of_nat n) by lia.
    set (hw := (FloatRect.width rect / two)%f32).
    set (hh := (FloatRect.height rect / two)%f32).
    set (x := FloatRect.left rect). set (y := FloatRect.top rect).
    destruct (IH (FloatRect.mk x y hw hh)) as (tl & -> & Htl).
    destruct (IH (FloatRect.mk (x + hw)%f32 y hw hh)) as (tr & -> & Htr).
    destruct (IH (FloatRect.mk x (y + hh)%f32 hw hh)) as (bl & -> & Hbl).
    destruct (IH (FloatRect.mk (x + hw)%f32 (y + hh)%f32 hw hh))
      as (br & -> & Hbr).
    cbn [bind]. eexists; split; [reflexivity|]. intros [|i path].
    + cbn [node_at List.length Nat.iter nat_rect bounds depth].
      repeat split; try lia; constructor.
    + cbn [node_at children].
      assert (K : forall (c : Quadtree) (w h : float),
                 (i < 4)%nat ->
                 w = hw -> h = hh ->
                 (match node_at path c with
                  | Some node =>
                      Forall (fun i => (i < 4)%nat) path /\
                      (List.length path <= n)%nat /\
                      depth node = Z.of_nat n - Z.of_nat (List.length path) /\
                      FloatRect.width (bounds node) =
                        Nat.iter (List.length path) (fun v => (v / two)%f32) w /\
                      FloatRect.height (bounds node) =
                        Nat.iter (List.length path) (fun v => (v / two)%f32) h
                  | None =>
                      ~ (Forall (fun i => (i < 4)%nat) path /\
                         (List.length path <= n)%nat)
                  end) ->
                 match node_at path c with
                 | Some node =>
                     Forall (fun i => (i < 4)%nat) (i :: path) /\
                     (List.length (i :: path) <= S n)%nat /\
                     depth node =
                       Z.of_nat (S n) - Z.of_nat (List.length (i :: path)) /\
                     FloatRect.width (bounds node) =
                       Nat.iter (List.length (i :: path))
                         (fun v => (v / two)%f32) (FloatRect.width rect) /\
                     FloatRect.height (bounds node) =
                       Nat.iter (List.length (i :: path))
                         (fun v => (v / two)%f32) (FloatRect.height rect)
                 | None =>
                     ~ (Forall (fun i => (i < 4)%nat) (i :: path) /\
                        (List.length (i :: path) <= S n)%nat)
                 end).
      { intros c w h Hi -> ->. destruct (node_at path c) as [node|].
        - intros (F & L & D & W & H). cbn [List.length].
          rewrite <- !iter_halve_succ. fold hw hh.
          repeat split; [constructor; assumption | lia | lia | exact W | exact H].
        - intros N [F L]. apply N. cbn [List.length] in L.
          inversion F; subst. split; [assumption | lia]. }
      destruct i as [|[|[|[|i]]]]; cbn [nth_error].
      * apply (K tl _ _ ltac:(lia) eq_refl eq_refl (Htl path)).
      * apply (K tr _ _ ltac:(lia) eq_refl eq_refl (Htr path)).
      * apply (K bl _ _ ltac:(lia) eq_refl eq_refl (Hbl path)).
      * apply (K br _ _ ltac:(lia) eq_refl eq_refl (Hbr path)).
      * destruct i; cbn [nth_error]; intros [F _]; inversion F; subst; lia.
Qed.

(** The tree [subdivide] builds from a region created with depth [d >= 0]
    is complete.  A sequence of child indices leads to a node exactly when
    the indices are below 4 and there are at most [d] of them; the node
    reached by [k] indices has depth [d - k], and its width and height are
    those of the region halved [k] times in single precision, whatever the
    indices. *)
Theorem subdivide_levels (rect : FloatRect.t) (d : Z) :
  0 <= d ->
  exists t : Quadtree,
    subdivide (Quadtree_new rect d) = Ok t /\
    forall path : list nat,
      match node_at path t with
      | Some node =>
          Forall (fun i => (i < 4)%nat) path /\
          Z.of_nat (List.length path) <= d /\
          depth node = d - Z.of_nat (List.length path) /\
          FloatRect.width (bounds node) =
            Nat.iter (List.length path) (fun v => (v / two)%f32)
              (FloatRect.width rect) /\
          FloatRect.height (bounds node) =
            Nat.iter (List.length path) (fun v => (v / two)%f32)
              (FloatRect.height rect)
      | None =>
          ~ (Forall (fun i => (i < 4)%nat) path /\
             Z.of_nat (List.length path) <= d)
      end.
Proof.
  intros Hd.
  destruct (subdivide_levels_nat (Z.to_nat d) rect) as (t & Ht & H).
  rewrite Z2Nat.id in Ht by exact Hd.
  exists t. split; [exact Ht|]. intros path. specialize (H path).
  destruct (node_at path t) as [node|].
  - destruct H as (F & L & D & W & Hh). rewrite Z2Nat.id in D by exact Hd.
    repeat split; [exact F | lia | exact D | exact W | exact Hh].
  - intros [F L]. apply H. split; [exact F | lia].
Qed.

Lemma subdivide_levels_witness :
  exists t : Quadtree,
    subdivide (Quadtree_new screen 3) = Ok t /\
    forall path : list nat,
      match node_at path t with
      | Some node =>
          Forall (fun i => (i < 4)%nat) path /\
          Z.of_nat (List.length path) <= 3 /\
          depth node = 3 - Z.of_nat (List.length path) /\
          FloatRect.width (bounds node) =
            Nat.iter (List.length path) (fun v => (v / two)%f32)
              (FloatRect.width screen) /\
          FloatRect.height (bounds node) =
            Nat.iter (List.length path) (fun v => (v / two)%f32)
              (FloatRect.height screen)
      | None =>
          ~ (Forall (fun i => (i < 4)%nat) path /\
             Z.of_nat (List.length path) <= 3)
      end.
Proof. apply (subdivide_levels screen 3). lia. Defined.

(** ** Edge scrolling *)

Lemma edgeScroll_zones (pos speed : float) (mouse size : Z) :
  - 2 ^ 31 <= mouse < 2 ^ 31 -> 0 <= size < 2 ^ 32 ->
  Camera.edgeScroll pos speed mouse size =
  if mouse <? 70 then (pos - speed)%f32
  else if (70 <=? size) && (size - 70 <? mouse) then (pos + speed)%f32
  else pos.
Proof.
  intros Hm Hs. unfold Camera.edgeScroll, Camera.EDGE_THRESHOLD, to_unsigned.
  destruct (Z.ltb_spec mouse 70) as [|Hm70]; [reflexivity|].
  rewrite (Z.mod_small mouse) by lia.
  destruct (Z.leb_spec 70 size) as [Hs70|Hs70]; cbn [andb].
  - rewrite (Z.mod_small (size - 70)) by lia.
    rewrite Z.gtb_ltb. reflexivity.
  - replace ((size - 70) mod 2 ^ 32) with (size - 70 + 2 ^ 32).
    + rewrite Z.gtb_ltb. rewrite (proj2 (Z.ltb_ge _ _)) by lia. reflexivity.
    + apply Z.mod_unique with (q := -1); lia.
Qed.

(** The zones of [updateEdgeScrolling], without wrap-around.  On each axis
    the camera moves back by [scrollSpeed] when the mouse is below 70, and
    forward when the window is at least 70 wide and the mouse is beyond
    the size minus 70; the first test wins where both hold.  In a window
    less than 70 wide the unsigned subtraction wraps, and the camera never
    moves forward. *)
Theorem updateEdgeScrolling_zones (c : Camera.t) (mousePosition : Vector2i.t)
    (window : RenderWindow.t) :
  let size := RenderWindow.size window in
  let axis (pos : float) (mouse size : Z) :=
    if mouse <? 70 then (pos - Camera.scrollSpeed c)%f32
    else if (70 <=? size) && (size - 70 <? mouse)
         then (pos + Camera.scrollSpeed c)%f32
         else pos in
  - 2 ^ 31 <= Vector2i.x mousePosition < 2 ^ 31 ->
  - 2 ^ 31 <= Vector2i.y mousePosition < 2 ^ 31 ->
  0 <= Vector2u.x size < 2 ^ 32 ->
  0 <= Vector2u.y size < 2 ^ 32 ->
  Camera.updateEdgeScrolling c mousePosition window =
  Camera.mk
    (Vector2f.mk
       (axis (Vector2f.x (Camera.position c)) (Vector2i.x mousePosition)
          (Vector2u.x size))
       (axis (Vector2f.y (Camera.position c)) (Vector2i.y mousePosition)
          (Vector2u.y size)))
    (Camera.zoomFactor c) (Camera.scrollSpeed c).
Proof.
  intros size axis Hmx Hmy Hsx Hsy. unfold Camera.updateEdgeScrolling.
  fold size. rewrite !edgeScroll_zones by assumption. reflexivity.
Qed.

Lemma updateEdgeScrolling_zones_witness :
  Camera.updateEdgeScrolling camera_2x (Vector2i.mk 1900 10) desktop =
    Camera.mk (Vector2f.mk (Binary32.of_int 105) (Binary32.of_int 45))
      (Binary32.of_int 2) (Binary32.of_int 5) /\
  Camera.updateEdgeScrolling camera_2x (Vector2i.mk 1900 10) narrow =
    Camera.mk (Vector2f.mk (Binary32.of_int 100) (Binary32.of_int 45))
      (Binary32.of_int 2) (Binary32.of_int 5).
Proof.
  split.
  - rewrite (updateEdgeScrolling_zones camera_2x (Vector2i.mk 1900 10) desktop);
      [reflexivity | | | |]; cbn; lia.
  - rewrite (updateEdgeScrolling_zones camera_2x (Vector2i.mk 1900 10) narrow);
      [reflexivity | | | |]; cbn; lia.
Defined.

(** The dead zone of [updateEdgeScrolling]: with the mouse at least 70
    pixels from each edge of the window, the camera is left as it is. *)
Theorem updateEdgeScrolling_inside (c : Camera.t) (mousePosition : Vector2i.t)
    (window : RenderWindow.t) :
  let size := RenderWindow.size window in
  Vector2i.x mousePosition < 2 ^ 31 -> Vector2i.y mousePosition < 2 ^ 31 ->
  Vector2u.x size < 2 ^ 32 -> Vector2u.y size < 2 ^ 32 ->
  70 <= Vector2i.x mousePosition <= Vector2u.x size - 70 ->
  70 <= Vector2i.y mousePosition <= Vector2u.y size - 70 ->
  Camera.updateEdgeScrolling c mousePosition window = c.
Proof.
  intros size Hmx Hmy Hsx Hsy Hx Hy.
  unfold Camera.updateEdgeScrolling. fold size.
  rewrite !edgeScroll_zones by lia.
  rewrite !(proj2 (Z.ltb_ge _ 70)) by lia.
  rewrite !(proj2 (Z.ltb_ge (_ - 70) _)) by lia.
  rewrite !andb_false_r. destruct c as [[x y] z s]. reflexivity.
Qed.

Lemma updateEdgeScrolling_inside_witness :
  Camera.updateEdgeScrolling camera_2x (Vector2i.mk 960 540) desktop = camera_2x.
Proof.
  apply (updateEdgeScrolling_inside camera_2x (Vector2i.mk 960 540) desktop);
    cbn; lia.
Defined.

(** ** Results that do not overflow *)

Section Finite.

Variables prec emax : Z.
Hypothesis Hprec : 0 < prec.

Let fexp := SpecFloat.fexp prec emax.
Let emin := SpecFloat.emin prec emax.

Lemma shr_fexp_snd (m e : Z) (l : location) :
  snd (shr_fexp prec emax m e l) = Z.max e (fexp (Zdigits2 m + e)).
Proof.
  unfold shr_fexp, shr. fold fexp.
  destruct (fexp (Zdigits2 m + e) - e) eqn:En; cbn [snd]; lia.
Qed.

Lemma shr_fexp_digits (m e : Z) (l : location) :
  0 <= m ->
  Zdigits2 (shr_m (fst (shr_fexp prec emax m e l)))
  + snd (shr_fexp prec emax m e l)
  <= Z.max (Zdigits2 m + e) (snd (shr_fexp prec emax m e l)).
Proof.
  intros Hm. unfold shr_fexp, shr. fold fexp.
  assert (Hrec : shr_m (shr_record_of_loc m l) = m)
    by (destruct l as [|[]]; reflexivity).
  destruct (fexp (Zdigits2 m + e) - e) as [|p|p] eqn:En; cbn [fst snd];
    try (rewrite Hrec; lia).
  rewrite iter_shr_1_m, Hrec by lia.
  destruct (Z.eq_dec (Z.shiftr m (Z.pos p)) 0) as [->|Hnz].
  - simpl Zdigits2. lia.
  - assert (H0 : 0 <= Z.shiftr m (Z.pos p)) by (apply Z.shiftr_nonneg; exact Hm).
    assert (Hm0 : 0 < m).
    { destruct (Z.eq_dec m 0) as [->|]; [rewrite Z.shiftr_0_l in Hnz|]; lia. }
    assert (Hlog : Z.pos p <= Z.log2 m).
    { destruct (Z_le_gt_dec (Z.pos p) (Z.log2 m)) as [|Hgt]; [assumption|].
      assert (Z.shiftr m (Z.pos p) = 0)
        by (apply Z.shiftr_eq_0_iff; right; split; lia). lia. }
    rewrite (Zdigits2_log2 (Z.shiftr m (Z.pos p))) by lia.
    rewrite (Z.log2_shiftr _ _ Hm0), (Zdigits2_log2 m Hm0). lia.
Qed.

Lemma Zdigits2_succ (m : Z) : 0 <= m -> Zdigits2 (m + 1) <= Zdigits2 m + 1.
Proof.
  intros Hm. destruct (Z.eq_dec m 0) as [->|Hnz]; [simpl; lia|].
  rewrite !Zdigits2_log2 by lia.
  pose proof (Z.log2_le_mono (m + 1) (2 * m) ltac:(lia)) as L.
  rewrite Z.log2_double in L by lia. lia.
Qed.

(** Rounding does not overflow when the number is below [2^(emax - 1)]. *)
Lemma binary_round_aux_finite (s : bool) (m e : Z) (l : location) :
  0 <= m -> emin <= emax - prec -> e <= emax - prec ->
  Zdigits2 m + e < emax ->
  Binary32.is_finite (binary_round_aux prec emax s m e l) = true.
Proof.
  intros Hm Hemin He Hd. unfold binary_round_aux.
  pose proof (shr_fexp_snd m e l) as S1.
  pose proof (shr_fexp_digits m e l Hm) as D1.
  pose proof (shr_fexp_nonneg prec emax m e l Hm) as N1.
  destruct (shr_fexp prec emax m e l) as [mrs' e']. cbn [fst snd] in *.
  set (m2 := round_nearest_even (shr_m mrs') (loc_of_shr_record mrs')).
  assert (Hm2 : 0 <= m2 /\ Zdigits2 m2 <= Zdigits2 (shr_m mrs') + 1).
  { unfold m2.
    destruct (round_nearest_even_cases (shr_m mrs') (loc_of_shr_record mrs'))
      as [-> | ->]; split; try lia. apply Zdigits2_succ, N1. }
  pose proof (shr_fexp_snd m2 e' loc_Exact) as S2.
  pose proof (shr_fexp_nonneg prec emax m2 e' loc_Exact (proj1 Hm2)) as N2.
  destruct (shr_fexp prec emax m2 e' loc_Exact) as [mrs'' e''].
  cbn [fst snd] in *.
  destruct (shr_m mrs'') as [|p|p]; [reflexivity | | lia].
  assert (Hb : e'' <= emax - prec).
  { revert S1 S2. unfold fexp, SpecFloat.fexp. fold emin. lia. }
  apply Z.leb_le in Hb. rewrite Hb. reflexivity.
Qed.

Lemma binary_normalize_finite (m : Z) (sz : bool) :
  emin <= emax - prec -> prec <= emax ->
  Z.abs m < 2 ^ (emax - 1) ->
  Binary32.is_finite (binary_normalize prec emax m 0 sz) = true.
Proof.
  intros Hemin Hpe Hm.
  assert (D : forall p : positive,
             Z.pos p < 2 ^ (emax - 1) ->
             forall s : bool,
               Binary32.is_finite (binary_round prec emax s p 0) = true).
  { intros p Hp s. unfold binary_round, shl_align. fold fexp.
    change (Z.pos (digits2_pos p)) with (Zdigits2 (Z.pos p)).
    assert (Hdig : Zdigits2 (Z.pos p) < emax).
    { rewrite Zdigits2_log2 by lia.
      assert (Z.log2 (Z.pos p) < emax - 1); [|lia].
      apply Z.log2_lt_pow2; lia. }
    destruct (fexp (Zdigits2 (Z.pos p) + 0) - 0) as [|k|k] eqn:En;
      cbv beta iota; apply binary_round_aux_finite; try lia.
    rewrite iter_xO.
    assert (0 < 2 ^ Z.pos k) by (apply Z.pow_pos_nonneg; lia).
    rewrite (Zdigits2_log2 (Z.pos p * 2 ^ Z.pos k)) by nia.
    rewrite Z.log2_mul_pow2 by lia.
    rewrite (Zdigits2_log2 (Z.pos p)) in Hdig, En |- * by lia. lia. }
  destruct m as [|p|p]; cbn [binary_normalize]; [reflexivity | |];
    apply D; exact Hm.
Qed.

End Finite.

Lemma of_int_finite (z : Z) :
  Z.abs z < 2 ^ 127 -> Binary32.is_finite (Binary32.of_int z) = true.
Proof.
  intros H. apply binary_normalize_finite;
    [reflexivity | discriminate | discriminate | exact H].
Qed.

Lemma of_int_signed (z : Z) : 0 <= z -> Binary32.signed false (Binary32.of_int z).
Proof.
  intros H. destruct z as [|p|p]; [reflexivity | | lia].
  unfold Binary32.of_int, binary_normalize, binary_round.
  destruct (shl_align _ _ _) as [m' e'].
  apply binary_round_aux_signed. lia.
Qed.

(** ** The view *)

(** A float not below [0.1f] is a positive number or the positive
    infinity. *)
Lemma floor_positive (z : float) :
  (Camera.c0_1 <=? z)%f32 = true ->
  z = S754_infinity false \/ exists m e, z = S754_finite false m e.
Proof.
  destruct z as [[]|[]| |[] m e]; unfold Binary32.leb, SFleb, Camera.c0_1;
    cbn [SFcompare]; intros H; try discriminate H.
  - left; reflexivity.
  - right; exists m, e; reflexivity.
Qed.

Lemma div_nonneg (x z : float) :
  Binary32.signed false x -> Binary32.is_finite x = true ->
  (z = S754_infinity false \/ exists m e, z = S754_finite false m e) ->
  Binary32.signed false (x / z)%f32.
Proof.
  intros Sx Fx [-> | (my & ey & ->)];
    destruct x as [sx|sx| |sx mx ex]; try discriminate Fx;
    cbn [Binary32.signed] in Sx; subst sx; try reflexivity.
  unfold Binary32.div. cbn [SFdiv xorb]. unfold SFdiv_core_binary.
  set (s := ex - ey - _).
  set (m' := match s with
             | 0 => Z.pos mx
             | Z.pos _ => Z.shiftl (Z.pos mx) s
             | Z.neg _ => 0
             end).
  assert (Hm' : 0 <= m').
  { unfold m'. destruct s as [|p|p]; try lia. apply Z.shiftl_nonneg. lia. }
  pose proof (Z.div_pos m' (Z.pos my) Hm' ltac:(lia)) as Hq.
  unfold Z.div in Hq. destruct (Z.div_eucl m' (Z.pos my)) as [q r].
  apply binary_round_aux_signed, Hq.
Qed.

Lemma mul_nonneg (x : float) (m : positive) (e : Z) :
  Binary32.signed false x ->
  Binary32.signed false (x * S754_finite false m e)%f32.
Proof.
  intros Sx. destruct x as [sx|sx| |sx mx ex]; cbn [Binary32.signed] in Sx;
    try contradiction; subst sx; try reflexivity.
  unfold Binary32.mul. cbn [SFmul xorb].
  apply binary_round_aux_signed. lia.
Qed.

Lemma signed_nonneg (x : float) :
  Binary32.signed false x -> (zero <=? x)%f32 = true.
Proof.
  destruct x as [sx|sx| |sx mx ex]; cbn [Binary32.signed]; intros H;
    try contradiction; subst sx; reflexivity.
Qed.

(** One component of the size [applyTransform] gives to the view, for a
    zoom factor that is not below [0.1f]. *)
Lemma view_extent_nonneg (n : Z) (z : float) :
  0 <= n < 2 ^ 32 -> (Camera.c0_1 <=? z)%f32 = true ->
  (zero <=? Binary32.of_int n / z * Camera.c1_5)%f32 = true.
Proof.
  intros Hn Hz. apply signed_nonneg. unfold Camera.c1_5. apply mul_nonneg.
  apply div_nonneg.
  - apply of_int_signed. lia.
  - apply of_int_finite.
    assert (2 ^ 32 < 2 ^ 127) by (apply Z.pow_lt_mono_r; lia). lia.
  - apply floor_positive, Hz.
Qed.

(** After [updateZoom], whatever the zoom factor was and whatever the
    delta, [applyTransform] centres the view on the camera and gives it a
    size whose two components are numbers not below zero (never a NaN),
    for every window size. *)
Theorem applyTransform_after_updateZoom (c : Camera.t) (scrollDelta : Z)
    (window : RenderWindow.t) :
  let size := RenderWindow.size window in
  let v := RenderWindow.view
             (Camera.applyTransform (Camera.updateZoom c scrollDelta) window) in
  0 <= Vector2u.x size < 2 ^ 32 ->
  0 <= Vector2u.y size < 2 ^ 32 ->
  View.center v = Camera.position c /\
  (zero <=? Vector2f.x (View.size v))%f32 = true /\
  (zero <=? Vector2f.y (View.size v))%f32 = true.
Proof.
  intros size v Hx Hy. split; [reflexivity|].
  assert (F : (Camera.c0_1 <=?
               Camera.zoomFactor (Camera.updateZoom c scrollDelta))%f32 = true)
    by (apply max_floor; reflexivity).
  split; apply view_extent_nonneg; assumption.
Qed.

Lemma applyTransform_after_updateZoom_witness :
  let v := RenderWindow.view
             (Camera.applyTransform (Camera.updateZoom camera_2x (-1000))
                desktop) in
  View.center v = Camera.position camera_2x /\
  (zero <=? Vector2f.x (View.size v))%f32 = true /\
  (zero <=? Vector2f.y (View.size v))%f32 = true.
Proof.
  apply (applyTransform_after_updateZoom camera_2x (-1000) desktop); cbn; lia.
Defined.

(** ** The event loop *)

Lemma onMouseButtonPressed_radius (button : Mouse.Button) (mouse : Vector2i.t)
    (u : Unit.t) :
  Unit.radius (onMouseButtonPressed button mouse u) = Unit.radius u.
Proof.
  destruct button; cbn [onMouseButtonPressed]; try reflexivity.
  - destruct (Unit.contains u _); reflexivity.
  - destruct (Unit.isSelected u); reflexivity.
Qed.

Lemma onEvent_kept (s0 s : Program.t) (event : Event.t) (mouse : Vector2i.t) :
  kept s0 s -> kept s0 (onEvent s event mouse).
Proof.
  intros (R & W & U & S & Z). destruct event; cbn [onEvent].
  - repeat split; assumption.
  - repeat split; try assumption. apply max_floor. reflexivity.
  - repeat split; try assumption.
    cbn [Program.myUnit]. rewrite onMouseButtonPressed_radius. exact U.
  - repeat split; assumption.
Qed.

Lemma pollEvents_kept (events : list (Event.t * Vector2i.t)) :
  forall s0 s : Program.t, kept s0 s -> kept s0 (pollEvents s events).
Proof.
  induction events as [|[event mouse] events IH]; intros s0 s K.
  - exact K.
  - apply IH, onEvent_kept, K.
Qed.

Lemma frame_kept (s0 s : Program.t) (events : list (Event.t * Vector2i.t))
    (mouse : Vector2i.t) :
  kept s0 s -> kept s0 (frame s events mouse).
Proof.
  intros K. apply (pollEvents_kept events) in K.
  destruct K as (R & W & U & S & Z). unfold frame.
  repeat split; try assumption.
  cbn [Program.window Unit.draw RenderWindow.draw RenderWindow.size].
  destruct (draw_appends (Program.root (pollEvents s events))
              (Camera.applyTransform
                 (Camera.updateEdgeScrolling
                    (Program.camera (pollEvents s events)) mouse
                    (Program.window (pollEvents s events)))
                 (RenderWindow.clear (Program.window (pollEvents s events)))))
    as (l & -> & _).
  exact W.
Qed.

Lemma run_kept (turns : list (list (Event.t * Vector2i.t) * Vector2i.t)) :
  forall s0 s : Program.t, kept s0 s -> kept s0 (run s turns).
Proof.
  induction turns as [|[events mouse] turns IH]; intros s0 s K.
  - exact K.
  - cbn [run]. destruct (RenderWindow.isOpen (Program.window s)).
    + apply IH, frame_kept, K.
    + exact K.
Qed.

(** The invariants of [main].  Whatever the size of the window and
    whatever the events and mouse positions of the successive turns of the
    loop: the tree built before the loop has 85 nodes and is never
    changed; the radius of the unit stays [30.0f] and the scroll speed
    [5.f]; the zoom factor is never below [0.1f]. *)
Theorem main_invariants (window : RenderWindow.t)
    (turns : list (list (Event.t * Vector2i.t) * Vector2i.t)) :
  exists s0 : Program.t,
    init window = Ok s0 /\
    let s := run s0 turns in
    Program.root s = Program.root s0 /\
    node_count (Program.root s) = 85 /\
    RenderWindow.size (Program.window s) = RenderWindow.size window /\
    Unit.radius (Program.myUnit s) = Binary32.of_int 30 /\
    Camera.scrollSpeed (Program.camera s) = Camera.five /\
    (Camera.c0_1 <=? Camera.zoomFactor (Program.camera s))%f32 = true.
Proof.
  unfold init.
  destruct (subdivide_new_builds 3
              (FloatRect.mk zero zero
                 (Binary32.of_int (Vector2u.x (RenderWindow.size window)))
                 (Binary32.of_int (Vector2u.y (RenderWindow.size window)))))
    as (t & Ht & _ & _ & N & _).
  change (Z.of_nat 3) with 3 in Ht, N. rewrite Ht. cbn [bind].
  eexists; split; [reflexivity|].
  set (s0 := Program.mk window t _ _).
  assert (K0 : kept s0 s0) by (repeat split).
  destruct (run_kept turns s0 s0 K0) as (R & W & U & S & Z).
  cbv zeta. rewrite R, W, U, S.
  repeat split; try exact Z. cbn [Program.root s0].
  change (4 ^ (3 + 1)) with 256 in N. lia.
Qed.

Lemma pollEvents_cons (s : Program.t) (event : Event.t) (mouse : Vector2i.t)
    (events : list (Event.t * Vector2i.t)) :
  pollEvents s ((event, mouse) :: events) =
  pollEvents (onEvent s event mouse) events.
Proof. reflexivity. Qed.



(** ** The event queue *)

Lemma onEvent_camera (s : Program.t) (event : Event.t) (mouse : Vector2i.t) :
  is_wheel (event, mouse) = false ->
  Program.camera (onEvent s event mouse) = Program.camera s.
Proof. destruct event; cbn; intros H; try reflexivity; discriminate H. Qed.

Lemma onEvent_window (s : Program.t) (event : Event.t) (mouse : Vector2i.t) :
  is_closed (event, mouse) = false ->
  Program.window (onEvent s event mouse) = Program.window s.
Proof. destruct event; cbn; intros H; try reflexivity; discriminate H. Qed.

Lemma onEvent_position (s : Program.t) (event : Event.t) (mouse : Vector2i.t) :
  is_press Mouse.Right (event, mouse) = false ->
  Unit.position (Program.myUnit (onEvent s event mouse)) =
  Unit.position (Program.myUnit s).
Proof.
  destruct event as [| |[]|]; cbn; intros H; try reflexivity;
    try discriminate H.
  destruct (Unit.contains _ _); reflexivity.
Qed.

Lemma onEvent_isSelected (s : Program.t) (event : Event.t) (mouse : Vector2i.t) :
  is_press Mouse.Left (event, mouse) = false ->
  Unit.isSelected (Program.myUnit (onEvent s event mouse)) =
  Unit.isSelected (Program.myUnit s).
Proof.
  destruct event as [| |[]|]; cbn; intros H; try reflexivity;
    try discriminate H.
  destruct (Unit.isSelected (Program.myUnit s)) eqn:E;
    cbn [Unit.moveTo Unit.isSelected]; [exact E | exact E].
Qed.

(** What a queue of events cannot do.  Without a mouse-wheel event the
    camera is left as it is, and without a [Closed] event the window;
    without a press of the right button the unit stays where it is, and
    without a press of the left button its selection does not change. *)
Theorem pollEvents_frame (s : Program.t)
    (events : list (Event.t * Vector2i.t)) :
  let s' := pollEvents s events in
  (existsb is_wheel events = false -> Program.camera s' = Program.camera s) /\
  (existsb is_closed events = false -> Program.window s' = Program.window s) /\
  (existsb (is_press Mouse.Right) events = false ->
   Unit.position (Program.myUnit s') = Unit.position (Program.myUnit s)) /\
  (existsb (is_press Mouse.Left) events = false ->
   Unit.isSelected (Program.myUnit s') = Unit.isSelected (Program.myUnit s)).
Proof.
  revert s. induction events as [|[event mouse] events IH]; intros s.
  - repeat split.
  - cbv zeta in IH |- *. rewrite pollEvents_cons. cbn [existsb].
    destruct (IH (onEvent s event mouse)) as (C & W & P & S).
    repeat split; intros H; apply orb_false_elim in H; destruct H as [H1 H2].
    + rewrite (C H2). apply onEvent_camera, H1.
    + rewrite (W H2). apply onEvent_window, H1.
    + rewrite (P H2). apply onEvent_position, H1.
    + rewrite (S H2). apply onEvent_isSelected, H1.
Qed.

Lemma pollEvents_frame_witness :
  let events :=
    [(Event.MouseButtonPressed Mouse.Left, Vector2i.mk 120 120);
     (Event.Other, Vector2i.mk 0 0)] in
  let s := Program.mk desktop (Quadtree_new screen 0)
             camera_2x myUnit0 in
  let s' := pollEvents s events in
  Program.camera s' = Program.camera s /\
  Program.window s' = Program.window s /\
  Unit.position (Program.myUnit s') = Unit.position (Program.myUnit s) /\
  Unit.isSelected (Program.myUnit s') = true.
Proof.
  intros events s s'.
  pose proof (pollEvents_frame s events) as (C & W & P & _).
  split; [apply C; reflexivity|].
  split; [apply W; reflexivity|].
  split; [apply P; reflexivity|].
  vm_compute. reflexivity.
Defined.

(** ** Selecting the unit *)

(** Left clicks toggle.  A left click leaves the unit selected only when
    it was not selected and the click is inside it: a selected unit is
    deselected by a left click anywhere.  A second left click at the same
    place gives back the selection the unit had when the place is inside
    it, and leaves it deselected otherwise.  The unit does not move. *)
Theorem left_click_twice (mouse : Vector2i.t) (u : Unit.t) :
  let inside := Unit.contains u (Vector2i.to_Vector2f mouse) in
  let u1 := onMouseButtonPressed Mouse.Left mouse u in
  let u2 := onMouseButtonPressed Mouse.Left mouse u1 in
  Unit.isSelected u1 = inside && negb (Unit.isSelected u) /\
  Unit.isSelected u2 = inside && Unit.isSelected u /\
  Unit.position u2 = Unit.position u /\
  Unit.radius u2 = Unit.radius u.
Proof.
  intros inside u1 u2. subst u1 u2. unfold onMouseButtonPressed.
  assert (E : forall b, Unit.contains (Unit.set_isSelected u b)
                          (Vector2i.to_Vector2f mouse) = inside)
    by reflexivity.
  fold inside. destruct inside eqn:I; rewrite E;
    destruct (Unit.isSelected u) eqn:S; repeat split.
Qed.

(** ** A delta of zero *)

Lemma SFcompare_Eq_finite (s1 s2 : bool) (m1 m2 : positive) (e1 e2 : Z) :
  SFcompare (S754_finite s1 m1 e1) (S754_finite s2 m2 e2) = Some Eq ->
  S754_finite s1 m1 e1 = S754_finite s2 m2 e2.
Proof.
  cbn [SFcompare]. intros H. injection H as H.
  destruct s1, s2; try discriminate H;
    destruct (Z.compare_spec e1 e2) as [->| |]; try discriminate H;
    change (Pos.compare_cont Eq m1 m2) with (Pos.compare m1 m2) in H;
    destruct (Pos.compare_spec m1 m2) as [->| |]; try discriminate H;
    reflexivity.
Qed.

Lemma add_zero_r (z : float) :
  (z + zero)%f32 = match z with S754_zero _ => zero | _ => z end.
Proof. destruct z as [[]|[]| |s m e]; reflexivity. Qed.

(** Scrolling by zero.  [updateZoom(0)] leaves the camera as it is when
    the zoom factor is not below [0.1f], and sets the zoom factor to
    [0.1f] otherwise, a NaN included. *)
Theorem updateZoom_zero (c : Camera.t) :
  ((Camera.c0_1 <=? Camera.zoomFactor c)%f32 = true ->
   Camera.updateZoom c 0 = c) /\
  ((Camera.c0_1 <=? Camera.zoomFactor c)%f32 = false ->
   Camera.updateZoom c 0 =
   Camera.mk (Camera.position c) Camera.c0_1 (Camera.scrollSpeed c)).
Proof.
  destruct c as [pos z speed]. unfold Camera.updateZoom.
  cbn [Camera.position Camera.zoomFactor Camera.scrollSpeed].
  change (Binary32.of_int 0 * Camera.c0_05)%f32 with zero.
  rewrite add_zero_r. unfold Binary32.max. split; intros H.
  - destruct (floor_positive z H) as [-> | (m & e & ->)]; [reflexivity|].
    destruct (Camera.c0_1 <? S754_finite false m e)%f32 eqn:L; [reflexivity|].
    f_equal. revert H L. unfold Binary32.leb, Binary32.ltb, SFleb, SFltb.
    destruct (SFcompare Camera.c0_1 (S754_finite false m e)) as [[]|] eqn:C;
      try discriminate.
    intros _ _. apply (SFcompare_Eq_finite false false _ _ _ _ C).
  - destruct z as [[]|[]| |s m e]; try reflexivity; try discriminate H.
    destruct (Camera.c0_1 <? S754_finite s m e)%f32 eqn:L; [|reflexivity].
    apply ltb_leb in L. congruence.
Qed.

Lemma updateZoom_zero_witness :
  Camera.updateZoom camera_2x 0 = camera_2x /\
  Camera.updateZoom
    (Camera.mk (Vector2f.mk zero zero) zero (Binary32.of_int 5)) 0 =
  Camera.mk (Vector2f.mk zero zero) Camera.c0_1 (Binary32.of_int 5).
Proof.
  split.
  - apply (proj1 (updateZoom_zero camera_2x)). reflexivity.
  - apply (proj2 (updateZoom_zero
                    (Camera.mk (Vector2f.mk zero zero) zero
                       (Binary32.of_int 5)))).
    reflexivity.
Defined.

(** ** The camera and the origin of the view *)

Lemma mul_zero_l (z : float) :
  Binary32.is_finite z = true -> Binary32.eqb (zero * z)%f32 zero = true.
Proof. destruct z as [[]|[]| |[] m e]; intros H; try discriminate H; reflexivity. Qed.

Lemma div_zero_l (z : float) :
  (zero <? z)%f32 = true ->
  (zero / z)%f32 = zero.
Proof.
  destruct z as [[]|[]| |[] m e]; intros H; try discriminate H; reflexivity.
Qed.

Lemma add_zero_l (x : float) :
  Binary32.is_nan x = false -> Binary32.eqb (zero + x)%f32 x = true.
Proof.
  destruct x as [[]|[]| |s m e]; intros H; try discriminate H;
    try reflexivity.
  change (zero + S754_finite s m e)%f32 with (S754_finite s m e).
  unfold Binary32.eqb, SFeqb. cbn [SFcompare]. rewrite Z.compare_refl.
  change (Pos.compare_cont Eq m m) with (Pos.compare m m).
  rewrite Pos.compare_refl. destruct s; reflexivity.
Qed.

(** The camera position is the origin of the view, without any rounding.
    [convertWorldToView] of the camera position is [(0, 0)] when the
    position and the zoom factor are finite, and [convertViewToWorld] of
    [(0, 0)] is the camera position when the zoom factor is above zero and
    the position holds no NaN. *)
Theorem camera_origin (c : Camera.t) :
  let pos := Camera.position c in
  let z := Camera.zoomFactor c in
  (Binary32.is_finite (Vector2f.x pos) = true ->
   Binary32.is_finite (Vector2f.y pos) = true ->
   Binary32.is_finite z = true ->
   Vector2f.eqb (Camera.convertWorldToView c pos) (Vector2f.mk zero zero)
   = true) /\
  ((zero <? z)%f32 = true ->
   Binary32.is_nan (Vector2f.x pos) = false ->
   Binary32.is_nan (Vector2f.y pos) = false ->
   Vector2f.eqb (Camera.convertViewToWorld c (Vector2f.mk zero zero)) pos
   = true).
Proof.
  intros pos z. split.
  - intros Fx Fy Fz.
    unfold Camera.convertWorldToView, Vector2f.scale, Vector2f.sub, Vector2f.eqb.
    cbn [Vector2f.x Vector2f.y]. fold pos z.
    rewrite (sub_self _ Fx), (sub_self _ Fy), (mul_zero_l z Fz). reflexivity.
  - intros Hz Nx Ny.
    unfold Camera.convertViewToWorld, Vector2f.add, Vector2f.div, Vector2f.eqb.
    cbn [Vector2f.x Vector2f.y]. fold pos z.
    rewrite (div_zero_l z Hz), (add_zero_l _ Nx), (add_zero_l _ Ny).
    reflexivity.
Qed.

Lemma camera_origin_witness :
  Vector2f.eqb
    (Camera.convertWorldToView camera_tenth (Camera.position camera_tenth))
    (Vector2f.mk zero zero) = true /\
  Vector2f.eqb
    (Camera.convertViewToWorld camera_2x (Vector2f.mk zero zero))
    (Camera.position camera_2x) = true.
Proof.
  split.
  - apply (proj1 (camera_origin camera_tenth)); reflexivity.
  - apply (proj2 (camera_origin camera_2x)); reflexivity.
Defined.

(** ** Results that are not rounded *)

Lemma shr_1_double (q : Z) :
  0 <= q ->
  shr_1 {| shr_m := 2 * q; shr_r := false; shr_s := false |} =
  {| shr_m := q; shr_r := false; shr_s := false |}.
Proof. destruct q as [|p|p]; intros H; [reflexivity | reflexivity | lia]. Qed.

Lemma iter_shr_1_exact (p : positive) :
  forall q : Z,
    0 <= q ->
    iter_pos shr_1 p {| shr_m := q * 2 ^ Z.pos p; shr_r := false; shr_s := false |} =
    {| shr_m := q; shr_r := false; shr_s := false |}.
Proof.
  induction p as [p IH|p IH|]; intros q Hq; cbn [iter_pos].
  - replace (q * 2 ^ Z.pos p~1) with (2 * (q * 2 ^ Z.pos p * 2 ^ Z.pos p)).
    + rewrite shr_1_double by nia. rewrite IH by nia. apply IH, Hq.
    + replace (Z.pos p~1) with (Z.pos p + Z.pos p + 1) by lia.
      rewrite !Z.pow_add_r by lia. change (2 ^ 1) with 2. ring.
  - replace (q * 2 ^ Z.pos p~0) with (q * 2 ^ Z.pos p * 2 ^ Z.pos p).
    + rewrite IH by nia. apply IH, Hq.
    + replace (Z.pos p~0) with (Z.pos p + Z.pos p) by lia.
      rewrite Z.pow_add_r by lia. ring.
  - change (2 ^ 1) with 2. rewrite Z.mul_comm. apply shr_1_double, Hq.
Qed.

Lemma Zdigits2_mul_pow2 (m k : Z) :
  0 < m -> 0 <= k -> Zdigits2 (m * 2 ^ k) = Zdigits2 m + k.
Proof.
  intros Hm Hk.
  assert (0 < 2 ^ k) by (apply Z.pow_pos_nonneg; lia).
  rewrite (Zdigits2_log2 (m * 2 ^ k)) by nia.
  rewrite Z.log2_mul_pow2, (Zdigits2_log2 m) by lia. lia.
Qed.

Section Exact.

Variables prec emax : Z.
Hypothesis Hprec : 0 < prec.

Let fexp := SpecFloat.fexp prec emax.

Lemma shr_fexp_exact (m : positive) (e k : Z) :
  bounded prec emax m e = true -> 0 <= k ->
  shr_fexp prec emax (Z.pos m * 2 ^ k) (e - k) loc_Exact =
  ({| shr_m := Z.pos m; shr_r := false; shr_s := false |}, e).
Proof.
  intros B Hk. apply bounded_digits in B.
  unfold shr_fexp. rewrite Zdigits2_mul_pow2 by lia.
  replace (Zdigits2 (Z.pos m) + k + (e - k)) with (Zdigits2 (Z.pos m) + e)
    by lia.
  rewrite <- B. replace (e - (e - k)) with k by lia.
  cbn [shr_record_of_loc]. destruct k as [|p|p]; [| | lia].
  - cbn [shr]. rewrite Z.mul_1_r, Z.sub_0_r. reflexivity.
  - cbn [shr]. rewrite iter_shr_1_exact by lia. f_equal. lia.
Qed.

(** A number that fits the format is not changed by rounding. *)
Lemma binary_round_aux_exact (s : bool) (m : positive) (e k : Z) :
  bounded prec emax m e = true -> 0 <= k ->
  binary_round_aux prec emax s (Z.pos m * 2 ^ k) (e - k) loc_Exact =
  S754_finite s m e.
Proof.
  intros B Hk. unfold binary_round_aux.
  rewrite (shr_fexp_exact m e k B Hk).
  cbn [shr_m loc_of_shr_record round_nearest_even].
  pose proof (shr_fexp_exact m e 0 B ltac:(lia)) as E.
  rewrite Z.mul_1_r, Z.sub_0_r in E. rewrite E. cbn [shr_m].
  unfold bounded in B. apply andb_true_iff in B. destruct B as [_ B].
  rewrite B. reflexivity.
Qed.

Lemma binary_round_exact (s : bool) (m m' : positive) (e e' : Z) :
  bounded prec emax m' e' = true ->
  (e <= e' /\ Z.pos m = Z.pos m' * 2 ^ (e' - e)) \/
  (e' <= e /\ Z.pos m' = Z.pos m * 2 ^ (e - e')) ->
  binary_round prec emax s m e = S754_finite s m' e'.
Proof.
  intros B H. pose proof (bounded_digits prec emax m' e' B) as D.
  unfold binary_round.
  change (Z.pos (digits2_pos m)) with (Zdigits2 (Z.pos m)).
  assert (F : SpecFloat.fexp prec emax (Zdigits2 (Z.pos m) + e) = e').
  { transitivity (SpecFloat.fexp prec emax (Zdigits2 (Z.pos m') + e'));
      [|symmetry; exact D]. f_equal.
    destruct H as [[Hle E] | [Hle E]]; rewrite E, Zdigits2_mul_pow2 by lia; lia. }
  rewrite F. unfold shl_align.
  destruct H as [[Hle E] | [Hle E]].
  - destruct (e' - e) as [|p|p] eqn:K; try lia.
    + replace e with (e' - 0) by lia. rewrite E.
      apply (binary_round_aux_exact s m' e' 0 B). lia.
    + replace e with (e' - Z.pos p) by lia. rewrite E.
      apply (binary_round_aux_exact s m' e' (Z.pos p) B). lia.
  - destruct (e' - e) as [|p|p] eqn:K; try lia.
    + assert (Z.pos m = Z.pos m') as ->
        by (rewrite E; replace (e - e') with 0 by lia; lia).
      replace e with (e' - 0) by lia. rewrite <- (Z.mul_1_r (Z.pos m')) at 1.
      apply (binary_round_aux_exact s m' e' 0 B). lia.
    + rewrite iter_xO. replace (e - e') with (Z.pos p) in E by lia.
      rewrite <- E. rewrite <- (Z.mul_1_r (Z.pos m')), <- (Z.sub_0_r e') at 1.
      apply (binary_round_aux_exact s m' e' 0 B). lia.
Qed.

End Exact.

(** ** Scaled integers in single precision *)

Lemma bounded32_normal (m : positive) (e : Z) :
  bounded Binary32.prec Binary32.emax m e = true ->
  - 149 < e -> Zdigits2 (Z.pos m) = 24.
Proof.
  intros B He. apply bounded_digits in B. revert B.
  unfold fexp, emin, Binary32.prec, Binary32.emax. lia.
Qed.

Lemma bounded32_digits (m : positive) (e : Z) :
  bounded Binary32.prec Binary32.emax m e = true ->
  Zdigits2 (Z.pos m) <= 24 /\ - 149 <= e <= 104.
Proof.
  intros B. pose proof (bounded_digits _ _ _ _ B) as D.
  unfold bounded in B. apply andb_true_iff in B. destruct B as [_ B].
  apply Z.leb_le in B. revert D B.
  unfold fexp, emin, Binary32.prec, Binary32.emax. lia.
Qed.

Lemma Zdigits2_bound (n : Z) : 0 < n -> n < 2 ^ 24 -> 1 <= Zdigits2 n <= 24.
Proof.
  intros H0 H. rewrite Zdigits2_log2 by exact H0.
  pose proof (Z.log2_nonneg n).
  assert (Z.log2 n < 24) by (apply Z.log2_lt_pow2; lia). lia.
Qed.

(** The canonical mantissa and exponent of [p * 2^j]. *)
Lemma canonical32 (p j : Z) :
  0 < p < 2 ^ 24 -> - 125 <= j <= 100 ->
  exists m : positive,
    Z.pos m = p * 2 ^ (24 - Zdigits2 p) /\
    bounded Binary32.prec Binary32.emax m (Zdigits2 p + j - 24) = true.
Proof.
  intros Hp Hj. pose proof (Zdigits2_bound p ltac:(lia) ltac:(lia)) as Hd.
  assert (P : 0 < p * 2 ^ (24 - Zdigits2 p)).
  { assert (0 < 2 ^ (24 - Zdigits2 p)) by (apply Z.pow_pos_nonneg; lia). nia. }
  destruct (p * 2 ^ (24 - Zdigits2 p)) as [|m|m] eqn:E; try lia.
  exists m. split; [reflexivity|].
  unfold bounded, canonical_mantissa. apply andb_true_iff. split.
  - apply Z.eqb_eq. change (Z.pos (digits2_pos m)) with (Zdigits2 (Z.pos m)).
    rewrite <- E, Zdigits2_mul_pow2 by lia.
    unfold fexp, emin, Binary32.prec, Binary32.emax. lia.
  - apply Z.leb_le. unfold Binary32.prec, Binary32.emax. lia.
Qed.

Lemma binary_round_scaled (s : bool) (m : positive) (p j k : Z) :
  0 < p < 2 ^ 24 -> - 125 <= j <= 100 -> 0 <= k ->
  Z.pos m = p * 2 ^ k ->
  Binary32.scaled (binary_round Binary32.prec Binary32.emax s m (j - k))
    (cond_Zopp s p) j.
Proof.
  intros Hp Hj Hk Em.
  destruct (canonical32 p j Hp Hj) as (m' & Em' & B).
  pose proof (Zdigits2_bound p ltac:(lia) ltac:(lia)) as Hd.
  set (d := Zdigits2 p) in *.
  rewrite (binary_round_exact Binary32.prec Binary32.emax s m m'
             (j - k) (d + j - 24) B).
  - cbn [Binary32.scaled]. split; [exact B|]. split; [lia|].
    replace (j - (d + j - 24)) with (24 - d) by lia.
    destruct s; cbn [cond_Zopp]; lia.
  - destruct (Z_le_gt_dec (24 - d) k) as [Hc|Hc].
    + left. split; [lia|]. rewrite Em, Em'.
      replace (d + j - 24 - (j - k)) with (k - (24 - d)) by lia.
      rewrite <- Z.mul_assoc, <- Z.pow_add_r by lia. do 2 f_equal. lia.
    + right. split; [lia|]. rewrite Em, Em'.
      replace (j - k - (d + j - 24)) with (24 - d - k) by lia.
      rewrite <- Z.mul_assoc, <- Z.pow_add_r by lia. do 2 f_equal. lia.
Qed.

(** Normalizing [n * 2^k] at the exponent [j - k] gives the float of
    [n * 2^j]. *)
Lemma binary_normalize_scaled (n j k : Z) :
  Z.abs n < 2 ^ 24 -> - 125 <= j <= 100 -> 0 <= k ->
  Binary32.scaled
    (binary_normalize Binary32.prec Binary32.emax (n * 2 ^ k) (j - k) false)
    n j.
Proof.
  intros Hn Hj Hk.
  assert (P : 0 < 2 ^ k) by (apply Z.pow_pos_nonneg; lia).
  destruct (n * 2 ^ k) as [|m|m] eqn:E; cbn [binary_normalize].
  - split; [reflexivity | nia].
  - assert (0 < n) by nia.
    apply (binary_round_scaled false m n j k); [lia | exact Hj | exact Hk | lia].
  - assert (n < 0) by nia.
    replace n with (cond_Zopp true (- n)) by (cbn; lia).
    apply (binary_round_scaled true m (- n) j k); [lia | exact Hj | exact Hk | lia].
Qed.

Lemma of_int_scaled (n : Z) :
  Z.abs n < 2 ^ 24 -> Binary32.scaled (Binary32.of_int n) n 0.
Proof.
  intros Hn. unfold Binary32.of_int.
  pose proof (binary_normalize_scaled n 0 0 Hn ltac:(lia) ltac:(lia)) as H.
  rewrite Z.mul_1_r in H. exact H.
Qed.

Lemma scaled_unique (x y : float) (n j : Z) :
  Binary32.scaled x n j -> Binary32.scaled y n j -> x = y.
Proof.
  destruct x as [sx|sx| |sx mx ex], y as [sy|sy| |sy my ey];
    cbn [Binary32.scaled]; intros Hx Hy; try contradiction.
  - destruct Hx as [-> _], Hy as [-> _]. reflexivity.
  - destruct Hx as [_ ->], Hy as (_ & _ & E). destruct sy; cbn in E; lia.
  - destruct Hx as (_ & _ & E), Hy as [_ ->]. destruct sx; cbn in E; lia.
  - destruct Hx as (Bx & Lx & Ex), Hy as (By & Ly & Ey).
    assert (Px : 0 < 2 ^ (j - ex)) by (apply Z.pow_pos_nonneg; lia).
    assert (Py : 0 < 2 ^ (j - ey)) by (apply Z.pow_pos_nonneg; lia).
    assert (S : sx = sy).
    { destruct sx, sy; cbn [cond_Zopp] in Ex, Ey; try reflexivity; nia. }
    subst sy.
    assert (A : Z.pos mx = Z.abs n * 2 ^ (j - ex) /\
                Z.pos my = Z.abs n * 2 ^ (j - ey) /\ 0 < Z.abs n).
    { destruct sx; cbn [cond_Zopp] in Ex, Ey; nia. }
    destruct A as (Ax & Ay & An).
    pose proof (bounded_digits _ _ _ _ Bx) as Dx.
    pose proof (bounded_digits _ _ _ _ By) as Dy.
    rewrite Ax, Zdigits2_mul_pow2 in Dx by lia.
    rewrite Ay, Zdigits2_mul_pow2 in Dy by lia.
    replace (Zdigits2 (Z.abs n) + (j - ex) + ex)
      with (Zdigits2 (Z.abs n) + j) in Dx by lia.
    replace (Zdigits2 (Z.abs n) + (j - ey) + ey)
      with (Zdigits2 (Z.abs n) + j) in Dy by lia.
    assert (Ee : ex = ey) by congruence.
    assert (Em : mx = my) by (rewrite <- Ee in Ay; lia).
    rewrite Ee, Em. reflexivity.
Qed.

Lemma shl_align_fst (m : positive) (e e' : Z) :
  e' <= e -> Z.pos (fst (shl_align m e e')) = Z.pos m * 2 ^ (e - e').
Proof.
  intros H. unfold shl_align. destruct (e' - e) as [|p|p] eqn:K; cbn [fst].
  - replace (e - e') with 0 by lia. lia.
  - lia.
  - rewrite iter_xO. do 2 f_equal. lia.
Qed.

Lemma cond_Zopp_mul (s : bool) (m k : Z) :
  cond_Zopp s (m * k) = cond_Zopp s m * k.
Proof. destruct s; cbn [cond_Zopp]; lia. Qed.

(** The mantissas of two scaled integers, aligned on the least of the two
    exponents. *)
Lemma aligned_scaled (sx sy : bool) (mx my : positive) (ex ey a b j : Z) :
  ex <= j -> ey <= j ->
  cond_Zopp sx (Z.pos mx) = a * 2 ^ (j - ex) ->
  cond_Zopp sy (Z.pos my) = b * 2 ^ (j - ey) ->
  let ez := Z.min ex ey in
  cond_Zopp sx (Z.pos (fst (shl_align mx ex ez))) = a * 2 ^ (j - ez) /\
  cond_Zopp sy (Z.pos (fst (shl_align my ey ez))) = b * 2 ^ (j - ez).
Proof.
  intros Lx Ly Ex Ey ez.
  rewrite !shl_align_fst, !cond_Zopp_mul, Ex, Ey by (unfold ez; lia).
  rewrite <- !Z.mul_assoc, <- !Z.pow_add_r by (unfold ez; lia).
  split; do 2 f_equal; lia.
Qed.

(** Sums and differences of scaled integers are exact as long as the
    result has less than 24 bits. *)
Lemma add_scaled (x y : float) (a b j : Z) :
  Binary32.scaled x a j -> Binary32.scaled y b j ->
  Z.abs (a + b) < 2 ^ 24 -> - 125 <= j <= 100 ->
  Binary32.scaled (x + y)%f32 (a + b) j.
Proof.
  intros Hx Hy Hab Hj.
  destruct x as [sx|sx| |sx mx ex], y as [sy|sy| |sy my ey];
    cbn [Binary32.scaled] in Hx, Hy; try contradiction.
  - destruct Hx as [-> ->], Hy as [-> ->]. split; reflexivity.
  - destruct Hx as [-> ->]. exact Hy.
  - destruct Hy as [-> ->]. rewrite Z.add_0_r. exact Hx.
  - destruct Hx as (Bx & Lx & Ex), Hy as (By & Ly & Ey).
    unfold Binary32.add. cbn [SFadd].
    destruct (aligned_scaled sx sy mx my ex ey a b j Lx Ly Ex Ey) as [-> ->].
    rewrite <- Z.mul_add_distr_r.
    set (ez := Z.min ex ey).
    replace ez with (j - (j - ez)) at 2 by lia.
    apply binary_normalize_scaled; [exact Hab | exact Hj | unfold ez; lia].
Qed.

Lemma sub_scaled (x y : float) (a b j : Z) :
  Binary32.scaled x a j -> Binary32.scaled y b j ->
  Z.abs (a - b) < 2 ^ 24 -> - 125 <= j <= 100 ->
  Binary32.scaled (x - y)%f32 (a - b) j.
Proof.
  intros Hx Hy Hab Hj.
  destruct x as [sx|sx| |sx mx ex], y as [sy|sy| |sy my ey];
    cbn [Binary32.scaled] in Hx, Hy; try contradiction.
  - destruct Hx as [-> ->], Hy as [-> ->]. split; reflexivity.
  - destruct Hx as [-> ->], Hy as (By & Ly & Ey).
    unfold Binary32.sub. cbn [SFsub Binary32.scaled].
    split; [exact By|]. split; [exact Ly|].
    destruct sy; cbn [cond_Zopp negb] in *; lia.
  - destruct Hy as [-> ->]. rewrite Z.sub_0_r. exact Hx.
  - destruct Hx as (Bx & Lx & Ex), Hy as (By & Ly & Ey).
    unfold Binary32.sub. cbn [SFsub].
    destruct (aligned_scaled sx sy mx my ex ey a b j Lx Ly Ex Ey) as [-> ->].
    rewrite <- Z.mul_sub_distr_r.
    set (ez := Z.min ex ey).
    replace ez with (j - (j - ez)) at 2 by lia.
    apply binary_normalize_scaled; [exact Hab | exact Hj | unfold ez; lia].
Qed.

Lemma scaled_finite_inv (s : bool) (m : positive) (e a j : Z) :
  Binary32.scaled (S754_finite s m e) a j -> - 125 <= j ->
  Z.pos m = Z.abs a * 2 ^ (j - e) /\ 0 < Z.abs a /\
  (if s then a < 0 else 0 < a) /\
  Zdigits2 (Z.pos m) = 24 /\ 2 ^ 23 <= Z.pos m < 2 ^ 24.
Proof.
  intros (B & L & E) Hj.
  assert (P : 0 < 2 ^ (j - e)) by (apply Z.pow_pos_nonneg; lia).
  assert (A : Z.pos m = Z.abs a * 2 ^ (j - e) /\ 0 < Z.abs a /\
              (if s then a < 0 else 0 < a)).
  { destruct s; cbn [cond_Zopp] in E; nia. }
  destruct A as (A & An & S). repeat split; try assumption.
  - apply (bounded32_normal m e B).
    pose proof (bounded32_digits m e B) as [D _].
    rewrite A, Zdigits2_mul_pow2 in D by lia.
    pose proof (Zdigits2_log2 (Z.abs a) An). pose proof (Z.log2_nonneg (Z.abs a)).
    lia.
  - assert (D : Zdigits2 (Z.pos m) = 24).
    { apply (bounded32_normal m e B).
      pose proof (bounded32_digits m e B) as [D _].
      rewrite A, Zdigits2_mul_pow2 in D by lia.
      pose proof (Zdigits2_log2 (Z.abs a) An).
      pose proof (Z.log2_nonneg (Z.abs a)). lia. }
    rewrite Zdigits2_log2 in D by lia.
    pose proof (Z.log2_spec (Z.pos m) ltac:(lia)) as [Lo _].
    replace (Z.log2 (Z.pos m)) with 23 in Lo by lia. exact Lo.
  - assert (D : Zdigits2 (Z.pos m) = 24).
    { apply (bounded32_normal m e B).
      pose proof (bounded32_digits m e B) as [D _].
      rewrite A, Zdigits2_mul_pow2 in D by lia.
      pose proof (Zdigits2_log2 (Z.abs a) An).
      pose proof (Z.log2_nonneg (Z.abs a)). lia. }
    rewrite Zdigits2_log2 in D by lia.
    pose proof (Z.log2_spec (Z.pos m) ltac:(lia)) as [_ Hi].
    replace (Z.succ (Z.log2 (Z.pos m))) with 24 in Hi by lia. exact Hi.
Qed.

(** Products of scaled integers are exact as long as the result has less
    than 24 bits. *)
Lemma mul_scaled (sx sy : bool) (mx my : positive) (ex ey a b j1 j2 : Z) :
  Binary32.scaled (S754_finite sx mx ex) a j1 ->
  Binary32.scaled (S754_finite sy my ey) b j2 ->
  Z.abs (a * b) < 2 ^ 24 ->
  - 125 <= j1 -> - 125 <= j2 -> - 125 <= j1 + j2 <= 100 ->
  Binary32.scaled (S754_finite sx mx ex * S754_finite sy my ey)%f32
    (a * b) (j1 + j2).
Proof.
  intros Hx Hy Hab H1 H2 H12.
  pose proof (scaled_finite_inv _ _ _ _ _ Hx H1) as (Ax & Pa & Sa & Dx & Rx).
  pose proof (scaled_finite_inv _ _ _ _ _ Hy H2) as (Ay & Pb & Sb & Dy & Ry).
  destruct Hx as (Bx & Lx & _), Hy as (By & Ly & _).
  set (p := Z.abs (a * b)).
  assert (Pp : 0 < p) by (unfold p; nia).
  destruct (canonical32 p (j1 + j2) ltac:(lia) H12) as (m' & Em' & B').
  pose proof (Zdigits2_bound p Pp Hab) as Hd.
  set (d := Zdigits2 p) in *.
  assert (Emm : Z.pos (mx * my) = p * 2 ^ (j1 - ex + (j2 - ey))).
  { rewrite Pos2Z.inj_mul, Ax, Ay, Z.pow_add_r by lia.
    unfold p. rewrite Z.abs_mul. ring. }
  assert (K : 0 <= d + j1 + j2 - 24 - (ex + ey)).
  { assert (D : Zdigits2 (Z.pos (mx * my)) = d + (j1 - ex + (j2 - ey)))
      by (rewrite Emm; apply Zdigits2_mul_pow2; lia).
    rewrite Zdigits2_log2 in D by lia.
    assert (2 ^ 46 <= Z.pos (mx * my)).
    { rewrite Pos2Z.inj_mul. change (2 ^ 46) with (2 ^ 23 * 2 ^ 23). nia. }
    pose proof (Z.log2_le_mono _ _ H) as M.
    change (Z.log2 (2 ^ 46)) with 46 in M. lia. }
  unfold Binary32.mul. cbn [SFmul].
  replace (Z.pos (mx * my))
    with (Z.pos m' * 2 ^ (d + j1 + j2 - 24 - (ex + ey))).
  - replace (ex + ey)
      with (d + (j1 + j2) - 24 - (d + j1 + j2 - 24 - (ex + ey))) at 2 by lia.
    rewrite (binary_round_aux_exact Binary32.prec Binary32.emax
               (xorb sx sy) m' _ _ B' K).
    cbn [Binary32.scaled]. split; [exact B'|]. split; [lia|].
    replace (j1 + j2 - (d + (j1 + j2) - 24)) with (24 - d) by lia.
    assert (0 < 2 ^ (24 - d)) by (apply Z.pow_pos_nonneg; lia).
    unfold p in Em'. destruct sx, sy; cbn [xorb cond_Zopp]; nia.
  - rewrite Emm, Em', <- Z.mul_assoc, <- Z.pow_add_r by lia.
    do 2 f_equal. lia.
Qed.

Lemma sq_scaled (x : float) (a j : Z) :
  Binary32.scaled x a j -> a * a < 2 ^ 24 ->
  - 62 <= j <= 50 ->
  Binary32.scaled (x * x)%f32 (a * a) (j + j).
Proof.
  intros Hx Ha Hj. destruct x as [s|s| |s m e];
    cbn [Binary32.scaled] in Hx; try contradiction.
  - destruct Hx as [-> ->]. split; reflexivity.
  - apply mul_scaled; try assumption; try lia.
    rewrite Z.abs_mul. nia.
Qed.

(** Two positive scaled integers are ordered as their exponents, then as
    their mantissas. *)
Lemma compare_mantissas (mx my : positive) (ex ey a b j : Z) :
  ex <= j -> ey <= j ->
  Z.pos mx = a * 2 ^ (j - ex) -> Z.pos my = b * 2 ^ (j - ey) ->
  2 ^ 23 <= Z.pos mx < 2 ^ 24 -> 2 ^ 23 <= Z.pos my < 2 ^ 24 ->
  match ex ?= ey with
  | Eq => Pos.compare_cont Eq mx my
  | Lt => Lt
  | Gt => Gt
  end = (a ?= b).
Proof.
  intros Lx Ly Ex Ey Rx Ry.
  assert (Px : 0 < 2 ^ (j - ex)) by (apply Z.pow_pos_nonneg; lia).
  assert (Py : 0 < 2 ^ (j - ey)) by (apply Z.pow_pos_nonneg; lia).
  destruct (Z.compare_spec ex ey) as [->|H|H].
  - change (Pos.compare_cont Eq mx my) with (Z.pos mx ?= Z.pos my).
    rewrite Ex, Ey.
    destruct (Z.compare_spec a b) as [->| |];
      [apply Z.compare_refl | apply Z.compare_lt_iff; nia
       | apply Z.compare_gt_iff; nia].
  - symmetry. apply Z.compare_lt_iff.
    assert (S : 2 ^ (j - ex) = 2 ^ (j - ey) * 2 ^ (ey - ex))
      by (rewrite <- Z.pow_add_r by lia; f_equal; lia).
    assert (T : 2 <= 2 ^ (ey - ex))
      by (change 2 with (2 ^ 1) at 1; apply Z.pow_le_mono_r; lia).
    change (2 ^ 24) with (2 * 2 ^ 23) in *. nia.
  - symmetry. apply Z.compare_gt_iff.
    assert (S : 2 ^ (j - ey) = 2 ^ (j - ex) * 2 ^ (ex - ey))
      by (rewrite <- Z.pow_add_r by lia; f_equal; lia).
    assert (T : 2 <= 2 ^ (ex - ey))
      by (change 2 with (2 ^ 1) at 1; apply Z.pow_le_mono_r; lia).
    change (2 ^ 24) with (2 * 2 ^ 23) in *. nia.
Qed.

(** The comparisons of floats agree with those of the integers. *)
Lemma compare_scaled (x y : float) (a b j : Z) :
  Binary32.scaled x a j -> Binary32.scaled y b j -> - 125 <= j ->
  SFcompare x y = Some (a ?= b).
Proof.
  intros Hx Hy Hj.
  destruct x as [sx|sx| |sx mx ex], y as [sy|sy| |sy my ey];
    cbn [Binary32.scaled] in Hx, Hy; try contradiction.
  - destruct Hx as [_ ->], Hy as [_ ->]. reflexivity.
  - destruct Hx as [_ ->].
    pose proof (scaled_finite_inv _ _ _ _ _ Hy Hj) as (_ & _ & S & _).
    cbn [SFcompare]. f_equal. symmetry.
    destruct sy; [apply Z.compare_gt_iff | apply Z.compare_lt_iff]; lia.
  - destruct Hy as [_ ->].
    pose proof (scaled_finite_inv _ _ _ _ _ Hx Hj) as (_ & _ & S & _).
    cbn [SFcompare]. f_equal. symmetry.
    destruct sx; [apply Z.compare_lt_iff | apply Z.compare_gt_iff]; lia.
  - pose proof (scaled_finite_inv _ _ _ _ _ Hx Hj) as (Ax & Pa & Sa & _ & Rx).
    pose proof (scaled_finite_inv _ _ _ _ _ Hy Hj) as (Ay & Pb & Sb & _ & Ry).
    destruct Hx as (_ & Lx & _), Hy as (_ & Ly & _).
    cbn [SFcompare]. f_equal. destruct sx, sy.
    + transitivity (match ey ?= ex with
                    | Eq => Pos.compare_cont Eq my mx
                    | Lt => Lt
                    | Gt => Gt
                    end).
      * destruct (Z.compare_spec ex ey), (Z.compare_spec ey ex);
          try lia; try reflexivity.
        change (Pos.compare_cont Eq mx my) with (Pos.compare mx my).
        change (Pos.compare_cont Eq my mx) with (Pos.compare my mx).
        symmetry. apply Pos.compare_antisym.
      * rewrite (compare_mantissas my mx ey ex (- b) (- a) j);
          try assumption.
        -- apply Z.compare_opp.
        -- rewrite Z.abs_neq in Ay by lia. exact Ay.
        -- rewrite Z.abs_neq in Ax by lia. exact Ax.
    + symmetry. apply Z.compare_lt_iff. lia.
    + symmetry. apply Z.compare_gt_iff. lia.
    + apply (compare_mantissas mx my ex ey a b j); try assumption.
      * rewrite Z.abs_eq in Ax by lia. exact Ax.
      * rewrite Z.abs_eq in Ay by lia. exact Ay.
Qed.

Lemma leb_scaled (x y : float) (a b j : Z) :
  Binary32.scaled x a j -> Binary32.scaled y b j -> - 125 <= j ->
  (x <=? y)%f32 = (a <=? b).
Proof.
  intros Hx Hy Hj. unfold Binary32.leb, SFleb.
  rewrite (compare_scaled x y a b j Hx Hy Hj). unfold Z.leb.
  destruct (a ?= b); reflexivity.
Qed.

(** ** The unit on the pixel grid *)

Lemma abs_le_square (x : Z) : Z.abs x <= x * x.
Proof. nia. Qed.

(** The two sides of the comparison of [contains], on pixels. *)
Lemma dist2_grid (ux uy r px py : Z) (isSelected : bool) :
  let dx := px - (ux + r) in
  let dy := py - (uy + r) in
  let u := Unit.mk (Vector2i.to_Vector2f (Vector2i.mk ux uy))
             (Binary32.of_int r) isSelected in
  Z.abs ux < 2 ^ 24 -> Z.abs uy < 2 ^ 24 ->
  Z.abs px < 2 ^ 24 -> Z.abs py < 2 ^ 24 ->
  Z.abs (ux + r) < 2 ^ 24 -> Z.abs (uy + r) < 2 ^ 24 ->
  dx * dx + dy * dy < 2 ^ 24 -> r * r < 2 ^ 24 ->
  Binary32.scaled
    (Unit.dist2 u (Vector2i.to_Vector2f (Vector2i.mk px py)))
    (dx * dx + dy * dy) 0 /\
  Binary32.scaled (Unit.radius u * Unit.radius u)%f32 (r * r) 0.
Proof.
  intros dx dy u Hux Huy Hpx Hpy Hcx Hcy Hd Hr.
  pose proof (abs_le_square r). pose proof (abs_le_square dx).
  pose proof (abs_le_square dy).
  pose proof (Z.square_nonneg dx). pose proof (Z.square_nonneg dy).
  assert (Hr' : Z.abs r < 2 ^ 24) by lia.
  assert (Hdx : Z.abs dx < 2 ^ 24) by lia.
  assert (Hdy : Z.abs dy < 2 ^ 24) by lia.
  pose proof (of_int_scaled ux Hux) as Sux.
  pose proof (of_int_scaled uy Huy) as Suy.
  pose proof (of_int_scaled px Hpx) as Spx.
  pose proof (of_int_scaled py Hpy) as Spy.
  pose proof (of_int_scaled r Hr') as Sr.
  pose proof (add_scaled _ _ _ _ 0 Sux Sr Hcx ltac:(lia)) as Scx.
  pose proof (add_scaled _ _ _ _ 0 Suy Sr Hcy ltac:(lia)) as Scy.
  pose proof (sub_scaled _ _ _ _ 0 Spx Scx Hdx ltac:(lia)) as Sdx.
  pose proof (sub_scaled _ _ _ _ 0 Spy Scy Hdy ltac:(lia)) as Sdy.
  fold dx in Sdx. fold dy in Sdy.
  pose proof (sq_scaled _ _ 0 Sdx ltac:(lia) ltac:(lia)) as Sxx.
  pose proof (sq_scaled _ _ 0 Sdy ltac:(lia) ltac:(lia)) as Syy.
  pose proof (sq_scaled _ _ 0 Sr Hr ltac:(lia)) as Srr.
  cbn [Z.add] in Sxx, Syy, Srr.
  assert (Hs : Z.abs (dx * dx + dy * dy) < 2 ^ 24) by lia.
  pose proof (add_scaled _ _ _ _ 0 Sxx Syy Hs ltac:(lia)) as Sd.
  split; [exact Sd | exact Srr].
Qed.

(** On pixels [contains] is exact.  For a unit at integer coordinates
    [(ux, uy)] with the integer radius [r] and a point at integer
    coordinates [(px, py)], [contains] is the test
    [dx^2 + dy^2 <= r^2] on integers, where [(dx, dy)] is the offset of
    the point from [(ux + r, uy + r)], as long as the coordinates and the
    two sides of the comparison are below [2^24] in absolute value. *)
Theorem contains_pixels (ux uy r px py : Z) (isSelected : bool) :
  let dx := px - (ux + r) in
  let dy := py - (uy + r) in
  Z.abs ux < 2 ^ 24 -> Z.abs uy < 2 ^ 24 ->
  Z.abs px < 2 ^ 24 -> Z.abs py < 2 ^ 24 ->
  Z.abs (ux + r) < 2 ^ 24 -> Z.abs (uy + r) < 2 ^ 24 ->
  dx * dx + dy * dy < 2 ^ 24 -> r * r < 2 ^ 24 ->
  Unit.contains
    (Unit.mk (Vector2i.to_Vector2f (Vector2i.mk ux uy)) (Binary32.of_int r)
       isSelected)
    (Vector2i.to_Vector2f (Vector2i.mk px py)) =
  (dx * dx + dy * dy <=? r * r).
Proof.
  intros dx dy Hux Huy Hpx Hpy Hcx Hcy Hd Hr.
  destruct (dist2_grid ux uy r px py isSelected Hux Huy Hpx Hpy Hcx Hcy Hd Hr)
    as [Sd Sr].
  rewrite contains_eq. apply (leb_scaled _ _ _ _ 0 Sd Sr). lia.
Qed.

Lemma contains_pixels_witness :
  Unit.contains
    (Unit.mk (Vector2i.to_Vector2f (Vector2i.mk 100 100)) (Binary32.of_int 30)
       false)
    (Vector2i.to_Vector2f (Vector2i.mk 100 100)) = false /\
  Unit.contains
    (Unit.mk (Vector2i.to_Vector2f (Vector2i.mk 100 100)) (Binary32.of_int 30)
       false)
    (Vector2i.to_Vector2f (Vector2i.mk 148 112)) = true.
Proof.
  split.
  - rewrite (contains_pixels 100 100 30 100 100 false); cbn; lia.
  - rewrite (contains_pixels 100 100 30 148 112 false); cbn; lia.
Defined.

Lemma of_int_add (a b : Z) :
  Z.abs a < 2 ^ 24 -> Z.abs b < 2 ^ 24 -> Z.abs (a + b) < 2 ^ 24 ->
  (Binary32.of_int a + Binary32.of_int b)%f32 = Binary32.of_int (a + b).
Proof.
  intros Ha Hb Hab. apply (scaled_unique _ _ (a + b) 0).
  - apply add_scaled; try apply of_int_scaled; try assumption; lia.
  - apply of_int_scaled, Hab.
Qed.

Lemma of_int_sub (a b : Z) :
  Z.abs a < 2 ^ 24 -> Z.abs b < 2 ^ 24 -> Z.abs (a - b) < 2 ^ 24 ->
  (Binary32.of_int a - Binary32.of_int b)%f32 = Binary32.of_int (a - b).
Proof.
  intros Ha Hb Hab. apply (scaled_unique _ _ (a - b) 0).
  - apply sub_scaled; try apply of_int_scaled; try assumption; lia.
  - apply of_int_scaled, Hab.
Qed.

(** A unit moved by a right click is not under the cursor.  A selected
    unit of integer radius [r > 0] goes to the mouse position; its circle
    is then centred [r] pixels to the right of the cursor and [r] pixels
    below it, the cursor itself is outside, and two more left clicks at
    the same place leave the unit deselected. *)
Theorem click_on_moved_unit (u : Unit.t) (mouse : Vector2i.t) (r : Z) :
  let moved := onMouseButtonPressed Mouse.Right mouse u in
  let centre :=
    Vector2i.mk (Vector2i.x mouse + r) (Vector2i.y mouse + r) in
  Unit.isSelected u = true ->
  Unit.radius u = Binary32.of_int r ->
  0 < r -> 2 * (r * r) < 2 ^ 24 ->
  Z.abs (Vector2i.x mouse) + r < 2 ^ 24 ->
  Z.abs (Vector2i.y mouse) + r < 2 ^ 24 ->
  Unit.position moved = Vector2i.to_Vector2f mouse /\
  Unit.contains moved (Vector2i.to_Vector2f mouse) = false /\
  Unit.contains moved (Vector2i.to_Vector2f centre) = true /\
  Unit.isSelected
    (onMouseButtonPressed Mouse.Left mouse
       (onMouseButtonPressed Mouse.Left mouse moved)) = false.
Proof.
  intros moved centre Hsel Hrad Hr Hrr Hx Hy.
  pose proof (Z.square_nonneg r) as Hsq.
  destruct mouse as [mx my]. cbn [Vector2i.x Vector2i.y] in *.
  assert (Em : moved =
               Unit.mk (Vector2i.to_Vector2f (Vector2i.mk mx my))
                 (Binary32.of_int r) true).
  { unfold moved, onMouseButtonPressed. rewrite Hsel.
    unfold Unit.moveTo. rewrite Hrad, Hsel. reflexivity. }
  assert (Out : Unit.contains moved
                  (Vector2i.to_Vector2f (Vector2i.mk mx my)) = false).
  { assert (D : (mx - (mx + r)) * (mx - (mx + r))
                + (my - (my + r)) * (my - (my + r)) = 2 * (r * r)) by ring.
    destruct (dist2_grid mx my r mx my true) as [Sd Sr]; try lia.
    rewrite Em, contains_eq, (leb_scaled _ _ _ _ 0 Sd Sr) by lia.
    apply Z.leb_gt. rewrite D. nia. }
  split; [rewrite Em; reflexivity|]. split; [exact Out|]. split.
  - assert (D : (mx + r - (mx + r)) * (mx + r - (mx + r))
                + (my + r - (my + r)) * (my + r - (my + r)) = 0) by ring.
    destruct (dist2_grid mx my r (mx + r) (my + r) true) as [Sd Sr]; try lia.
    rewrite Em. unfold centre.
    rewrite contains_eq, (leb_scaled _ _ _ _ 0 Sd Sr) by lia.
    apply Z.leb_le. rewrite D. lia.
  - unfold onMouseButtonPressed at 2. rewrite Out.
    unfold onMouseButtonPressed.
    change (Unit.contains (Unit.set_isSelected moved false)
              (Vector2i.to_Vector2f (Vector2i.mk mx my)))
      with (Unit.contains moved (Vector2i.to_Vector2f (Vector2i.mk mx my))).
    rewrite Out. reflexivity.
Qed.

Lemma click_on_moved_unit_witness :
  let u := Unit.set_isSelected myUnit0 true in
  let mouse := Vector2i.mk 500 300 in
  let moved := onMouseButtonPressed Mouse.Right mouse u in
  Unit.position moved = Vector2i.to_Vector2f mouse /\
  Unit.contains moved (Vector2i.to_Vector2f mouse) = false /\
  Unit.contains moved (Vector2i.to_Vector2f (Vector2i.mk 530 330)) = true /\
  Unit.isSelected
    (onMouseButtonPressed Mouse.Left mouse
       (onMouseButtonPressed Mouse.Left mouse moved)) = false.
Proof.
  apply (click_on_moved_unit (Unit.set_isSelected myUnit0 true)
           (Vector2i.mk 500 300) 30); try reflexivity; cbn; lia.
Defined.

(** Scrolling back.  For a camera at integer coordinates with an integer
    scroll speed, [updateEdgeScrolling] with the mouse in the left zone
    and then in the right zone of a window at least 140 pixels wide gives
    the camera back, as long as the coordinates reached are below [2^24]
    in absolute value. *)
Theorem updateEdgeScrolling_back (x y speed : Z) (zoomFactor : float)
    (window : RenderWindow.t) (left right my : Z) :
  let size := RenderWindow.size window in
  let c := Camera.mk (Vector2i.to_Vector2f (Vector2i.mk x y)) zoomFactor
             (Binary32.of_int speed) in
  140 <= Vector2u.x size < 2 ^ 32 -> Vector2u.y size < 2 ^ 32 ->
  - 2 ^ 31 <= left < 70 ->
  Vector2u.x size - 70 < right < 2 ^ 31 ->
  70 <= my <= Vector2u.y size - 70 -> my < 2 ^ 31 ->
  Z.abs x < 2 ^ 24 -> Z.abs speed < 2 ^ 24 -> Z.abs (x - speed) < 2 ^ 24 ->
  Camera.updateEdgeScrolling
    (Camera.updateEdgeScrolling c (Vector2i.mk left my) window)
    (Vector2i.mk right my) window = c.
Proof.
  intros size c Hw Hh Hl Hr Hmy Hmy' Hx Hs Hxs.
  unfold Camera.updateEdgeScrolling, c. fold size.
  cbn [Camera.position Camera.scrollSpeed Camera.zoomFactor Vector2f.x
       Vector2f.y Vector2i.x Vector2i.y Vector2i.to_Vector2f].
  rewrite !edgeScroll_zones by lia.
  rewrite (proj2 (Z.ltb_lt left 70)) by lia.
  rewrite !(proj2 (Z.ltb_ge my 70)) by lia.
  rewrite (proj2 (Z.ltb_ge right 70)) by lia.
  rewrite (proj2 (Z.leb_le 70 (Vector2u.x size))) by lia.
  rewrite (proj2 (Z.ltb_lt (Vector2u.x size - 70) right)) by lia.
  rewrite !(proj2 (Z.ltb_ge (Vector2u.y size - 70) my)) by lia.
  rewrite !andb_false_r. cbn [andb].
  rewrite of_int_sub, of_int_add by (try assumption; try lia).
  replace (x - speed + speed) with x by lia. reflexivity.
Qed.

Lemma updateEdgeScrolling_back_witness :
  Camera.updateEdgeScrolling
    (Camera.updateEdgeScrolling camera_2x (Vector2i.mk 10 540) desktop)
    (Vector2i.mk 1900 540) desktop = camera_2x.
Proof.
  apply (updateEdgeScrolling_back 100 50 5 (Binary32.of_int 2) desktop
           10 1900 540); cbn; lia.
Defined.

(** ** Halving *)

Lemma div_eucl_mul (q b : Z) : 0 < b -> Z.div_eucl (q * b) b = (q, 0).
Proof.
  intros Hb. pose proof (Z.div_mul q b ltac:(lia)) as D.
  pose proof (Z.mod_mul q b ltac:(lia)) as M.
  unfold Z.div, Z.modulo in D, M.
  destruct (Z.div_eucl (q * b) b) as [q' r']. congruence.
Qed.

(** Dividing a scaled integer by [2.0f] is exact. *)
Lemma div_two_scaled (x : float) (n j : Z) :
  Binary32.scaled x n j -> - 124 <= j ->
  Binary32.scaled (x / two)%f32 n (j - 1).
Proof.
  intros Hx Hj. destruct x as [s|s| |s m e];
    cbn [Binary32.scaled] in Hx; try contradiction.
  - destruct Hx as [-> ->]. split; reflexivity.
  - pose proof (scaled_finite_inv _ _ _ _ _ Hx ltac:(lia)) as (A & Pn & _ & D & R).
    destruct Hx as (B & L & E).
    pose proof (bounded32_digits m e B) as [_ Re].
    assert (Le : j - 23 <= e).
    { rewrite A, Zdigits2_mul_pow2 in D by lia.
      pose proof (Zdigits2_log2 (Z.abs n) Pn).
      pose proof (Z.log2_nonneg (Z.abs n)). lia. }
    assert (B' : bounded Binary32.prec Binary32.emax m (e - 1) = true).
    { unfold bounded, canonical_mantissa. apply andb_true_iff. split.
      - apply Z.eqb_eq.
        change (Z.pos (digits2_pos m)) with (Zdigits2 (Z.pos m)). rewrite D.
        unfold fexp, emin, Binary32.prec, Binary32.emax. lia.
      - apply Z.leb_le. unfold Binary32.prec, Binary32.emax in *. lia. }
    unfold Binary32.div, two. cbn [SFdiv]. unfold SFdiv_core_binary.
    rewrite D. change (Zdigits2 8388608) with 24.
    replace (fexp Binary32.prec Binary32.emax (24 + e - (24 + -22)))
      with (e - 2)
      by (unfold fexp, emin, Binary32.prec, Binary32.emax; lia).
    replace (Z.min (e - 2) (e - -22)) with (e - 2) by lia.
    replace (e - -22 - (e - 2)) with 24 by lia.
    cbv beta iota zeta.
    rewrite Z.shiftl_mul_pow2 by lia.
    replace (Z.pos m * 2 ^ 24) with (2 * Z.pos m * 8388608) by lia.
    rewrite div_eucl_mul by lia. cbv beta iota.
    change (new_location 8388608 0) with loc_Exact.
    rewrite xorb_false_r.
    replace (2 * Z.pos m) with (Z.pos m * 2 ^ 1) by lia.
    replace (e - 2) with (e - 1 - 1) by lia.
    rewrite (binary_round_aux_exact Binary32.prec Binary32.emax s m (e - 1) 1 B')
      by lia.
    cbn [Binary32.scaled]. split; [exact B'|]. split; [lia|].
    replace (j - 1 - (e - 1)) with (j - e) by lia. exact E.
Qed.

(** The same float, as twice the integer at half the scale. *)
Lemma scaled_double (x : float) (n j : Z) :
  Binary32.scaled x n j -> - 125 <= j -> Z.abs (2 * n) < 2 ^ 24 ->
  Binary32.scaled x (2 * n) (j - 1).
Proof.
  intros Hx Hj Hn. destruct x as [s|s| |s m e];
    cbn [Binary32.scaled] in Hx |- *; try contradiction.
  - destruct Hx as [-> ->]. split; reflexivity.
  - pose proof (scaled_finite_inv _ _ _ _ _ Hx Hj) as (A & Pn & _ & D & R).
    destruct Hx as (B & L & E).
    assert (Le : e <= j - 1).
    { rewrite A, Zdigits2_mul_pow2 in D by lia.
      assert (Zdigits2 (Z.abs n) <= 23); [|lia].
      rewrite Zdigits2_log2 by lia.
      assert (Z.log2 (Z.abs n) < 23); [|lia].
      apply Z.log2_lt_pow2; [lia|].
      change (2 ^ 24) with (2 * 2 ^ 23) in Hn. lia. }
    split; [exact B|]. split; [exact Le|].
    rewrite E. replace (j - e) with (Z.succ (j - 1 - e)) by lia.
    rewrite Z.pow_succ_r by lia. ring.
Qed.

(** The value of a scaled integer. *)
Lemma scaled_exactly (x : float) (n j : Z) :
  Binary32.scaled x n j ->
  Binary32.exactly x (inject_Z n * Qpower (2 # 1) j)%Q.
Proof.
  destruct x as [s|s| |s m e]; cbn [Binary32.scaled]; try contradiction.
  - intros [_ ->]. unfold Binary32.exactly. cbn [Binary32.to_Q].
    rewrite Qmult_0_l. reflexivity.
  - intros (_ & L & E). unfold Binary32.exactly. cbn [Binary32.to_Q].
    rewrite E, inject_Z_mult, Zpower_Qpower by lia.
    replace j with (j - e + e) at 2 by lia.
    rewrite Qpower_plus by discriminate.
    change (inject_Z 2) with (2 # 1)%Q. ring.
Qed.

(** ** The quadtree on the pixel grid *)

Lemma Qpower_pred (j : Z) :
  (Qpower (2 # 1) (j - 1) == Qpower (2 # 1) j / 2)%Q.
Proof.
  unfold Z.sub. rewrite Qpower_plus by discriminate.
  change (Qpower (2 # 1) (- (1))) with (1 # 2)%Q.
  unfold Qdiv. change (/ 2)%Q with (1 # 2)%Q. reflexivity.
Qed.

(** A rectangle on the grid of step [2^j] is halved without rounding, and
    its quadrants are on the grid of step [2^(j-1)]. *)
Lemma on_grid_halving (r : FloatRect.t) (X Y W H j : Z) :
  on_grid r X Y W H j -> - 124 <= j <= 100 ->
  0 <= X -> 0 <= Y -> 0 <= W -> 0 <= H ->
  2 * X + W < 2 ^ 24 -> 2 * Y + H < 2 ^ 24 ->
  let hw := (FloatRect.width r / two)%f32 in
  let hh := (FloatRect.height r / two)%f32 in
  let x := FloatRect.left r in
  let y := FloatRect.top r in
  halving_exact r /\
  on_grid (FloatRect.mk x y hw hh) (2 * X) (2 * Y) W H (j - 1) /\
  on_grid (FloatRect.mk (x + hw)%f32 y hw hh) (2 * X + W) (2 * Y) W H (j - 1) /\
  on_grid (FloatRect.mk x (y + hh)%f32 hw hh) (2 * X) (2 * Y + H) W H (j - 1) /\
  on_grid (FloatRect.mk (x + hw)%f32 (y + hh)%f32 hw hh)
    (2 * X + W) (2 * Y + H) W H (j - 1).
Proof.
  intros (Sx & Sy & Sw & Sh) Hj HX HY HW HH BX BY hw hh x y.
  subst hw hh x y.
  pose proof (div_two_scaled _ _ _ Sw ltac:(lia)) as Shw.
  pose proof (div_two_scaled _ _ _ Sh ltac:(lia)) as Shh.
  pose proof (scaled_double _ _ _ Sx ltac:(lia) ltac:(lia)) as Sx2.
  pose proof (scaled_double _ _ _ Sy ltac:(lia) ltac:(lia)) as Sy2.
  pose proof (add_scaled _ _ _ _ _ Sx2 Shw ltac:(lia) ltac:(lia)) as Smx.
  pose proof (add_scaled _ _ _ _ _ Sy2 Shh ltac:(lia) ltac:(lia)) as Smy.
  split; [|repeat split; assumption].
  unfold halving_exact.
  pose proof (scaled_exactly _ _ _ Sx) as Ex.
  pose proof (scaled_exactly _ _ _ Sy) as Ey.
  pose proof (scaled_exactly _ _ _ Sw) as Ew.
  pose proof (scaled_exactly _ _ _ Sh) as Eh.
  apply exactly_to_Q in Ex, Ey, Ew, Eh.
  destruct Ex as (vx & -> & Ex), Ey as (vy & -> & Ey),
           Ew as (vw & -> & Ew), Eh as (vh & -> & Eh).
  pose proof (scaled_exactly _ _ _ Shw) as Ehw.
  pose proof (scaled_exactly _ _ _ Shh) as Ehh.
  pose proof (scaled_exactly _ _ _ Smx) as Emx.
  pose proof (scaled_exactly _ _ _ Smy) as Emy.
  unfold Binary32.exactly in *.
  destruct (Binary32.to_Q (FloatRect.width r / two)%f32) as [v1|];
    [|contradiction].
  destruct (Binary32.to_Q (FloatRect.height r / two)%f32) as [v2|];
    [|contradiction].
  destruct (Binary32.to_Q (FloatRect.left r + FloatRect.width r / two)%f32)
    as [v3|]; [|contradiction].
  destruct (Binary32.to_Q (FloatRect.top r + FloatRect.height r / two)%f32)
    as [v4|]; [|contradiction].
  rewrite Ehw, Ehh, Emx, Emy, Ex, Ey, Ew, Eh, Qpower_pred.
  rewrite !inject_Z_plus, !inject_Z_mult.
  change (inject_Z 2) with 2%Q.
  repeat split; field.
Qed.

Lemma node_at_cons (i : nat) (path : list nat) (q : Quadtree) :
  node_at (i :: path) q =
  match nth_error (children q) i with
  | Some c => node_at path c
  | None => None
  end.
Proof. reflexivity. Qed.

Lemma subdivide_grid_nat (n : nat) :
  forall (rect : FloatRect.t) (X Y W H j : Z),
    on_grid rect X Y W H j ->
    - 124 + Z.of_nat n <= j <= 100 ->
    0 <= X -> 0 <= Y -> 0 <= W -> 0 <= H ->
    (X + W) * 2 ^ Z.of_nat n < 2 ^ 24 -> (Y + H) * 2 ^ Z.of_nat n < 2 ^ 24 ->
    exists t : Quadtree,
      subdivide (Quadtree_new rect (Z.of_nat n)) = Ok t /\
      bounds t = rect /\ tiled t.
Proof.
  induction n as [|n IH]; intros rect X Y W H j G Hj HX HY HW HH BX BY.
  - exists (Quadtree_new rect 0). rewrite subdivide_depth_le_0 by (simpl; lia).
    split; [reflexivity|]. split; [reflexivity|].
    intros [|i path] node E C.
    + injection E as <-. contradiction C. reflexivity.
    + rewrite node_at_cons in E. destruct i; discriminate E.
  - assert (Hpos : 0 < Z.of_nat (S n)) by lia.
    rewrite Nat2Z.inj_succ, Z.pow_succ_r in BX, BY by lia.
    assert (P : 0 < 2 ^ Z.of_nat n) by (apply Z.pow_pos_nonneg; lia).
    destruct (on_grid_halving rect X Y W H j G ltac:(lia) HX HY HW HH
                ltac:(nia) ltac:(nia)) as (E & G0 & G1 & G2 & G3).
    rewrite (subdivide_new_pos rect _ Hpos).
    replace (Z.of_nat (S n) - 1) with (Z.of_nat n) by lia.
    set (hw := (FloatRect.width rect / two)%f32) in *.
    set (hh := (FloatRect.height rect / two)%f32) in *.
    set (x := FloatRect.left rect) in *. set (y := FloatRect.top rect) in *.
    destruct (IH _ _ _ _ _ _ G0 ltac:(lia) ltac:(lia) ltac:(lia) HW HH
                ltac:(nia) ltac:(nia)) as (tl & -> & Btl & Ttl).
    destruct (IH _ _ _ _ _ _ G1 ltac:(lia) ltac:(lia) ltac:(lia) HW HH
                ltac:(nia) ltac:(nia)) as (tr & -> & Btr & Ttr).
    destruct (IH _ _ _ _ _ _ G2 ltac:(lia) ltac:(lia) ltac:(lia) HW HH
                ltac:(nia) ltac:(nia)) as (bl & -> & Bbl & Tbl).
    destruct (IH _ _ _ _ _ _ G3 ltac:(lia) ltac:(lia) ltac:(lia) HW HH
                ltac:(nia) ltac:(nia)) as (br & -> & Bbr & Tbr).
    cbn [bind]. eexists; split; [reflexivity|]. split; [reflexivity|].
    intros [|i path] node En C.
    + injection En as <-. cbn [bounds children map].
      rewrite Btl, Btr, Bbl, Bbr. apply quadrants_tile, E.
    + rewrite node_at_cons in En. cbn [children] in En.
      destruct i as [|[|[|[|i]]]]; cbn [nth_error] in En.
      * apply (Ttl path node En C).
      * apply (Ttr path node En C).
      * apply (Tbl path node En C).
      * apply (Tbr path node En C).
      * destruct i; discriminate En.
Qed.

(** On pixels the quadtree is exact.  [subdivide] on a region created
    with the integer rectangle [(x, y, w, h)], none negative, and the
    depth [d], builds a tree in which every node that has children is
    tiled by them, with no gap and no overlap, as long as
    [(x + w) * 2^d] and [(y + h) * 2^d] are below [2^24]. *)
Theorem subdivide_pixels (x y w h d : Z) :
  let rect :=
    FloatRect.mk (Binary32.of_int x) (Binary32.of_int y)
      (Binary32.of_int w) (Binary32.of_int h) in
  0 <= d <= 100 -> 0 <= x -> 0 <= y -> 0 <= w -> 0 <= h ->
  (x + w) * 2 ^ d < 2 ^ 24 -> (y + h) * 2 ^ d < 2 ^ 24 ->
  exists t : Quadtree,
    subdivide (Quadtree_new rect d) = Ok t /\ bounds t = rect /\ tiled t.
Proof.
  intros rect Hd Hx Hy Hw Hh Bx By.
  assert (P : 1 <= 2 ^ d) by (apply (Z.pow_le_mono_r 2 0 d); lia).
  rewrite <- (Z2Nat.id d) in Bx, By |- * by lia.
  apply (subdivide_grid_nat (Z.to_nat d) rect x y w h 0); try lia.
  rewrite (Z2Nat.id d) in Bx, By by lia.
  repeat split; apply of_int_scaled; nia.
Qed.

Lemma subdivide_pixels_witness :
  exists t : Quadtree,
    subdivide (Quadtree_new screen 3) = Ok t /\ bounds t = screen /\ tiled t.
Proof. apply (subdivide_pixels 0 0 1920 1080 3); cbn; lia. Defined.

(** The quadtree of [main] tiles the window.  For every window less than
    [2^21] pixels wide and high, the tree [main] builds has the rectangle
    of the window at its root, and every node that has children is tiled
    by them, with no gap and no overlap: nothing is rounded. *)
Theorem main_quadtree_tiles (window : RenderWindow.t) :
  let size := RenderWindow.size window in
  0 <= Vector2u.x size < 2 ^ 21 -> 0 <= Vector2u.y size < 2 ^ 21 ->
  exists s0 : Program.t,
    init window = Ok s0 /\
    bounds (Program.root s0) =
      FloatRect.mk zero zero (Binary32.of_int (Vector2u.x size))
        (Binary32.of_int (Vector2u.y size)) /\
    tiled (Program.root s0).
Proof.
  intros size Hw Hh. unfold init. fold size.
  destruct (subdivide_grid_nat 3
              (FloatRect.mk zero zero (Binary32.of_int (Vector2u.x size))
                 (Binary32.of_int (Vector2u.y size)))
              0 0 (Vector2u.x size) (Vector2u.y size) 0)
    as (t & Ht & Bt & Tt); try (cbn; lia).
  - change (2 ^ 21) with 2097152 in *.
    repeat split; try apply of_int_scaled; cbn; lia.
  - change (Z.of_nat 3) with 3 in Ht. rewrite Ht. cbn [bind].
    eexists; split; [reflexivity|]. split; assumption.
Qed.

Lemma main_quadtree_tiles_witness :
  exists s0 : Program.t,
    init desktop = Ok s0 /\
    bounds (Program.root s0) = screen /\
    tiled (Program.root s0).
Proof. apply (main_quadtree_tiles desktop); cbn; lia. Defined.

(** ** The default zoom factor *)

Lemma one_scaled : Binary32.scaled Camera.one 1 0.
Proof. repeat split. discriminate. Qed.

Lemma mul_one_scaled (x : float) (n j : Z) :
  Binary32.scaled x n j -> - 125 <= j <= 100 -> Z.abs n < 2 ^ 24 ->
  Binary32.scaled (x * Camera.one)%f32 n j.
Proof.
  intros Hx Hj Hn. destruct x as [s|s| |s m e];
    cbn [Binary32.scaled] in Hx; try contradiction.
  - destruct Hx as [-> ->]. split; reflexivity.
  - pose proof (mul_scaled s false m 8388608 e (-23) n 1 j 0 Hx one_scaled)
      as M.
    rewrite Z.mul_1_r, Z.add_0_r in M. apply M; lia.
Qed.

Lemma div_one_scaled (x : float) (n j : Z) :
  Binary32.scaled x n j -> - 125 <= j ->
  Binary32.scaled (x / Camera.one)%f32 n j.
Proof.
  intros Hx Hj. destruct x as [s|s| |s m e];
    cbn [Binary32.scaled] in Hx; try contradiction.
  - destruct Hx as [-> ->]. split; reflexivity.
  - pose proof (scaled_finite_inv _ _ _ _ _ Hx Hj) as (A & Pn & _ & D & R).
    destruct Hx as (B & L & E).
    assert (Le : j - 23 <= e).
    { rewrite A, Zdigits2_mul_pow2 in D by lia.
      pose proof (Zdigits2_log2 (Z.abs n) Pn).
      pose proof (Z.log2_nonneg (Z.abs n)). lia. }
    unfold Binary32.div, Camera.one. cbn [SFdiv]. unfold SFdiv_core_binary.
    rewrite D. change (Zdigits2 8388608) with 24.
    replace (fexp Binary32.prec Binary32.emax (24 + e - (24 + -23)))
      with (e - 1)
      by (unfold fexp, emin, Binary32.prec, Binary32.emax; lia).
    replace (Z.min (e - 1) (e - -23)) with (e - 1) by lia.
    replace (e - -23 - (e - 1)) with 24 by lia.
    cbv beta iota zeta.
    rewrite Z.shiftl_mul_pow2 by lia.
    replace (Z.pos m * 2 ^ 24) with (2 * Z.pos m * 8388608) by lia.
    rewrite div_eucl_mul by lia. cbv beta iota.
    change (new_location 8388608 0) with loc_Exact.
    rewrite xorb_false_r.
    replace (2 * Z.pos m) with (Z.pos m * 2 ^ 1) by lia.
    rewrite (binary_round_aux_exact Binary32.prec Binary32.emax s m e 1 B)
      by lia.
    cbn [Binary32.scaled]. split; [exact B|]. split; [exact L | exact E].
Qed.

(** With the zoom factor [1.f] the constructor gives, the conversions are
    exact on pixels: for a camera and a point at integer coordinates,
    [convertWorldToView] is the difference of the coordinates and
    [convertViewToWorld] brings it back to the point, as long as the
    coordinates and their differences are below [2^24] in absolute
    value. *)
Theorem default_zoom_round_trip (cx cy px py : Z) :
  let c := Camera.new (Vector2i.to_Vector2f (Vector2i.mk cx cy)) in
  let p := Vector2i.to_Vector2f (Vector2i.mk px py) in
  Z.abs cx < 2 ^ 24 -> Z.abs cy < 2 ^ 24 ->
  Z.abs px < 2 ^ 24 -> Z.abs py < 2 ^ 24 ->
  Z.abs (px - cx) < 2 ^ 24 -> Z.abs (py - cy) < 2 ^ 24 ->
  Camera.convertWorldToView c p =
    Vector2i.to_Vector2f (Vector2i.mk (px - cx) (py - cy)) /\
  Camera.convertViewToWorld c (Camera.convertWorldToView c p) = p.
Proof.
  intros c p Hcx Hcy Hpx Hpy Hdx Hdy.
  assert (V : forall a b : Z,
             Z.abs a < 2 ^ 24 -> Z.abs b < 2 ^ 24 -> Z.abs (a - b) < 2 ^ 24 ->
             ((Binary32.of_int a - Binary32.of_int b) * Camera.one)%f32 =
               Binary32.of_int (a - b) /\
             (Binary32.of_int (a - b) / Camera.one + Binary32.of_int b)%f32 =
               Binary32.of_int a).
  { intros a b Ha Hb Hab. rewrite of_int_sub by assumption. split.
    - apply (scaled_unique _ _ (a - b) 0).
      + apply mul_one_scaled; [apply of_int_scaled, Hab | lia | exact Hab].
      + apply of_int_scaled, Hab.
    - apply (scaled_unique _ _ a 0).
      + replace a with (a - b + b) at 2 by lia.
        apply add_scaled; try lia.
        * apply div_one_scaled; [apply of_int_scaled, Hab | lia].
        * apply of_int_scaled, Hb.
      + apply of_int_scaled, Ha. }
  destruct (V px cx Hpx Hcx Hdx) as [Vx1 Vx2].
  destruct (V py cy Hpy Hcy Hdy) as [Vy1 Vy2].
  assert (W : Camera.convertWorldToView c p =
              Vector2i.to_Vector2f (Vector2i.mk (px - cx) (py - cy))).
  { unfold Camera.convertWorldToView, Vector2f.scale, Vector2f.sub, c, p,
      Camera.new, Vector2i.to_Vector2f.
    cbn [Camera.position Camera.zoomFactor Vector2f.x Vector2f.y
         Vector2i.x Vector2i.y].
    rewrite Vx1, Vy1. reflexivity. }
  split; [exact W|]. rewrite W.
  unfold Camera.convertViewToWorld, Vector2f.add, Vector2f.div, c, p,
    Camera.new, Vector2i.to_Vector2f.
  cbn [Camera.position Camera.zoomFactor Vector2f.x Vector2f.y
       Vector2i.x Vector2i.y].
  rewrite Vx2, Vy2. reflexivity.
Qed.

Lemma default_zoom_round_trip_witness :
  let c := Camera.new (Vector2i.to_Vector2f (Vector2i.mk 960 540)) in
  let p := Vector2i.to_Vector2f (Vector2i.mk 13 1079) in
  Camera.convertWorldToView c p =
    Vector2i.to_Vector2f (Vector2i.mk (- 947) 539) /\
  Camera.convertViewToWorld c (Camera.convertWorldToView c p) = p.
Proof. apply (default_zoom_round_trip 960 540 13 1079); cbn; lia. Defined.
